(** * Gesture shooter: a shallow embedding of the game core

    The development follows the three Python modules of the game:
    [targets.py] (module [Target]), [hand_tracker.py] (module
    [MovementFilter]) and [game_engine.py] (module [GameEngine]).

    Conventions of the embedding.
    - A Python [int] is a [Z]; a Python [float] is a rational [Q].
      [round] is Python's round-half-to-even, [int] of a float truncates
      toward zero, [//] is floor division.
    - The float arithmetic of [Target.update] and [Target.check_collision],
      where the outcome of a comparison hangs on the last bit, is rounded
      as the machine rounds it: [b64] sends the exact result of every
      operation to the nearest binary64 number, ties to even.  Overflow to
      infinity is not part of [b64]; statements that would meet it carry a
      bound on the size of their inputs.  Elsewhere a float operation
      stands for its exact result and a decimal literal for the rational
      it spells.
    - A Python object that is compared or removed by identity, or mutated
      in place while a list holds it, carries an [oid], the address it
      received when it was allocated; [store] writes a mutated object back
      to the list that holds it.
    - Everything the code asks of its surroundings (wall clock, random
      module, [math.cos]/[math.sin]) is answered by an environment [Env];
      the [World] counts the questions asked so far, allocates object
      identities and records the cues handed to the sound device.
    - A method is a function into the monad [M]: it threads the [World]
      and fails ([None]) where Python raises. *)

From Stdlib Require Import String ZArith QArith Qround Qminmax Qabs Qpower Bool List Lia Lqa.
Import ListNotations.
Open Scope string_scope.
Open Scope list_scope.
Open Scope Z_scope.

(** ** Python numerics *)

Definition Qltb (a b : Q) : bool := negb (Qle_bool b a).

(** [round(q)] with one argument: nearest integer, ties to the even one. *)
Definition py_round (q : Q) : Z :=
  let f := Qfloor q in
  match (q - inject_Z f ?= 1 # 2)%Q with
  | Lt => f
  | Gt => f + 1
  | Eq => if Z.even f then f else f + 1
  end.

(** The binary exponent of a rational that is not zero: the [e] with
    2^e <= |q| < 2^(e+1). *)
Definition Qlog2 (q : Q) : Z :=
  let e := Z.log2 (Z.abs (Qnum q)) - Z.log2 (Z.pos (Qden q)) in
  if Qle_bool (2 ^ e) (Qabs q) then e else e - 1.

(** The unit in the last place of the binary64 numbers around [q]: 52
    binary places below the exponent of [q], and for the subnormal numbers
    52 places below the exponent -1022. *)
Definition ulp (q : Q) : Q := (2 ^ (Z.max (Qlog2 q) (-1022) - 52))%Q.

(** The binary64 number nearest to [q], ties to the even significand:
    the result of a float operation whose exact result is [q]. *)
Definition b64 (q : Q) : Q :=
  if Qeq_bool q 0 then 0%Q
  else Qred (inject_Z (py_round (q / ulp q)) * ulp q).

(** [float(n)] of an int, also where an int meets a float in arithmetic. *)
Definition py_float (n : Z) : Q := b64 (inject_Z n).

(** [int(q)] of a float: truncation toward zero. *)
Definition py_int (q : Q) : Z := Z.quot (Qnum q) (Z.pos (Qden q)).

(** [a // b] on floats: the floor of the quotient. *)
Definition py_floordiv (a b : Q) : Z := Qfloor (a / b).

(** [math.pi] is the double 884279719003555 / 2^48. *)
Definition math_pi : Q := 884279719003555 # 281474976710656.

(** An RGB colour and a pixel position are tuples of ints. *)
Abbreviation Color := (Z * Z * Z)%type (only parsing).
Abbreviation Pos := (Z * Z)%type (only parsing).

Definition Color_eqb (a b : Color) : bool :=
  let '(r1, g1, b1) := a in
  let '(r2, g2, b2) := b in
  (r1 =? r2) && (g1 =? g2) && (b1 =? b2).

Definition Pos_eqb (a b : Pos) : bool :=
  (fst a =? fst b) && (snd a =? snd b).

(** ** Environment, world and the method monad *)

Record Env := {
  clock : nat -> Q;            (* answer of the n-th call of time.time(), seconds *)
  rand_float : nat -> Q;       (* n-th draw, as random.random() would return it *)
  rand_below : nat -> Z -> Z;  (* n-th draw, as an integer below the bound *)
  cos : Q -> Q;                (* math.cos *)
  sin : Q -> Q                 (* math.sin *)
}.

Record World := mkWorld {
  clock_reads : nat;           (* calls of time.time() so far *)
  rng_calls : nat;             (* draws from the random module so far *)
  next_oid : nat;              (* next free object identity *)
  played : list string         (* cues given to Sound.play, oldest first *)
}.

Definition M (A : Type) : Type := World -> option (A * World).

Definition ret {A : Type} (a : A) : M A := fun w => Some (a, w).

Definition bind {A B : Type} (m : M A) (k : A -> M B) : M B :=
  fun w => match m w with
           | Some (a, w') => k a w'
           | None => None
           end.

Definition raise {A : Type} : M A := fun _ => None.

Notation "x <- m ;; k" := (bind m (fun x => k))
  (at level 100, m at next level, right associativity).
Notation "m ;;; k" := (bind m (fun _ => k))
  (at level 100, right associativity).

Definition lift {A : Type} (o : option A) : M A :=
  match o with
  | Some a => ret a
  | None => raise
  end.

(** [for x in l: body] over a state [S]. *)
Fixpoint for_each {A S : Type} (l : list A) (body : A -> S -> M S) (s : S) : M S :=
  match l with
  | [] => ret s
  | a :: l' => s' <- body a s ;; for_each l' body s'
  end.

(** [time.time()] *)
Definition time_time (E : Env) : M Q :=
  fun w => Some (clock E (clock_reads w),
                 mkWorld (S (clock_reads w)) (rng_calls w) (next_oid w) (played w)).

(** [int(time.time() * 1000.0)] *)
Definition now_ms (E : Env) : M Z :=
  t <- time_time E ;; ret (py_int (t * 1000)).

(** [random.random()] *)
Definition random_random (E : Env) : M Q :=
  fun w => Some (rand_float E (rng_calls w),
                 mkWorld (clock_reads w) (S (rng_calls w)) (next_oid w) (played w)).

(** [random.uniform(a, b)] is [a + (b - a) * random()]. *)
Definition random_uniform (E : Env) (a b : Q) : M Q :=
  r <- random_random E ;; ret (a + (b - a) * r)%Q.

(** [random.randint(a, b)]: ValueError on an empty range. *)
Definition random_randint (E : Env) (a b : Z) : M Z :=
  if b <? a then raise
  else fun w => Some (a + rand_below E (rng_calls w) (b - a + 1),
                      mkWorld (clock_reads w) (S (rng_calls w)) (next_oid w) (played w)).

(** Allocation of a fresh object. *)
Definition new_oid : M nat :=
  fun w => Some (next_oid w,
                 mkWorld (clock_reads w) (rng_calls w) (S (next_oid w)) (played w)).

(** [Sound.play()] of the cue named [key]. *)
Definition Sound_play (key : string) : M unit :=
  fun w => Some (tt, mkWorld (clock_reads w) (rng_calls w) (next_oid w) (played w ++ [key])).

(** ** Python lists *)

(** [l.remove(x)]: drops the first entry equal to [x], ValueError when
    there is none. *)
Fixpoint list_remove {A : Type} (same : A -> bool) (l : list A) : option (list A) :=
  match l with
  | [] => None
  | a :: l' =>
      if same a then Some l'
      else match list_remove same l' with
           | Some r => Some (a :: r)
           | None => None
           end
  end.

(** An in-place mutation of the object [o] seen through a list that holds it. *)
Definition store {A : Type} (oid : A -> nat) (o : A) (l : list A) : list A :=
  map (fun e => if Nat.eqb (oid e) (oid o) then o else e) l.

(** [l[-n:]] for [n >= 1]: the last [n] entries. *)
Definition lastn {A : Type} (n : nat) (l : list A) : list A :=
  skipn (length l - n) l.

Fixpoint sumZ (l : list Z) : Z :=
  match l with
  | [] => 0
  | a :: l' => a + sumZ l'
  end.

(** ** targets.py *)

Module Target.

Record t := mk {
  oid : nat;
  x : Q;
  y : Q;
  type : string;
  bounds : Z * Z;
  radius : Z;
  color : Color;
  points : Z;
  vx : Q;
  vy : Q
}.

(** [Target.__init__] *)
Definition __init__ (E : Env) (x0 y0 : Z) (target_type : string) (bounds0 : Z * Z)
  (speed_mul size_mul points_mul : Q) : M t :=
  o <- new_oid ;;
  let base_radius : Q := (if negb (String.eqb target_type "small") then 40 else 20)%Q in
  let radius0 := Z.max 8 (py_round (base_radius * size_mul)) in
  if String.eqb target_type "moving" then
    u <- random_uniform E 1 3 ;;
    let speed := (u * Qmax 0.1 speed_mul)%Q in
    ang <- random_uniform E 0 (2 * math_pi) ;;
    ret (mk o (inject_Z x0) (inject_Z y0) target_type bounds0 radius0 (255, 255, 0)
            (py_round (20 * points_mul)) (cos E ang * speed) (sin E ang * speed))
  else if String.eqb target_type "small" then
    ret (mk o (inject_Z x0) (inject_Z y0) target_type bounds0 radius0 (255, 0, 0)
            (py_round (30 * points_mul)) 0 0)
  else
    ret (mk o (inject_Z x0) (inject_Z y0) target_type bounds0 radius0 (0, 255, 0)
            (py_round (10 * points_mul)) 0 0).

(** One axis of the bounce in [Target.update]: the advanced coordinate [p]
    with its velocity [v], against the extent [lim] of the play area.  The
    two tests compare a float, [p - r] and [p + r] as float arithmetic
    gives them, with an int; the clamped coordinate is the int itself. *)
Definition bounce (p v : Q) (r lim : Z) : Q * Q :=
  if Qltb (b64 (p - py_float r)) 0 then (inject_Z r, v * -1)%Q
  else if Qltb (inject_Z lim) (b64 (p + py_float r)) then (inject_Z (lim - r), v * -1)%Q
  else (p, v).

(** [Target.update] *)
Definition update (s : t) : t :=
  if String.eqb (type s) "moving" then
    let x1 := b64 (x s + vx s) in
    let y1 := b64 (y s + vy s) in
    let '(w, h) := bounds s in
    let '(x2, vx2) := bounce x1 (vx s) (radius s) w in
    let '(y2, vy2) := bounce y1 (vy s) (radius s) h in
    mk (oid s) x2 y2 (type s) (bounds s) (radius s) (color s) (points s) vx2 vy2
  else s.

(** [Target.check_collision] *)
Definition check_collision (s : t) (pos : Pos) : bool :=
  let dx := b64 (x s - py_float (fst pos)) in
  let dy := b64 (y s - py_float (snd pos)) in
  Qle_bool (b64 (b64 (dx * dx) + b64 (dy * dy))) (inject_Z (radius s * radius s)).

(** [a is b]; [Target] defines no [__eq__], so this is also [a == b]. *)
Definition same (a b : t) : bool := Nat.eqb (oid a) (oid b).

End Target.

(** ** hand_tracker.py: the movement filter *)

Module MovementFilter.

Record t := mk {
  _buffer_size : Z;
  buffer : list Pos          (* a deque with maxlen = _buffer_size *)
}.

(** [deque(l, maxlen=n)] keeps the last [n] entries of [l]. *)
Definition deque (l : list Pos) (maxlen : Z) : list Pos :=
  lastn (Z.to_nat maxlen) l.

(** [MovementFilter.__init__] *)
Definition __init__ (buffer_size : Z) : t :=
  let n := Z.max 1 buffer_size in
  mk n (deque [] n).

(** [MovementFilter.set_buffer_size] *)
Definition set_buffer_size (buffer_size : Z) (f : t) : t :=
  let buffer_size := Z.max 1 buffer_size in
  if buffer_size =? _buffer_size f then f
  else
    let old := buffer f in
    mk buffer_size (deque (lastn (Z.to_nat buffer_size) old) buffer_size).

(** [MovementFilter.add_position]; appending to a full deque drops its
    oldest entry. *)
Definition add_position (pos : option Pos) (f : t) : t :=
  match pos with
  | Some p => mk (_buffer_size f) (deque (buffer f ++ [p]) (_buffer_size f))
  | None => f
  end.

(** [MovementFilter.get_filtered_position] *)
Definition get_filtered_position (f : t) : option Pos :=
  match buffer f with
  | [] => None
  | _ =>
      let n := inject_Z (Z.of_nat (length (buffer f))) in
      let avg_x := py_round (inject_Z (sumZ (map fst (buffer f))) / n) in
      let avg_y := py_round (inject_Z (sumZ (map snd (buffer f))) / n) in
      Some (avg_x, avg_y)
  end.

End MovementFilter.

(** ** game_engine.py: the effect entities *)

Fixpoint list_eqb {A : Type} (eqb : A -> A -> bool) (l1 l2 : list A) : bool :=
  match l1, l2 with
  | [], [] => true
  | a :: l1', b :: l2' => eqb a b && list_eqb eqb l1' l2'
  | _, _ => false
  end.

Module Particle.

Record t := mk {
  x : Q;
  y : Q;
  vx : Q;
  vy : Q;
  life : Z;
  max_life : Q;
  radius : Z;
  color : Color
}.

(** [==] of two particle dicts. *)
Definition eqb (a b : t) : bool :=
  Qeq_bool (x a) (x b) && Qeq_bool (y a) (y b)
  && Qeq_bool (vx a) (vx b) && Qeq_bool (vy a) (vy b)
  && (life a =? life b) && Qeq_bool (max_life a) (max_life b)
  && (radius a =? radius b) && Color_eqb (color a) (color b).

End Particle.

Module Explosion.

Record t := mk {
  oid : nat;
  particles : list Particle.t
}.

Definition eqb (a b : t) : bool := list_eqb Particle.eqb (particles a) (particles b).

(** The test of [list.remove]: the same object, or an equal one. *)
Definition same (item value : t) : bool := Nat.eqb (oid item) (oid value) || eqb item value.

End Explosion.

Module Shockwave.

Record t := mk {
  oid : nat;
  x : Z;
  y : Z;
  r : Q;
  max_r : Q;
  life : Z;
  max_life : Q;
  color : Color
}.

Definition eqb (a b : t) : bool :=
  (x a =? x b) && (y a =? y b) && Qeq_bool (r a) (r b) && Qeq_bool (max_r a) (max_r b)
  && (life a =? life b) && Qeq_bool (max_life a) (max_life b) && Color_eqb (color a) (color b).

Definition same (item value : t) : bool := Nat.eqb (oid item) (oid value) || eqb item value.

End Shockwave.

Module Tracer.

Record t := mk {
  oid : nat;
  start : Pos;
  end_ : Pos;
  life : Z;
  max_life : Q
}.

Definition eqb (a b : t) : bool :=
  Pos_eqb (start a) (start b) && Pos_eqb (end_ a) (end_ b)
  && (life a =? life b) && Qeq_bool (max_life a) (max_life b).

Definition same (item value : t) : bool := Nat.eqb (oid item) (oid value) || eqb item value.

End Tracer.

Module MuzzleFlash.

Record t := mk {
  pos : Pos;
  end_ : Z
}.

End MuzzleFlash.

(** ** game_engine.py: input events *)

Inductive Key : Type :=
| K_ESCAPE | K_p | K_o | K_r | K_1 | K_2 | K_3 | K_4 | K_m
| K_MINUS | K_KP_MINUS | K_EQUALS | K_KP_PLUS | K_SPACE | K_other.

Inductive Event : Type :=
| QUIT
| KEYDOWN (key : Key)
| KEYUP (key : Key)
| MOUSEBUTTONDOWN (button : Z) (pos : Pos)
| MOUSEBUTTONUP (button : Z)
| MOUSEMOTION (pos : Pos)
| OTHER.

(** A [pygame.Rect] as (x, y, width, height). *)
Record Rect := mkRect { rx : Z; ry : Z; rw : Z; rh : Z }.

Definition collidepoint (rc : Rect) (px py : Z) : bool :=
  (rx rc <=? px) && (px <? rx rc + rw rc) && (ry rc <=? py) && (py <? ry rc + rh rc).

(** What the tracker hands to one loop iteration, with the frame time of
    [clock.tick(60)] and the queued events. *)
Record Frame := mkFrame {
  dt_ms : Z;
  events : list Event;
  g_shoot : bool;
  g_reload : bool;
  g_pause : bool;
  aim_pos : option Pos
}.

(** ** game_engine.py: the engine *)

Module GameEngine.

(** One entry of [difficulty_levels]. *)
Record Profile := mkProfile {
  cfg_spawn_interval : Z;
  cfg_spawn_interval_min : Z;
  cfg_max_ammo : Z;
  cfg_shot_cooldown_ms : Z;
  cfg_speed_mul : Q;
  cfg_size_mul : Q;
  cfg_points_mul : Q;
  cfg_weights : list (string * Q)
}.

Definition Easy : Profile :=
  mkProfile 70 30 8 300 0.85 1.10 0.9 [("static", 0.6%Q); ("moving", 0.3%Q); ("small", 0.1%Q)].

Definition Normal : Profile :=
  mkProfile 60 20 6 250 1.0 1.0 1.0 [("static", 0.5%Q); ("moving", 0.35%Q); ("small", 0.15%Q)].

Definition Hard : Profile :=
  mkProfile 50 10 5 220 1.25 0.9 1.2 [("static", 0.35%Q); ("moving", 0.45%Q); ("small", 0.20%Q)].

(** [self.difficulty_levels.get(level)] *)
Definition difficulty_levels (level : string) : option Profile :=
  if String.eqb level "Easy" then Some Easy
  else if String.eqb level "Normal" then Some Normal
  else if String.eqb level "Hard" then Some Hard
  else None.

(** The attributes of a [GameEngine]; [sounds] lists the cues whose
    [Sound] object is loaded.  The attributes that only serve the drawing
    (screen, font, crosshair radius) and the per-cue volumes are left out. *)
Record t := mk {
  screen_width : Z;
  screen_height : Z;
  running : bool;
  paused : bool;
  score : Z;
  max_ammo : Z;
  ammo : Z;
  reloading : bool;
  reload_time_ms : Z;
  reload_started_at : Q;
  reload_gesture_active : bool;
  pause_gesture_active : bool;
  targets : list Target.t;
  spawn_timer : Z;
  spawn_interval : Z;
  spawn_interval_min : Z;
  start_time : Q;
  last_shot_time : Z;
  shot_cooldown_ms : Z;
  shoot_key_held : bool;
  explosions : list Explosion.t;
  muzzle_flashes : list MuzzleFlash.t;
  shockwaves : list Shockwave.t;
  tracers : list Tracer.t;
  no_ammo_msg_end_ms : Z;
  audio_enabled : bool;
  sounds : list string;
  master_volume : Q;
  muted : bool;
  show_options : bool;
  _options_dragging_volume : bool;
  _options_paused_prev : bool;
  difficulty : string;
  target_speed_mul : Q;
  target_size_mul : Q;
  points_mul : Q;
  spawn_weights : list (string * Q)
}.

Definition eta (s : t) : t :=
  mk (screen_width s) (screen_height s) (running s) (paused s) (score s) (max_ammo s)
     (ammo s) (reloading s) (reload_time_ms s) (reload_started_at s)
     (reload_gesture_active s) (pause_gesture_active s) (targets s) (spawn_timer s)
     (spawn_interval s) (spawn_interval_min s) (start_time s) (last_shot_time s)
     (shot_cooldown_ms s) (shoot_key_held s) (explosions s) (muzzle_flashes s)
     (shockwaves s) (tracers s) (no_ammo_msg_end_ms s) (audio_enabled s) (sounds s)
     (master_volume s) (muted s) (show_options s) (_options_dragging_volume s)
     (_options_paused_prev s) (difficulty s) (target_speed_mul s) (target_size_mul s)
     (points_mul s) (spawn_weights s).

(** [self.<field> = v]: the record [s] with one attribute replaced. *)
Ltac assign field s v :=
  let e := eval cbv beta delta [eta] in (eta s) in
  match eval pattern (field s) in e with
  | ?f _ => let r := eval cbv beta in (f v) in exact r
  end.

Definition set_running (v : bool) (s : t) : t := ltac:(assign running s v).
Definition set_paused (v : bool) (s : t) : t := ltac:(assign paused s v).
Definition set_score (v : Z) (s : t) : t := ltac:(assign score s v).
Definition set_max_ammo (v : Z) (s : t) : t := ltac:(assign max_ammo s v).
Definition set_ammo (v : Z) (s : t) : t := ltac:(assign ammo s v).
Definition set_reloading (v : bool) (s : t) : t := ltac:(assign reloading s v).
Definition set_reload_started_at (v : Q) (s : t) : t := ltac:(assign reload_started_at s v).
Definition set_reload_gesture_active (v : bool) (s : t) : t :=
  ltac:(assign reload_gesture_active s v).
Definition set_pause_gesture_active (v : bool) (s : t) : t :=
  ltac:(assign pause_gesture_active s v).
Definition set_targets (v : list Target.t) (s : t) : t := ltac:(assign targets s v).
Definition set_spawn_timer (v : Z) (s : t) : t := ltac:(assign spawn_timer s v).
Definition set_spawn_interval (v : Z) (s : t) : t := ltac:(assign spawn_interval s v).
Definition set_spawn_interval_min (v : Z) (s : t) : t := ltac:(assign spawn_interval_min s v).
Definition set_last_shot_time (v : Z) (s : t) : t := ltac:(assign last_shot_time s v).
Definition set_shot_cooldown_ms (v : Z) (s : t) : t := ltac:(assign shot_cooldown_ms s v).
Definition set_shoot_key_held (v : bool) (s : t) : t := ltac:(assign shoot_key_held s v).
Definition set_explosions (v : list Explosion.t) (s : t) : t := ltac:(assign explosions s v).
Definition set_muzzle_flashes (v : list MuzzleFlash.t) (s : t) : t :=
  ltac:(assign muzzle_flashes s v).
Definition set_shockwaves (v : list Shockwave.t) (s : t) : t := ltac:(assign shockwaves s v).
Definition set_tracers (v : list Tracer.t) (s : t) : t := ltac:(assign tracers s v).
Definition set_no_ammo_msg_end_ms (v : Z) (s : t) : t := ltac:(assign no_ammo_msg_end_ms s v).
Definition set_master_volume (v : Q) (s : t) : t := ltac:(assign master_volume s v).
Definition set_muted (v : bool) (s : t) : t := ltac:(assign muted s v).
Definition set_show_options (v : bool) (s : t) : t := ltac:(assign show_options s v).
Definition set__options_dragging_volume (v : bool) (s : t) : t :=
  ltac:(assign _options_dragging_volume s v).
Definition set__options_paused_prev (v : bool) (s : t) : t :=
  ltac:(assign _options_paused_prev s v).
Definition set_difficulty (v : string) (s : t) : t := ltac:(assign difficulty s v).
Definition set_target_speed_mul (v : Q) (s : t) : t := ltac:(assign target_speed_mul s v).
Definition set_target_size_mul (v : Q) (s : t) : t := ltac:(assign target_size_mul s v).
Definition set_points_mul (v : Q) (s : t) : t := ltac:(assign points_mul s v).
Definition set_spawn_weights (v : list (string * Q)) (s : t) : t :=
  ltac:(assign spawn_weights s v).

(** The walk of [_weighted_choice] over the weights, [acc] accumulated so far. *)
Fixpoint weighted_walk (r acc : Q) (items : list (string * Q)) : option string :=
  match items with
  | [] => None
  | (name, w) :: rest =>
      let acc := (acc + w)%Q in
      if Qle_bool r acc then Some name else weighted_walk r acc rest
  end.

(** [GameEngine._weighted_choice]; [items[-1]] raises IndexError on an
    empty list. *)
Definition _weighted_choice (E : Env) (s : t) : M string :=
  let items := spawn_weights s in
  r <- random_random E ;;
  match weighted_walk r 0 items with
  | Some name => ret name
  | None =>
      match rev items with
      | (name, _) :: _ => ret name
      | [] => raise
      end
  end.

(** [GameEngine.spawn_target] *)
Definition spawn_target (E : Env) (s : t) : M t :=
  ttype <- _weighted_choice E s ;;
  x <- random_randint E 50 (screen_width s - 50) ;;
  y <- random_randint E 50 (screen_height s - 50) ;;
  tg <- Target.__init__ E x y ttype (screen_width s, screen_height s)
          (target_speed_mul s) (target_size_mul s) (points_mul s) ;;
  ret (set_targets (targets s ++ [tg]) s).

(** [GameEngine._play_sound] *)
Definition _play_sound (key : string) (s : t) : M unit :=
  if existsb (String.eqb key) (sounds s) && audio_enabled s
  then Sound_play key
  else ret tt.

(** The [for i in range(n)] loop of [_spawn_explosion]. *)
Fixpoint spawn_particles (E : Env) (n : nat) (x y : Z) (color : Color)
  (parts : list Particle.t) : M (list Particle.t) :=
  match n with
  | O => ret parts
  | S n' =>
      ang <- random_uniform E 0 (2 * math_pi) ;;
      spd <- random_uniform E 1.5 4.0 ;;
      life <- random_randint E 250 600 ;;
      radius <- random_randint E 2 4 ;;
      spawn_particles E n' x y color
        (parts ++ [Particle.mk (inject_Z x) (inject_Z y) (cos E ang * spd) (sin E ang * spd)
                     life (inject_Z life) radius color])
  end.

(** [GameEngine._spawn_explosion] *)
Definition _spawn_explosion (E : Env) (x y : Z) (color : Color) (s : t) : M t :=
  parts <- spawn_particles E 18 x y color [] ;;
  o <- new_oid ;;
  ret (set_explosions (explosions s ++ [Explosion.mk o parts]) s).

(** [GameEngine._spawn_shockwave] *)
Definition _spawn_shockwave (x y : Z) (color : Color) (s : t) : M t :=
  o <- new_oid ;;
  ret (set_shockwaves (shockwaves s ++ [Shockwave.mk o x y 8.0 90.0 350 350.0 color]) s).

(** [GameEngine._spawn_tracer] *)
Definition _spawn_tracer (start end_ : Pos) (s : t) : M t :=
  o <- new_oid ;;
  ret (set_tracers (tracers s ++ [Tracer.mk o start end_ 120 120.0]) s).

(** The body of the loop of [check_hit] for the target [tg]. *)
Definition check_hit_body (E : Env) (aim : Pos) (tg : Target.t) (s : t) : M t :=
  if Target.check_collision tg aim then
    let s := set_score (score s + Target.points tg) s in
    ts <- lift (list_remove (fun item => Target.same item tg) (targets s)) ;;
    let s := set_targets ts s in
    s <- _spawn_explosion E (py_int (Target.x tg)) (py_int (Target.y tg)) (Target.color tg) s ;;
    _play_sound "hit" s ;;;
    s <- _spawn_shockwave (py_int (Target.x tg)) (py_int (Target.y tg)) (Target.color tg) s ;;
    _spawn_tracer aim (py_int (Target.x tg), py_int (Target.y tg)) s
  else ret s.

(** [GameEngine.check_hit]: the loop runs over the copy [self.targets[:]]. *)
Definition check_hit (E : Env) (aim_pos : option Pos) (s : t) : M t :=
  match aim_pos with
  | None => ret s
  | Some aim => for_each (targets s) (check_hit_body E aim) s
  end.

(** [GameEngine._maybe_increase_difficulty] *)
Definition _maybe_increase_difficulty (E : Env) (s : t) : M t :=
  now <- time_time E ;;
  let elapsed := (now - start_time s)%Q in
  let step := py_floordiv elapsed 20 in
  let target_interval := Z.max (spawn_interval_min s) (60 - step * 5) in
  if negb (target_interval =? spawn_interval s)
  then ret (set_spawn_interval target_interval s)
  else ret s.

(** [GameEngine._apply_difficulty] *)
Definition _apply_difficulty (level : string) (s : t) : t :=
  let cfg := match difficulty_levels level with
             | Some c => c
             | None => Normal
             end in
  let s := set_spawn_interval (cfg_spawn_interval cfg) s in
  let s := set_spawn_interval_min (cfg_spawn_interval_min cfg) s in
  let s := set_max_ammo (cfg_max_ammo cfg) s in
  let s := set_ammo (max_ammo s) s in
  let s := set_shot_cooldown_ms (cfg_shot_cooldown_ms cfg) s in
  let s := set_target_speed_mul (cfg_speed_mul cfg) s in
  let s := set_target_size_mul (cfg_size_mul cfg) s in
  let s := set_points_mul (cfg_points_mul cfg) s in
  set_spawn_weights (cfg_weights cfg) s.

(** The inner loop of [_update_explosions]: one particle, mutated in place. *)
Definition advance_particle (dt : Z) (p : Particle.t) : Particle.t :=
  Particle.mk (Particle.x p + Particle.vx p) (Particle.y p + Particle.vy p)
    (Particle.vx p * 0.98) (Particle.vy p * 0.98) (Particle.life p - dt)
    (Particle.max_life p) (Particle.radius p) (Particle.color p).

(** One explosion after its particles were advanced and the dead ones dropped. *)
Definition advance_explosion (dt : Z) (ex : Explosion.t) : Explosion.t :=
  let parts := map (advance_particle dt) (Explosion.particles ex) in
  Explosion.mk (Explosion.oid ex) (filter (fun p => 0 <? Particle.life p) parts).

Definition explosion_done (ex : Explosion.t) : bool :=
  match Explosion.particles ex with
  | [] => true
  | _ => false
  end.

(** The body of the loop of [_update_explosions] on the live list. *)
Definition update_explosions_body (dt : Z) (ex : Explosion.t) (live : list Explosion.t)
  : M (list Explosion.t) :=
  let ex' := advance_explosion dt ex in
  let live := store Explosion.oid ex' live in
  if explosion_done ex'
  then lift (list_remove (fun item => Explosion.same item ex') live)
  else ret live.

(** [GameEngine._update_explosions] *)
Definition _update_explosions (dt : Z) (s : t) : M t :=
  live <- for_each (explosions s) (update_explosions_body dt) (explosions s) ;;
  ret (set_explosions live s).

Definition advance_shockwave (dt : Z) (sw : Shockwave.t) : Shockwave.t :=
  Shockwave.mk (Shockwave.oid sw) (Shockwave.x sw) (Shockwave.y sw)
    (Shockwave.r sw + 180.0 * (inject_Z dt / 1000.0)) (Shockwave.max_r sw)
    (Shockwave.life sw - dt) (Shockwave.max_life sw) (Shockwave.color sw).

Definition shockwave_done (sw : Shockwave.t) : bool :=
  Qle_bool (Shockwave.max_r sw) (Shockwave.r sw) || (Shockwave.life sw <=? 0).

Definition update_shockwaves_body (dt : Z) (sw : Shockwave.t) (live : list Shockwave.t)
  : M (list Shockwave.t) :=
  let sw' := advance_shockwave dt sw in
  let live := store Shockwave.oid sw' live in
  if shockwave_done sw'
  then lift (list_remove (fun item => Shockwave.same item sw') live)
  else ret live.

(** [GameEngine._update_shockwaves] *)
Definition _update_shockwaves (dt : Z) (s : t) : M t :=
  live <- for_each (shockwaves s) (update_shockwaves_body dt) (shockwaves s) ;;
  ret (set_shockwaves live s).

Definition advance_tracer (dt : Z) (tr : Tracer.t) : Tracer.t :=
  Tracer.mk (Tracer.oid tr) (Tracer.start tr) (Tracer.end_ tr) (Tracer.life tr - dt)
    (Tracer.max_life tr).

Definition tracer_done (tr : Tracer.t) : bool := Tracer.life tr <=? 0.

Definition update_tracers_body (dt : Z) (tr : Tracer.t) (live : list Tracer.t)
  : M (list Tracer.t) :=
  let tr' := advance_tracer dt tr in
  let live := store Tracer.oid tr' live in
  if tracer_done tr'
  then lift (list_remove (fun item => Tracer.same item tr') live)
  else ret live.

(** [GameEngine._update_tracers] *)
Definition _update_tracers (dt : Z) (s : t) : M t :=
  live <- for_each (tracers s) (update_tracers_body dt) (tracers s) ;;
  ret (set_tracers live s).

(** [GameEngine._spawn_muzzle_flash] *)
Definition _spawn_muzzle_flash (E : Env) (pos : option Pos) (s : t) : M t :=
  match pos with
  | None => ret s
  | Some p =>
      now <- now_ms E ;;
      ret (set_muzzle_flashes (muzzle_flashes s ++ [MuzzleFlash.mk p (now + 90)]) s)
  end.

(** [GameEngine._update_muzzle_flashes] *)
Definition _update_muzzle_flashes (E : Env) (s : t) : M t :=
  now <- now_ms E ;;
  ret (set_muzzle_flashes (filter (fun m => now <? MuzzleFlash.end_ m) (muzzle_flashes s)) s).

(** [GameEngine._toggle_pause] *)
Definition _toggle_pause (s : t) : t := set_paused (negb (paused s)) s.

(** [GameEngine._start_reload] *)
Definition _start_reload (E : Env) (s : t) : M t :=
  if negb (reloading s) && (ammo s <? max_ammo s) then
    let s := set_reloading true s in
    now <- time_time E ;;
    ret (set_reload_started_at (now * 1000.0) s)
  else ret s.

(** [GameEngine._update_reload] *)
Definition _update_reload (E : Env) (s : t) : M t :=
  if reloading s then
    now <- time_time E ;;
    if Qle_bool (inject_Z (reload_time_ms s)) (now * 1000.0 - reload_started_at s) then
      let s := set_reloading false s in
      let s := set_ammo (max_ammo s) s in
      _play_sound "reload" s ;;;
      ret s
    else ret s
  else ret s.

(** [GameEngine._can_shoot] *)
Definition _can_shoot (E : Env) (s : t) : M bool :=
  if paused s then ret false
  else if reloading s then ret false
  else if ammo s <=? 0 then ret false
  else
    now <- now_ms E ;;
    if now - last_shot_time s <? shot_cooldown_ms s then ret false
    else ret true.

(** [GameEngine._shoot] *)
Definition _shoot (E : Env) (aim_pos : option Pos) (s : t) : M t :=
  ok <- _can_shoot E s ;;
  if negb ok then ret s
  else
    now <- now_ms E ;;
    let s := set_last_shot_time now s in
    let s := set_ammo (ammo s - 1) s in
    s <- _spawn_muzzle_flash E aim_pos s ;;
    _play_sound "shot" s ;;;
    check_hit E aim_pos s.

(** [GameEngine._try_shoot] *)
Definition _try_shoot (E : Env) (aim_pos : option Pos) (s : t) : M t :=
  if paused s || reloading s then ret s
  else
    now <- now_ms E ;;
    if ammo s <=? 0 then
      _play_sound "dry" s ;;;
      ret (set_no_ammo_msg_end_ms (now + 700) s)
    else if now - last_shot_time s <? shot_cooldown_ms s then ret s
    else _shoot E aim_pos s.

(** [GameEngine._change_volume]; [_apply_volume] only talks to the loaded
    [Sound] objects and leaves the engine as it is. *)
Definition _change_volume (delta : Q) (s : t) : t :=
  set_master_volume (Qmax 0.0 (Qmin 1.0 (master_volume s + delta))) s.

(** [GameEngine._toggle_mute] *)
Definition _toggle_mute (s : t) : t := set_muted (negb (muted s)) s.

(** The rectangles of [GameEngine._options_layout] that take clicks. *)
Definition panel_x (s : t) : Z := (screen_width s - 640) / 2.
Definition panel_y (s : t) : Z := (screen_height s - 360) / 2.
Definition mute_btn (s : t) : Rect := mkRect (panel_x s + 20) (panel_y s + 110) 100 32.
Definition vol_bar (s : t) : Rect := mkRect (panel_x s + 140) (panel_y s + 110) 360 16.
Definition preview_shot (s : t) : Rect := mkRect (panel_x s + 20) (panel_y s + 180) 120 36.
Definition preview_hit (s : t) : Rect := mkRect (panel_x s + 170) (panel_y s + 180) 120 36.
Definition preview_reload (s : t) : Rect := mkRect (panel_x s + 320) (panel_y s + 180) 120 36.
Definition preview_dry (s : t) : Rect := mkRect (panel_x s + 470) (panel_y s + 180) 120 36.
Definition resume_btn (s : t) : Rect :=
  mkRect (panel_x s + 640 - 160) (panel_y s + 360 - 56) 140 40.

(** [GameEngine._toggle_options] *)
Definition _toggle_options (s : t) : t :=
  if negb (show_options s) then
    let s := set__options_paused_prev (paused s) s in
    let s := set_show_options true s in
    let s := set_paused true s in
    set__options_dragging_volume false s
  else
    let s := set_show_options false s in
    let s := set_paused (_options_paused_prev s) s in
    set__options_dragging_volume false s.

(** The volume set from a pointer position on the bar. *)
Definition set_volume_at (mx : Z) (s : t) : t :=
  let frac := (inject_Z (mx - rx (vol_bar s)) / inject_Z (rw (vol_bar s)))%Q in
  set_master_volume (Qmax 0.0 (Qmin 1.0 frac)) s.

(** [GameEngine._handle_options_event] *)
Definition _handle_options_event (event : Event) (s : t) : M t :=
  match event with
  | KEYDOWN K_ESCAPE | KEYDOWN K_o => ret (_toggle_options s)
  | KEYDOWN K_m => ret (_toggle_mute s)
  | KEYDOWN K_MINUS | KEYDOWN K_KP_MINUS => ret (_change_volume (-0.05) s)
  | KEYDOWN K_EQUALS | KEYDOWN K_KP_PLUS => ret (_change_volume 0.05 s)
  | KEYDOWN K_1 => _play_sound "shot" s ;;; ret s
  | KEYDOWN K_2 => _play_sound "hit" s ;;; ret s
  | KEYDOWN K_3 => _play_sound "reload" s ;;; ret s
  | KEYDOWN K_4 => _play_sound "dry" s ;;; ret s
  | KEYDOWN _ => ret s
  | MOUSEBUTTONDOWN button (mx, my) =>
      if button =? 1 then
        if collidepoint (resume_btn s) mx my then ret (_toggle_options s)
        else if collidepoint (mute_btn s) mx my then ret (_toggle_mute s)
        else if collidepoint (preview_shot s) mx my then _play_sound "shot" s ;;; ret s
        else if collidepoint (preview_hit s) mx my then _play_sound "hit" s ;;; ret s
        else if collidepoint (preview_reload s) mx my then _play_sound "reload" s ;;; ret s
        else if collidepoint (preview_dry s) mx my then _play_sound "dry" s ;;; ret s
        else if collidepoint (vol_bar s) mx my
             then ret (set__options_dragging_volume true (set_volume_at mx s))
        else ret s
      else ret s
  | MOUSEBUTTONUP button =>
      if button =? 1 then ret (set__options_dragging_volume false s) else ret s
  | MOUSEMOTION (mx, my) =>
      if _options_dragging_volume s then ret (set_volume_at mx s) else ret s
  | _ => ret s
  end.

(** One event of [GameEngine._handle_events] with the options menu closed. *)
Definition handle_game_event (E : Env) (event : Event) (s : t) : M t :=
  match event with
  | QUIT => ret (set_running false s)
  | KEYDOWN K_ESCAPE => ret (set_running false s)
  | KEYDOWN K_p => ret (_toggle_pause s)
  | KEYDOWN K_o => ret (_toggle_options s)
  | KEYDOWN K_r => _start_reload E s
  | KEYDOWN K_1 => ret (_apply_difficulty "Easy" (set_difficulty "Easy" s))
  | KEYDOWN K_2 => ret (_apply_difficulty "Normal" (set_difficulty "Normal" s))
  | KEYDOWN K_3 => ret (_apply_difficulty "Hard" (set_difficulty "Hard" s))
  | KEYDOWN K_m => ret (_toggle_mute s)
  | KEYDOWN K_MINUS | KEYDOWN K_KP_MINUS => ret (_change_volume (-0.05) s)
  | KEYDOWN K_EQUALS | KEYDOWN K_KP_PLUS => ret (_change_volume 0.05 s)
  | KEYDOWN K_SPACE => ret (set_shoot_key_held true s)
  | KEYUP K_SPACE => ret (set_shoot_key_held false s)
  | _ => ret s
  end.

(** [GameEngine._handle_events] over the queued events. *)
Definition _handle_events (E : Env) (evs : list Event) (s : t) : M t :=
  for_each evs
    (fun event s =>
       if show_options s then _handle_options_event event s
       else handle_game_event E event s)
    s.

(** The clock readings of [GameEngine._draw_hud] (reload bar, NO AMMO hint)
    and of [GameEngine._draw_muzzle_flashes]; pixels are not modelled. *)
Definition _draw_hud (E : Env) (s : t) : M unit :=
  (if reloading s then time_time E ;;; ret tt else ret tt) ;;;
  now_ms E ;;;
  ret tt.

Definition _draw_muzzle_flashes (E : Env) : M unit :=
  now_ms E ;;; ret tt.

(** [GameEngine.run], gesture edges for pause and reload and the two
    shooting inputs (the block from "Gesture edge handling for pause" to
    "Keyboard shooting"). *)
Definition run_input (E : Env) (fr : Frame) (s : t) : M t :=
  let s := if g_pause fr then
             if negb (pause_gesture_active s)
             then set_pause_gesture_active true (_toggle_pause s)
             else s
           else set_pause_gesture_active false s in
  s <- (if g_reload fr then
          if negb (reload_gesture_active s) then
            s <- _start_reload E s ;;
            ret (set_reload_gesture_active true s)
          else ret s
        else ret (set_reload_gesture_active false s)) ;;
  s <- (if g_shoot fr then _try_shoot E (aim_pos fr) s else ret s) ;;
  if shoot_key_held s then _try_shoot E (aim_pos fr) s else ret s.

(** [GameEngine.run], the block "Spawn targets if not paused" with the
    update of the targets. *)
Definition run_world (E : Env) (s : t) : M t :=
  if negb (paused s) then
    let s := set_spawn_timer (spawn_timer s + 1) s in
    s <- (if spawn_interval s <=? spawn_timer s then
            s <- spawn_target E s ;;
            let s := set_spawn_timer 0 s in
            _maybe_increase_difficulty E s
          else ret s) ;;
    ret (set_targets (map Target.update (targets s)) s)
  else ret s.

(** [GameEngine.run], the block "Update effects". *)
Definition run_effects (E : Env) (dt : Z) (s : t) : M t :=
  s <- _update_explosions dt s ;;
  s <- _update_muzzle_flashes E s ;;
  s <- _update_shockwaves dt s ;;
  _update_tracers dt s.

(** [GameEngine.run], one iteration up to "Update reload progress": the
    events, the gestures and the reload timer. *)
Definition run_before_world (E : Env) (fr : Frame) (s : t) : M t :=
  s <- _handle_events E (events fr) s ;;
  s <- run_input E fr s ;;
  _update_reload E s.

(** [GameEngine.run], one iteration from "Update effects" on; of the
    drawing only the readings of the clock are kept. *)
Definition run_after_world (E : Env) (fr : Frame) (s : t) : M t :=
  s <- run_effects E (dt_ms fr) s ;;
  _draw_hud E s ;;;
  _draw_muzzle_flashes E ;;;
  ret s.

(** One iteration of the loop of [GameEngine.run]. *)
Definition run_iteration (E : Env) (fr : Frame) (s : t) : M t :=
  s <- run_before_world E fr s ;;
  s <- run_world E s ;;
  run_after_world E fr s.

(** [GameEngine.run] over the frames the surroundings supply. *)
Fixpoint run (E : Env) (frames : list Frame) (s : t) : M t :=
  match frames with
  | [] => ret s
  | fr :: rest =>
      if running s then s <- run_iteration E fr s ;; run E rest s
      else ret s
  end.

(** [GameEngine.__init__]; [audio_ok] and [loaded] are what [_init_audio]
    found: whether the mixer opened and which cues have a [Sound]. *)
Definition __init__ (E : Env) (screen_width screen_height : Z)
  (audio_ok : bool) (loaded : list string) : M t :=
  start <- time_time E ;;
  ret (_apply_difficulty "Normal"
         (mk screen_width screen_height true false 0 6 6 false 1200 0.0 false false
             [] 0 60 20 start 0 250 false [] [] [] [] 0 audio_ok loaded 0.8 false
             false false false "Normal" 1.0 1.0 1.0 [])).

End GameEngine.

(** * Specification vocabulary *)

(** Total correctness: the method returns, and [P] holds of its result. *)
Definition returns {A : Type} (m : M A) (w : World) (P : A -> World -> Prop) : Prop :=
  exists a w', m w = Some (a, w') /\ P a w'.

(** Partial correctness: [P] holds of the result whenever there is one. *)
Definition ensures {A : Type} (m : M A) (w : World) (P : A -> World -> Prop) : Prop :=
  forall a w', m w = Some (a, w') -> P a w'.

(** The squared distance between two points of the plane. *)
Definition dist2 (ax ay bx by_ : Q) : Q :=
  ((bx - ax) * (bx - ax) + (by_ - ay) * (by_ - ay))%Q.

(** Squared length of the velocity of a target. *)
Definition speed2 (tg : Target.t) : Q :=
  (Target.vx tg * Target.vx tg + Target.vy tg * Target.vy tg)%Q.

(** The two axes of the play area, and what a target has along each of
    them: its coordinate, its velocity and the extent of its play area. *)
Inductive Axis : Type := Horizontal | Vertical.

Definition coord (a : Axis) (tg : Target.t) : Q :=
  match a with Horizontal => Target.x tg | Vertical => Target.y tg end.

Definition vel (a : Axis) (tg : Target.t) : Q :=
  match a with Horizontal => Target.vx tg | Vertical => Target.vy tg end.

Definition extent (a : Axis) (tg : Target.t) : Z :=
  match a with
  | Horizontal => fst (Target.bounds tg)
  | Vertical => snd (Target.bounds tg)
  end.

(** Sizes that leave float arithmetic [g] binary places after the point:
    the advanced coordinate and the radius are below 2^(52 - g). *)
Definition tame (g : Z) (a : Axis) (tg : Target.t) : Prop :=
  0 <= g <= 52
  /\ (Qabs (coord a tg + vel a tg) < 2 ^ (52 - g))%Q
  /\ Z.abs (Target.radius tg) < 2 ^ (52 - g).


(** Centre and aim point within 4096 pixels of the origin on both axes. *)
Definition near_origin (tg : Target.t) (pos : Z * Z) : Prop :=
  (Qabs (Target.x tg) <= 4096)%Q /\ (Qabs (Target.y tg) <= 4096)%Q
  /\ Z.abs (fst pos) <= 4096 /\ Z.abs (snd pos) <= 4096.

(** ** A concrete environment and concrete inputs

    The clock starts at 1 s and advances by 10 ms at every reading, every
    draw of the random module sits in the middle of its range, and the unit
    circle is given
    by its rational parametrisation, so that [cos]^2 + [sin]^2 = 1 holds
    exactly. *)
Definition demo_cos (a : Q) : Q := ((1 - a * a) / (1 + a * a))%Q.
Definition demo_sin (a : Q) : Q := ((2 * a) / (1 + a * a))%Q.

Definition demo_env : Env :=
  Build_Env (fun n => Z.of_nat (100 + n) # 100)
            (fun _ => 0.5%Q)
            (fun _ bound => bound / 2)
            demo_cos demo_sin.

Definition demo_world : World := mkWorld 0 0 0 [].

(** The target of the collision and bounce tests: centre (10, 100), radius
    12, moving left at 5 pixels a frame inside a 200 x 200 area. *)
Definition demo_mover : Target.t :=
  Target.mk 0 10 100 "moving" (200, 200) 12 (255, 255, 0) 20 (-5) 0.

Definition demo_static : Target.t :=
  Target.mk 1 100 100 "static" (200, 200) 40 (0, 255, 0) 10 0 0.

(** A moving target 2^-30 of a pixel below the row of the aim point
    (140, 100), which is one radius to its right. *)
Definition demo_offrow : Target.t :=
  Target.mk 2 100 (100 + (1 # 1073741824)) "moving" (200, 200) 40 (255, 255, 0) 20 0 0.



(** The filter of the averaging test after its three samples. *)
Definition demo_filter : MovementFilter.t :=
  MovementFilter.add_position (Some (6, 12))
    (MovementFilter.add_position (Some (9, 6))
       (MovementFilter.add_position (Some (0, 0)) (MovementFilter.__init__ 3))).

(** The deque of a movement filter never holds more than its window. *)
Definition window_ok (f : MovementFilter.t) : Prop :=
  1 <= MovementFilter._buffer_size f
  /\ (length (MovementFilter.buffer f) <= Z.to_nat (MovementFilter._buffer_size f))%nat.

(** The world after one more reading of the clock. *)
Definition clock_read (w : World) : World :=
  mkWorld (S (clock_reads w)) (rng_calls w) (next_oid w) (played w).

(** [int(time.time() * 1000.0)] as the next reading of the clock gives it. *)
Definition next_now_ms (E : Env) (w : World) : Z :=
  py_int (clock E (clock_reads w) * 1000).

(** The engine right after [GameEngine.__init__] at the default screen
    size, with the mixer open and the four cues loaded; the session
    starts at the first reading of the concrete clock. *)
Definition demo_engine : GameEngine.t :=
  GameEngine.mk 1280 720 true false 0 6 6 false 1200 0.0 false false
    [] 0 60 20 (100 # 100) 0 250 false [] [] [] [] 0 true ["shot"; "hit"; "reload"; "dry"]
    0.8 false
    false false false "Normal" 1.0 1.0 1.0
    [("static", 0.5%Q); ("moving", 0.35%Q); ("small", 0.15%Q)].




(** The attributes a call of [check_hit] may write: the score, the live
    targets and the three lists of effects. *)
Definition with_hit (s : GameEngine.t) (sc : Z) (ts : list Target.t)
  (ex : list Explosion.t) (sw : list Shockwave.t) (tr : list Tracer.t) : GameEngine.t :=
  GameEngine.set_tracers tr
    (GameEngine.set_shockwaves sw
       (GameEngine.set_explosions ex
          (GameEngine.set_targets ts (GameEngine.set_score sc s)))).

(** The targets whose circle contains the aim point, and the others. *)
Definition hit_by (aim : Z * Z) (l : list Target.t) : list Target.t :=
  filter (fun tg => Target.check_collision tg aim) l.

Definition missed_by (aim : Z * Z) (l : list Target.t) : list Target.t :=
  filter (fun tg => negb (Target.check_collision tg aim)) l.

(** Two overlapping live targets: a static one of radius 40 at (100, 100)
    and a small one of radius 20 at (110, 100); the point (105, 100) lies
    in both. *)
Definition demo_small : Target.t :=
  Target.mk 2 110 100 "small" (1280, 720) 20 (255, 0, 0) 30 0 0.

Definition demo_overlap_engine : GameEngine.t :=
  GameEngine.set_targets [demo_static; demo_small] demo_engine.

Definition demo_world_3 : World := mkWorld 10 0 3 [].

(** ** Invariants and frames of the engine *)

(** The magazine holds between nothing and its capacity. *)
Definition ammo_ok (s : GameEngine.t) : Prop :=
  0 <= GameEngine.ammo s <= GameEngine.max_ammo s.

(** The spawn cadence and the start of the session are as before. *)
Definition same_pace (s s' : GameEngine.t) : Prop :=
  GameEngine.spawn_interval s' = GameEngine.spawn_interval s
  /\ GameEngine.spawn_interval_min s' = GameEngine.spawn_interval_min s
  /\ GameEngine.start_time s' = GameEngine.start_time s.

(** The spawn timer, the live targets and the effects are as before. *)
Definition same_scene (s s' : GameEngine.t) : Prop :=
  GameEngine.targets s' = GameEngine.targets s
  /\ GameEngine.spawn_timer s' = GameEngine.spawn_timer s
  /\ GameEngine.explosions s' = GameEngine.explosions s
  /\ GameEngine.muzzle_flashes s' = GameEngine.muzzle_flashes s
  /\ GameEngine.shockwaves s' = GameEngine.shockwaves s
  /\ GameEngine.tracers s' = GameEngine.tracers s.

(** The keys that select a difficulty while the options menu is closed. *)
Definition difficulty_key (ev : Event) : bool :=
  match ev with
  | KEYDOWN K_1 | KEYDOWN K_2 | KEYDOWN K_3 => true
  | _ => false
  end.

(** The spawn interval the escalation rule prescribes at session time
    [now]: 60 frames, 5 fewer for every full 20 seconds, not below the
    minimum of the profile. *)
Definition escalated_interval (s : GameEngine.t) (now : Q) : Z :=
  Z.max (GameEngine.spawn_interval_min s)
        (60 - Qfloor ((now - GameEngine.start_time s) / 20) * 5).

(** The operations on the ammunition state, and whole frames. *)
Inductive Op : Type :=
| Op_try_shoot (aim : option (Z * Z))
| Op_shoot (aim : option (Z * Z))
| Op_start_reload
| Op_update_reload
| Op_apply_difficulty (level : string)
| Op_toggle_pause
| Op_frame (fr : Frame).

Definition perform (E : Env) (op : Op) (s : GameEngine.t) : M GameEngine.t :=
  match op with
  | Op_try_shoot aim => GameEngine._try_shoot E aim s
  | Op_shoot aim => GameEngine._shoot E aim s
  | Op_start_reload => GameEngine._start_reload E s
  | Op_update_reload => GameEngine._update_reload E s
  | Op_apply_difficulty level => ret (GameEngine._apply_difficulty level s)
  | Op_toggle_pause => ret (GameEngine._toggle_pause s)
  | Op_frame fr => GameEngine.run_iteration E fr s
  end.

(** The engine states a session can be in: the constructed engine, and
    whatever an operation makes of a reachable state. *)
Inductive reachable (E : Env) : GameEngine.t -> World -> Prop :=
| reach_init (width height : Z) (audio_ok : bool) (loaded : list string)
    (w : World) (s : GameEngine.t) (w' : World) :
    GameEngine.__init__ E width height audio_ok loaded w = Some (s, w') ->
    reachable E s w'
| reach_step (op : Op) (s : GameEngine.t) (w : World) (s' : GameEngine.t) (w' : World) :
    reachable E s w ->
    perform E op s w = Some (s', w') ->
    reachable E s' w'.

(** The sweeps of the effects, as the loops leave the lists. *)
Definition swept_explosions (dt : Z) (l : list Explosion.t) : list Explosion.t :=
  filter (fun ex => negb (GameEngine.explosion_done ex))
         (map (GameEngine.advance_explosion dt) l).

Definition swept_shockwaves (dt : Z) (l : list Shockwave.t) : list Shockwave.t :=
  filter (fun sw => negb (GameEngine.shockwave_done sw))
         (map (GameEngine.advance_shockwave dt) l).

Definition swept_tracers (dt : Z) (l : list Tracer.t) : list Tracer.t :=
  filter (fun tr => negb (GameEngine.tracer_done tr))
         (map (GameEngine.advance_tracer dt) l).

Definition swept_flashes (now : Z) (l : list MuzzleFlash.t) : list MuzzleFlash.t :=
  filter (fun m => now <? MuzzleFlash.end_ m) l.

(** What a shot that went off makes of the engine: the time of the shot,
    one round less, possibly a muzzle flash, and a hit resolution. *)
Definition fired (s s' : GameEngine.t) : Prop :=
  exists (now : Z) (mf : list MuzzleFlash.t) (sc : Z) (ts : list Target.t)
         (ex : list Explosion.t) (sw : list Shockwave.t) (tr : list Tracer.t),
    s' = with_hit
           (GameEngine.set_muzzle_flashes mf
              (GameEngine.set_ammo (GameEngine.ammo s - 1)
                 (GameEngine.set_last_shot_time now s)))
           sc ts ex sw tr.

(** The conditions of [_can_shoot], with the clock standing at [now] ms. *)
Definition may_fire (s : GameEngine.t) (now : Z) : Prop :=
  GameEngine.paused s = false /\ GameEngine.reloading s = false
  /\ 0 < GameEngine.ammo s
  /\ GameEngine.shot_cooldown_ms s <= now - GameEngine.last_shot_time s.

(** One frame before a spawn, 45 s into the session: the timer stands at
    59 of 60 and the next reading of the clock is 46 s. *)
Definition demo_spawn_engine : GameEngine.t :=
  GameEngine.set_spawn_timer 59 demo_engine.

Definition demo_world_46s : World := mkWorld 4500 0 0 [].

(** A paused engine right after a hit at (100, 100): a live target, and of
    each effect one entity.  The tracer has its 120 ms of life left; the
    muzzle flash was lit at 1000 ms and ends at 1090 ms. *)
Definition demo_paused_engine : GameEngine.t :=
  GameEngine.set_paused true
    (GameEngine.set_targets [demo_small]
       (GameEngine.set_explosions
          [Explosion.mk 3 [Particle.mk 100 100 2 0 300 300 3 (0, 255, 0);
                           Particle.mk 100 100 0 (-2) 100 250 2 (0, 255, 0)]]
          (GameEngine.set_shockwaves [Shockwave.mk 4 100 100 8.0 90.0 350 350.0 (0, 255, 0)]
             (GameEngine.set_tracers [Tracer.mk 5 (105, 100) (100, 100) 120 120.0]
                (GameEngine.set_muzzle_flashes [MuzzleFlash.mk (105, 100) 1090]
                   demo_engine))))).

Definition demo_world_6 : World := mkWorld 0 0 6 [].

(** A frame of 120 ms without events or gestures, aiming at (105, 100). *)
Definition demo_frame_120 : Frame := mkFrame 120 [] false false false (Some (105, 100)).


(** ** Object identities *)

(** The identities in [l] are pairwise different and were all allocated
    before [n]. *)
Definition fresh_below (n : nat) (l : list nat) : Prop :=
  NoDup l /\ forall o, In o l -> (o < n)%nat.

(** No list of the engine holds the same object twice, and every object
    in them was allocated by the world. *)
Definition distinct_objects (s : GameEngine.t) (w : World) : Prop :=
  fresh_below (next_oid w) (map Target.oid (GameEngine.targets s))
  /\ fresh_below (next_oid w) (map Explosion.oid (GameEngine.explosions s))
  /\ fresh_below (next_oid w) (map Shockwave.oid (GameEngine.shockwaves s))
  /\ fresh_below (next_oid w) (map Tracer.oid (GameEngine.tracers s)).

(** A computation that allocates nothing. *)
Definition keeps_oid {A : Type} (m : M A) : Prop :=
  forall w : World, ensures m w (fun _ w' => next_oid w' = next_oid w).

(** * hand_tracker.py: calibration and the two trackers *)

(** The truth value Python gives an optional list: [None] and the empty
    list are false. *)
Definition truthy {A : Type} (l : option (list A)) : bool :=
  match l with
  | Some (_ :: _) => true
  | _ => false
  end.

(** The dict of gestures a tracker reports. *)
Record Gestures := mkGestures {
  shoot : bool;
  reload : bool;
  pause : bool
}.

Definition no_gestures : Gestures := mkGestures false false false.

Module Calibration.

Record t := mk {
  sensitivity : Q;
  deadzone : Z
}.

(** [Calibration.__init__] *)
Definition __init__ : t := mk 1.0 5.

(** [Calibration.adjust_sensitivity]: the value returned and the
    calibration as the call leaves it. *)
Definition adjust_sensitivity (landmarks : option (list Pos)) (screen_height : Z) (c : t)
  : Q * t :=
  match landmarks with
  | Some (wrist :: _) =>
      let wrist_y := snd wrist in
      let base := Z.max 1 (screen_height / 2) in
      let sens := Qmax 0.5 (Qmin 2.0 (inject_Z wrist_y / inject_Z base)) in
      (sens, mk sens (deadzone c))
  | _ => (sensitivity c, c)
  end.

End Calibration.

Module HandTracker.

(** The attributes of a [HandTracker] besides the camera and the
    landmark model, which stay outside. *)
Record t := mk {
  screen_width : Z;
  screen_height : Z;
  filter : MovementFilter.t;
  calibration : Calibration.t
}.

(** [HandTracker.__init__], once the camera has opened. *)
Definition __init__ (screen_width screen_height filter_size : Z) : t :=
  mk screen_width screen_height (MovementFilter.__init__ filter_size) Calibration.__init__.

Record Fingers := mkFingers {
  index : bool;
  middle : bool;
  ring : bool;
  pinky : bool
}.

(** [is_extended] inside [_fingers_up]; [None] is Python's IndexError. *)
Definition is_extended (landmarks : list Pos) (tip_idx pip_idx : nat) : option bool :=
  match nth_error landmarks tip_idx, nth_error landmarks pip_idx with
  | Some tip, Some pip => Some (snd tip <? snd pip)
  | _, _ => None
  end.

(** [HandTracker._fingers_up] *)
Definition _fingers_up (landmarks : list Pos) : option Fingers :=
  match is_extended landmarks 8 6, is_extended landmarks 12 10,
        is_extended landmarks 16 14, is_extended landmarks 20 18 with
  | Some i, Some m, Some r, Some p => Some (mkFingers i m r p)
  | _, _, _, _ => None
  end.

(** [HandTracker.is_shooting_gesture] *)
Definition is_shooting_gesture (landmarks : option (list Pos)) : option bool :=
  match landmarks with
  | None => Some false
  | Some l =>
      if negb (truthy landmarks) || (length l <? 21)%nat then Some false
      else
        match _fingers_up l with
        | Some f => Some (index f && (negb (middle f) && negb (ring f) && negb (pinky f)))
        | None => None
        end
  end.

(** [HandTracker.detect_gestures] *)
Definition detect_gestures (landmarks : option (list Pos)) : option Gestures :=
  match landmarks with
  | None => Some no_gestures
  | Some l =>
      if negb (truthy landmarks) || (length l <? 21)%nat then Some no_gestures
      else
        match _fingers_up l with
        | Some f =>
            Some (mkGestures
                    (index f && negb (middle f) && negb (ring f) && negb (pinky f))
                    (negb (index f) && negb (middle f) && negb (ring f) && negb (pinky f))
                    (index f && middle f && ring f && pinky f))
        | None => None
        end
  end.

(** The window [get_aim_position] picks for a sensitivity. *)
Definition window_for (sens : Q) : Z :=
  if Qle_bool 1.6 sens then 3
  else if Qle_bool 1.2 sens then 4
  else if Qle_bool 0.8 sens then 5
  else 7.

(** The deadzone of [get_aim_position]: a reading closer than the
    deadzone to the last sample, on both axes, is replaced by that sample. *)
Definition settle (deadzone : Z) (buffer : list Pos) (pos : Pos) : Pos :=
  match rev buffer with
  | [] => pos
  | last :: _ =>
      if (Z.abs (fst pos - fst last) <? deadzone) && (Z.abs (snd pos - snd last) <? deadzone)
      then last
      else pos
  end.

(** [HandTracker.get_aim_position]: the position returned and the tracker
    as the call leaves it; the outer [None] is Python's IndexError. *)
Definition get_aim_position (landmarks : option (list Pos)) (tr : t)
  : option (option Pos * t) :=
  match landmarks with
  | None => Some (None, tr)
  | Some l =>
      if negb (truthy landmarks) || (length l <=? 8)%nat then Some (None, tr)
      else
        let '(sens, cal) :=
          Calibration.adjust_sensitivity landmarks (screen_height tr) (calibration tr) in
        let f := MovementFilter.set_buffer_size (window_for sens) (filter tr) in
        match nth_error l 8 with
        | None => None
        | Some tip =>
            let pos := settle (Calibration.deadzone cal) (MovementFilter.buffer f) tip in
            let f := MovementFilter.add_position (Some pos) f in
            Some (MovementFilter.get_filtered_position f,
                  mk (screen_width tr) (screen_height tr) f cal)
        end
  end.

End HandTracker.

Module MouseTracker.

Record t := mk {
  screen_width : Z;
  screen_height : Z
}.

(** [MouseTracker.get_hand_landmarks] *)
Definition get_hand_landmarks (m : t) : option (list Pos) := None.

(** [MouseTracker.detect_gestures], for the buttons (left, middle, right)
    that [pygame.mouse.get_pressed()] reports. *)
Definition detect_gestures (pressed : bool * bool * bool) : Gestures :=
  let '(b_left, b_mid, b_right) := pressed in
  mkGestures b_left b_right b_mid.

(** [MouseTracker.is_shooting_gesture] *)
Definition is_shooting_gesture (pressed : bool * bool * bool) : bool :=
  let '(b_left, _, _) := pressed in b_left.

(** [MouseTracker.get_aim_position], for the position that
    [pygame.mouse.get_pos()] reports. *)
Definition get_aim_position (mouse_pos : Pos) (m : t) : option Pos :=
  let '(x, y) := mouse_pos in
  Some (Z.max 0 (Z.min (screen_width m - 1) x),
        Z.max 0 (Z.min (screen_height m - 1) y)).

End MouseTracker.

(** [GameEngine.run], the three lines under "Update logic" with a
    [MouseTracker]: the frame the loop goes on with. *)
Definition poll_mouse (dt : Z) (evs : list Event) (pressed : bool * bool * bool)
  (mouse_pos : Pos) (m : MouseTracker.t) : Frame :=
  let landmarks := MouseTracker.get_hand_landmarks m in
  let gestures := if truthy landmarks then MouseTracker.detect_gestures pressed
                  else no_gestures in
  let aim := MouseTracker.get_aim_position mouse_pos m in
  mkFrame dt evs (shoot gestures) (reload gestures) (pause gestures) aim.

(** The same three lines with a [HandTracker] that read [landmarks] from
    the camera: the frame, and the tracker after the call. *)
Definition poll_hand (dt : Z) (evs : list Event) (landmarks : option (list Pos))
  (tr : HandTracker.t) : option (Frame * HandTracker.t) :=
  match (if truthy landmarks then HandTracker.detect_gestures landmarks
         else Some no_gestures) with
  | None => None
  | Some gestures =>
      match HandTracker.get_aim_position landmarks tr with
      | None => None
      | Some (aim, tr') =>
          Some (mkFrame dt evs (shoot gestures) (reload gestures) (pause gestures) aim, tr')
      end
  end.

(** * game_engine.py: the volume of the cues *)

Module GameEngineAudio.

(** [self.sound_volumes.get(k)] *)
Definition sound_volumes (k : string) : option Q :=
  if String.eqb k "shot" then Some 0.9%Q
  else if String.eqb k "hit" then Some 0.8%Q
  else if String.eqb k "reload" then Some 0.8%Q
  else if String.eqb k "dry" then Some 0.7%Q
  else None.

(** The volume [_apply_volume] computes for the cue [k]. *)
Definition cue_volume (s : GameEngine.t) (k : string) : Q :=
  let base := match sound_volumes k with
              | Some b => b
              | None => 1.0%Q
              end in
  if GameEngine.muted s then 0.0%Q
  else Qmax 0.0 (Qmin 1.0 (GameEngine.master_volume s * base)).

(** [GameEngine._apply_volume]: the calls of [Sound.set_volume] it makes,
    one for each loaded cue. *)
Definition _apply_volume (s : GameEngine.t) : list (string * Q) :=
  if negb (GameEngine.audio_enabled s) then []
  else map (fun k => (k, cue_volume s k)) (GameEngine.sounds s).

End GameEngineAudio.

(** ** Vocabulary of the further properties *)

(** A rectangle of pixel positions, both corners included. *)
Definition in_box (lo hi p : Z * Z) : Prop :=
  fst lo <= fst p <= fst hi /\ snd lo <= snd p <= snd hi.

(** A target lies inside its play area, radius accounted for: on both
    axes neither edge test of [Target.update] fires on its position, the
    centre is at least a radius from the low edge, and it is less than
    2^-g beyond the position [extent - radius] of the high edge. *)
Definition inside_area (g : Z) (tg : Target.t) : Prop :=
  forall a : Axis,
    (0 <= b64 (coord a tg - py_float (Target.radius tg)))%Q
    /\ (b64 (coord a tg + py_float (Target.radius tg)) <= inject_Z (extent a tg))%Q
    /\ (inject_Z (Target.radius tg) <= coord a tg)%Q
    /\ (coord a tg < inject_Z (extent a tg - Target.radius tg) + 2 ^ (- g))%Q.

(** A target of ordinary size, with [g] binary places to spare: the
    radius is not negative, the play area is at least one diameter wide
    and high, and positions and speed stay below 2^(52 - g). *)
Definition ordinary (g : Z) (tg : Target.t) : Prop :=
  0 <= g <= 52 /\ 0 <= Target.radius tg
  /\ forall a : Axis,
       2 * Target.radius tg <= extent a tg
       /\ (Qabs (coord a tg + vel a tg) < 2 ^ (52 - g))%Q
       /\ (inject_Z (extent a tg) + 1 + Qabs (vel a tg) <= 2 ^ (52 - g))%Q.

(** The operations on a movement filter. *)
Inductive FilterOp : Type :=
| F_add (pos : option (Z * Z))
| F_resize (buffer_size : Z).

Definition filter_step (f : MovementFilter.t) (op : FilterOp) : MovementFilter.t :=
  match op with
  | F_add pos => MovementFilter.add_position pos f
  | F_resize n => MovementFilter.set_buffer_size n f
  end.

(** The samples a run of operations offered to a filter. *)
Definition offered (ops : list FilterOp) (p : Z * Z) : Prop := In (F_add (Some p)) ops.

(** At most one of the three gestures is reported. *)
Definition exclusive (g : Gestures) : Prop :=
  shoot g && reload g = false /\ shoot g && pause g = false
  /\ reload g && pause g = false.

(** The pixels of a screen of the given size. *)
Definition on_screen (width height : Z) (p : Z * Z) : Prop :=
  in_box (0, 0) (width - 1, height - 1) p.

(** A hand of 21 landmarks that points: the index finger up, the three
    others folded, the wrist at half the height of a 640 x 480 screen. *)
Definition demo_hand : list (Z * Z) :=
  [(300, 240); (280, 230); (270, 215); (262, 200); (258, 190);
   (290, 180); (292, 150); (100, 120); (102, 98);
   (305, 180); (306, 175); (306, 185); (305, 195);
   (318, 182); (319, 178); (319, 188); (318, 198);
   (330, 186); (331, 183); (331, 190); (330, 199)].

(** A tracker whose filter has settled on one point. *)
Definition demo_tracker : HandTracker.t :=
  HandTracker.mk 640 480 (MovementFilter.mk 5 [(100, 100); (100, 100)])
    Calibration.__init__.

(** ** Invariants of a session *)

(** What every state of a session satisfies: there are weights to draw a
    target type from, no target and no multiplier takes points away, the
    master volume is a fraction, and the score is not negative. *)
Definition sound (s : GameEngine.t) : Prop :=
  GameEngine.spawn_weights s <> []
  /\ (0 <= GameEngine.points_mul s)%Q
  /\ Forall (fun tg => 0 <= Target.points tg) (GameEngine.targets s)
  /\ (0 <= GameEngine.master_volume s <= 1)%Q
  /\ 0 <= GameEngine.score s.

(** A step of a session: the state stays sound, the score does not drop,
    the screen keeps its size and a loop that was told to stop is not
    restarted. *)
Definition advances (s s' : GameEngine.t) : Prop :=
  sound s' /\ GameEngine.score s <= GameEngine.score s'
  /\ GameEngine.screen_width s' = GameEngine.screen_width s
  /\ GameEngine.screen_height s' = GameEngine.screen_height s
  /\ (GameEngine.running s = false -> GameEngine.running s' = false).

(** The method returns. *)
Definition halts {A : Type} (m : M A) (w : World) : Prop :=
  returns m w (fun _ _ => True).

(** The screen has room for the 50-pixel inset of the spawn area. *)
Definition roomy (s : GameEngine.t) : Prop :=
  100 <= GameEngine.screen_width s /\ 100 <= GameEngine.screen_height s.

(** A shockwave after frames of the given lengths, while it is alive. *)
Definition aged_shockwave (dts : list Z) (sw : Shockwave.t) : Shockwave.t :=
  fold_left (fun a dt => GameEngine.advance_shockwave dt a) dts sw.

(** The draws of [random.randint] answer within the range asked for. *)
Definition fair_dice (E : Env) : Prop :=
  forall (n : nat) (k : Z), 0 < k -> 0 <= rand_below E n k < k.



(** * Rounding: [round] and the binary64 numbers *)

Lemma py_round_compat (p q : Q) : (p == q)%Q -> py_round p = py_round q.
Proof.
  intros H. unfold py_round. rewrite (Qfloor_comp p q H).
  assert (Hc : (p - inject_Z (Qfloor q) ?= 1 # 2)%Q = (q - inject_Z (Qfloor q) ?= 1 # 2)%Q).
  { apply Qcompare_comp; [now rewrite H | reflexivity]. }
  now rewrite Hc.
Qed.

Lemma py_round_Z (n : Z) : py_round (inject_Z n) = n.
Proof.
  unfold py_round. rewrite Qfloor_Z.
  assert (Hc : (inject_Z n - inject_Z n ?= 1 # 2)%Q = Lt).
  { apply Qlt_alt.
    assert (H0 : (inject_Z n - inject_Z n == 0)%Q) by ring.
    rewrite H0. reflexivity. }
  now rewrite Hc.
Qed.

Lemma py_round_ge (a : Z) (q : Q) : (inject_Z a <= q)%Q -> a <= py_round q.
Proof.
  intros Ha.
  assert (Haf : a <= Qfloor q).
  { rewrite <- (Qfloor_Z a). now apply Qfloor_resp_le. }
  unfold py_round. destruct (q - inject_Z (Qfloor q) ?= 1 # 2)%Q; [|lia|lia].
  destruct (Z.even (Qfloor q)); lia.
Qed.

Lemma py_round_le (b : Z) (q : Q) : (q <= inject_Z b)%Q -> py_round q <= b.
Proof.
  intros Hb.
  pose proof (Qfloor_le q) as Hfl.
  assert (Hfb : Qfloor q <= b).
  { rewrite <- (Qfloor_Z b). now apply Qfloor_resp_le. }
  unfold py_round.
  destruct (q - inject_Z (Qfloor q) ?= 1 # 2)%Q eqn:Hc.
  - apply Qeq_alt in Hc.
    assert (Hlt : Qfloor q < b) by (rewrite Zlt_Qlt; lra).
    destruct (Z.even (Qfloor q)); lia.
  - lia.
  - apply Qgt_alt in Hc.
    assert (Hlt : Qfloor q < b) by (rewrite Zlt_Qlt; lra).
    lia.
Qed.

Lemma py_round_near (q : Q) :
  (q - (1 # 2) <= inject_Z (py_round q) <= q + (1 # 2))%Q.
Proof.
  pose proof (Qfloor_le q) as Hfl. pose proof (Qlt_floor q) as Hfu.
  rewrite inject_Z_plus in Hfu. change (inject_Z 1) with 1%Q in Hfu.
  unfold py_round.
  destruct (q - inject_Z (Qfloor q) ?= 1 # 2)%Q eqn:Hc.
  - apply Qeq_alt in Hc.
    destruct (Z.even (Qfloor q)); [|rewrite inject_Z_plus; change (inject_Z 1) with 1%Q];
      lra.
  - apply Qlt_alt in Hc. lra.
  - apply Qgt_alt in Hc. rewrite inject_Z_plus. change (inject_Z 1) with 1%Q. lra.
Qed.

(** * Powers of two *)

Lemma two_pos (e : Z) : (0 < 2 ^ e)%Q.
Proof. apply Qpower_0_lt. reflexivity. Qed.

Lemma two_plus (a b : Z) : (2 ^ (a + b) == 2 ^ a * 2 ^ b)%Q.
Proof. apply Qpower_plus. discriminate. Qed.

Lemma two_minus (a b : Z) : (2 ^ (a - b) == 2 ^ a / 2 ^ b)%Q.
Proof. apply Qpower_minus. discriminate. Qed.

Lemma two_le (a b : Z) : a <= b -> (2 ^ a <= 2 ^ b)%Q.
Proof. intros H. apply Qpower_le_compat_l; [exact H | discriminate]. Qed.

Lemma two_lt (a b : Z) : a < b -> (2 ^ a < 2 ^ b)%Q.
Proof. intros H. apply Qpower_lt_compat_l; [exact H | reflexivity]. Qed.

Lemma two_lt_inv (a b : Z) : (2 ^ a < 2 ^ b)%Q -> a < b.
Proof. intros H. apply (Qpower_lt_compat_l_inv 2); [exact H | reflexivity]. Qed.

Lemma two_Z (k : Z) : 0 <= k -> (inject_Z (2 ^ k) == 2 ^ k)%Q.
Proof. intros H. now rewrite Zpower_Qpower. Qed.

(** * The exponent *)

Lemma Qabs_frac (q : Q) :
  (Qabs q == inject_Z (Z.abs (Qnum q)) / inject_Z (Z.pos (Qden q)))%Q.
Proof.
  destruct q as [n d]. cbn [Qnum Qden]. rewrite <- Zabs_Qabs. apply Qmake_Qdiv.
Qed.

Lemma Qlog2_spec (q : Q) :
  ~ (q == 0)%Q -> (2 ^ Qlog2 q <= Qabs q < 2 ^ (Qlog2 q + 1))%Q.
Proof.
  intros Hq.
  set (n := Z.abs (Qnum q)). set (d := Z.pos (Qden q)).
  assert (Hn : 0 < n).
  { subst n. destruct q as [[|p|p] dd]; cbn; try lia. exfalso. apply Hq. reflexivity. }
  assert (Hd : 0 < d) by (subst d; lia).
  pose proof (Z.log2_spec n Hn) as [Hn1 Hn2].
  pose proof (Z.log2_spec d Hd) as [Hd1 Hd2].
  pose proof (Z.log2_nonneg n) as Han. pose proof (Z.log2_nonneg d) as Hbn.
  set (a := Z.log2 n) in *. set (b := Z.log2 d) in *.
  assert (Habs : (Qabs q == inject_Z n / inject_Z d)%Q) by apply Qabs_frac.
  assert (Hdq : (0 < inject_Z d)%Q) by (change 0%Q with (inject_Z 0); now rewrite <- Zlt_Qlt).
  assert (Hnq : (0 < inject_Z n)%Q) by (change 0%Q with (inject_Z 0); now rewrite <- Zlt_Qlt).
  assert (Hn1q : (2 ^ a <= inject_Z n)%Q) by (rewrite <- two_Z by lia; now rewrite <- Zle_Qle).
  assert (Hn2q : (inject_Z n < 2 ^ (a + 1))%Q).
  { rewrite <- two_Z by lia. rewrite <- Zlt_Qlt. exact Hn2. }
  assert (Hd1q : (2 ^ b <= inject_Z d)%Q) by (rewrite <- two_Z by lia; now rewrite <- Zle_Qle).
  assert (Hd2q : (inject_Z d < 2 ^ (b + 1))%Q).
  { rewrite <- two_Z by lia. rewrite <- Zlt_Qlt. exact Hd2. }
  assert (Hcancel : forall x y : Q, (0 < y)%Q -> (x / y * y == x)%Q).
  { intros x y Hy. field. lra. }
  assert (Hup : (Qabs q < 2 ^ (a - b + 1))%Q).
  { rewrite Habs. apply Qlt_shift_div_r; [exact Hdq|].
    replace (a - b + 1) with (a + 1 - b) by lia. rewrite two_minus.
    pose proof (two_pos b) as Hb. pose proof (two_pos (a + 1)) as Ha1.
    apply Qlt_le_trans with (2 ^ (a + 1))%Q; [exact Hn2q|].
    rewrite <- (Hcancel (2 ^ (a + 1))%Q (2 ^ b)%Q Hb) at 1.
    apply Qmult_le_l; [|exact Hd1q]. apply Qlt_shift_div_l; [exact Hb | lra]. }
  assert (Hlow : (2 ^ (a - b - 1) <= Qabs q)%Q).
  { rewrite Habs. apply Qle_shift_div_l; [exact Hdq|].
    replace (a - b - 1) with (a - (b + 1)) by lia. rewrite two_minus.
    pose proof (two_pos (b + 1)) as Hb. pose proof (two_pos a) as Ha1.
    apply Qle_trans with (2 ^ a)%Q; [|exact Hn1q].
    rewrite <- (Hcancel (2 ^ a)%Q (2 ^ (b + 1))%Q Hb) at 2.
    apply Qmult_le_l; [|lra]. apply Qlt_shift_div_l; [exact Hb | lra]. }
  unfold Qlog2. fold n d a b.
  destruct (Qle_bool (2 ^ (a - b)) (Qabs q)) eqn:Htest.
  - apply Qle_bool_iff in Htest. split; assumption.
  - replace (a - b - 1 + 1) with (a - b) by lia. split; [exact Hlow|].
    apply Qnot_le_lt. intros Hle. apply Qle_bool_iff in Hle. congruence.
Qed.

Ltac hide_pow :=
  repeat match goal with
  | |- context [Qpower 2 ?z] => let P := fresh "P" in set (P := Qpower 2 z) in *
  end.

Lemma Qabs_zero (q : Q) : (Qabs q == 0)%Q -> (q == 0)%Q.
Proof.
  intros H. destruct (Qabs_Qle_condition q 0) as [Hc _].
  assert (Hle : (Qabs q <= 0)%Q) by (rewrite H; apply Qle_refl).
  specialize (Hc Hle). lra.
Qed.

Lemma Qlog2_unique (q : Q) (e : Z) :
  (2 ^ e <= Qabs q < 2 ^ (e + 1))%Q -> Qlog2 q = e.
Proof.
  intros [Hlo Hhi].
  assert (Hq : ~ (q == 0)%Q).
  { intros H0. pose proof (two_pos e) as Hp. rewrite H0 in Hlo.
    change (Qabs 0) with 0%Q in Hlo. lra. }
  destruct (Qlog2_spec q Hq) as [Hl Hh].
  assert (H1 : e < Qlog2 q + 1) by (apply two_lt_inv; lra).
  assert (H2 : Qlog2 q < e + 1) by (apply two_lt_inv; lra).
  lia.
Qed.

Lemma Qlog2_compat (p q : Q) : (p == q)%Q -> ~ (q == 0)%Q -> Qlog2 p = Qlog2 q.
Proof.
  intros H Hq. apply Qlog2_unique. rewrite (Qabs_wd p q H). now apply Qlog2_spec.
Qed.

Lemma ulp_pos (q : Q) : (0 < ulp q)%Q.
Proof. apply two_pos. Qed.

Lemma ulp_compat (p q : Q) : (p == q)%Q -> ~ (q == 0)%Q -> ulp p = ulp q.
Proof. intros H Hq. unfold ulp. now rewrite (Qlog2_compat p q H Hq). Qed.

Lemma Qeq_bool_false (p : Q) : Qeq_bool p 0 = false <-> ~ (p == 0)%Q.
Proof.
  split.
  - intros H Heq. apply Qeq_bool_iff in Heq. congruence.
  - intros H. destruct (Qeq_bool p 0) eqn:Hb; [|reflexivity].
    apply Qeq_bool_iff in Hb. contradiction.
Qed.

Lemma b64_zero (q : Q) : (q == 0)%Q -> b64 q = 0%Q.
Proof. intros H. unfold b64. apply Qeq_bool_iff in H. now rewrite H. Qed.

Lemma b64_eq (q : Q) :
  ~ (q == 0)%Q -> (b64 q == inject_Z (py_round (q / ulp q)) * ulp q)%Q.
Proof.
  intros H. unfold b64. apply Qeq_bool_false in H. rewrite H. apply Qred_correct.
Qed.

Lemma b64_compat (p q : Q) : (p == q)%Q -> b64 p = b64 q.
Proof.
  intros H. unfold b64.
  destruct (Qeq_bool q 0) eqn:Hq.
  - apply Qeq_bool_iff in Hq. rewrite <- H in Hq. apply Qeq_bool_iff in Hq. now rewrite Hq.
  - assert (Hq' : ~ (q == 0)%Q) by now apply Qeq_bool_false.
    assert (Hp : Qeq_bool p 0 = false).
    { apply Qeq_bool_false. now rewrite H. }
    rewrite Hp, (ulp_compat p q H Hq').
    rewrite (py_round_compat (p / ulp q) (q / ulp q)) by now rewrite H.
    reflexivity.
Qed.

Lemma Qred_Z (n : Z) : Qred (inject_Z n) = inject_Z n.
Proof.
  unfold Qred, inject_Z.
  pose proof (Z.ggcd_gcd n 1) as Hg. pose proof (Z.ggcd_correct_divisors n 1) as Hd.
  destruct (Z.ggcd n 1) as [g [nn dd]]. cbn [fst snd] in *.
  rewrite Z.gcd_1_r in Hg. subst g. destruct Hd as [Hn Hdd].
  rewrite Z.mul_1_l in Hn, Hdd. subst n. rewrite <- Hdd. reflexivity.
Qed.

Lemma b64_canon (q : Q) : Qred (b64 q) = b64 q.
Proof.
  unfold b64. destruct (Qeq_bool q 0); [reflexivity|].
  apply Qred_complete, Qred_correct.
Qed.

Lemma b64_is_Z (q : Q) (n : Z) : (b64 q == inject_Z n)%Q -> b64 q = inject_Z n.
Proof.
  intros H. rewrite <- b64_canon, <- (Qred_Z n). now apply Qred_complete.
Qed.

(** A number with a significand of at most 53 bits, at or above the
    smallest subnormal, is a binary64 number: rounding leaves it as it is. *)
Lemma b64_exact (q : Q) (m k : Z) :
  (q == inject_Z m * 2 ^ k)%Q -> Z.abs m < 2 ^ 53 -> -1074 <= k -> (b64 q == q)%Q.
Proof.
  intros Hq Hm Hk.
  destruct (Z.eq_dec m 0) as [-> | Hm0].
  { assert (H0 : (q == 0)%Q) by (rewrite Hq; ring). rewrite (b64_zero q H0). now symmetry. }
  assert (Hpos : 0 < Z.abs m) by lia.
  pose proof (Z.log2_spec (Z.abs m) Hpos) as [Hl1 Hl2].
  pose proof (Z.log2_nonneg (Z.abs m)) as Ha0.
  set (a := Z.log2 (Z.abs m)) in *.
  assert (Ha52 : a <= 52).
  { assert (a < 53); [|lia]. apply (Z.log2_lt_pow2 (Z.abs m)); lia. }
  assert (Habs : (Qabs q == inject_Z (Z.abs m) * 2 ^ k)%Q).
  { rewrite (Qabs_wd q _ Hq), Qabs_Qmult.
    rewrite (Qabs_pos (2 ^ k)) by (apply Qlt_le_weak, two_pos).
    unfold Qabs, inject_Z. reflexivity. }
  assert (Hlog : Qlog2 q = a + k).
  { apply Qlog2_unique. rewrite Habs.
    pose proof (two_pos k) as Hk2.
    split.
    - rewrite two_plus. apply Qmult_le_compat_r; [|lra].
      rewrite <- two_Z by lia. now rewrite <- Zle_Qle.
    - replace (a + k + 1) with (a + 1 + k) by lia. rewrite two_plus.
      apply Qmult_lt_compat_r; [exact Hk2|].
      rewrite <- two_Z by lia. rewrite <- Zlt_Qlt. exact Hl2. }
  assert (Hnz : ~ (q == 0)%Q).
  { intros H0. rewrite H0 in Habs. change (Qabs 0) with 0%Q in Habs.
    pose proof (two_pos k) as Hk2.
    assert (Hmq : (0 < inject_Z (Z.abs m))%Q).
    { change 0%Q with (inject_Z 0). now rewrite <- Zlt_Qlt. }
    assert (Hprod : (0 < inject_Z (Z.abs m) * 2 ^ k)%Q) by nra.
    lra. }
  rewrite (b64_eq q Hnz). unfold ulp. rewrite Hlog.
  set (e := Z.max (a + k) (-1022)).
  set (j := k - (e - 52)).
  assert (Hj : 0 <= j) by (subst j e; lia).
  assert (Hquot : (q / 2 ^ (e - 52) == inject_Z (m * 2 ^ j))%Q).
  { rewrite inject_Z_mult, two_Z by exact Hj. subst j. rewrite (two_minus k (e - 52)), Hq.
    pose proof (two_pos (e - 52)). hide_pow. field. lra. }
  rewrite (py_round_compat _ _ Hquot), py_round_Z.
  rewrite inject_Z_mult, two_Z by exact Hj. subst j. rewrite (two_minus k (e - 52)), Hq.
  pose proof (two_pos (e - 52)). hide_pow. field. lra.
Qed.

Lemma b64_Z (n : Z) : Z.abs n < 2 ^ 53 -> b64 (inject_Z n) = inject_Z n.
Proof.
  intros Hn. apply b64_is_Z. apply (b64_exact (inject_Z n) n 0); [|exact Hn|lia].
  change (2 ^ 0)%Q with 1%Q. ring.
Qed.

Lemma b64_nonneg (q : Q) : (0 <= q)%Q -> (0 <= b64 q)%Q.
Proof.
  intros Hq. destruct (Qeq_dec q 0) as [H0|Hnz]; [rewrite (b64_zero q H0); apply Qle_refl|].
  rewrite (b64_eq q Hnz). pose proof (ulp_pos q) as Hu.
  assert (Hr : 0 <= py_round (q / ulp q)).
  { apply py_round_ge. change (inject_Z 0) with 0%Q. apply Qle_shift_div_l; [exact Hu | lra]. }
  apply Qmult_le_0_compat; [|lra].
  change 0%Q with (inject_Z 0). now rewrite <- Zle_Qle.
Qed.

Lemma b64_nonpos (q : Q) : (q <= 0)%Q -> (b64 q <= 0)%Q.
Proof.
  intros Hq. destruct (Qeq_dec q 0) as [H0|Hnz]; [rewrite (b64_zero q H0); apply Qle_refl|].
  rewrite (b64_eq q Hnz). pose proof (ulp_pos q) as Hu.
  assert (Hr : py_round (q / ulp q) <= 0).
  { apply py_round_le. change (inject_Z 0) with 0%Q. apply Qle_shift_div_r; [exact Hu | lra]. }
  assert (Hrq : (inject_Z (py_round (q / ulp q)) <= 0)%Q).
  { change 0%Q with (inject_Z 0). now rewrite <- Zle_Qle. }
  nra.
Qed.

(** The exponent of a number below 2^(53 - g) leaves at least [g] binary
    places after the point. *)
Lemma ulp_grid (q : Q) (g : Z) :
  ~ (q == 0)%Q -> 0 <= g <= 1074 -> (Qabs q < 2 ^ (53 - g))%Q ->
  exists j : Z, 0 <= j /\ (ulp q == 2 ^ (- g) / 2 ^ j)%Q.
Proof.
  intros Hnz Hg Hsmall.
  destruct (Qlog2_spec q Hnz) as [Hl _].
  assert (Hlog : Qlog2 q < 53 - g) by (apply two_lt_inv; lra).
  unfold ulp. set (e := Z.max (Qlog2 q) (-1022)).
  exists (52 - g - e). split; [subst e; lia|].
  rewrite <- two_minus. replace (- g - (52 - g - e)) with (e - 52) by lia. reflexivity.
Qed.

(** Rounding does not cross a number of the grid 2^-g: what is at or
    below it is rounded to a number at or below it, and likewise above. *)
Lemma b64_le_grid (q : Q) (m g : Z) :
  0 <= g <= 1074 -> (Qabs q < 2 ^ (53 - g))%Q ->
  (q <= inject_Z m * 2 ^ (- g))%Q -> (b64 q <= inject_Z m * 2 ^ (- g))%Q.
Proof.
  intros Hg Hsmall Hle.
  destruct (Qeq_dec q 0) as [H0|Hnz]; [rewrite (b64_zero q H0); now rewrite <- H0|].
  destruct (ulp_grid q g Hnz Hg Hsmall) as (j & Hj & Hu).
  rewrite (b64_eq q Hnz). pose proof (ulp_pos q) as Hup.
  pose proof (two_pos j) as Hj2. pose proof (two_pos (- g)) as Hg2.
  assert (Hc : (inject_Z m * 2 ^ (- g) == inject_Z (m * 2 ^ j) * ulp q)%Q).
  { rewrite inject_Z_mult, two_Z by exact Hj. rewrite Hu. hide_pow. field. lra. }
  assert (Hr : py_round (q / ulp q) <= m * 2 ^ j).
  { apply py_round_le. apply Qle_shift_div_r; [exact Hup|]. now rewrite <- Hc. }
  rewrite Hc. apply Qmult_le_compat_r; [|lra]. now rewrite <- Zle_Qle.
Qed.

Lemma b64_ge_grid (q : Q) (m g : Z) :
  0 <= g <= 1074 -> (Qabs q < 2 ^ (53 - g))%Q ->
  (inject_Z m * 2 ^ (- g) <= q)%Q -> (inject_Z m * 2 ^ (- g) <= b64 q)%Q.
Proof.
  intros Hg Hsmall Hle.
  destruct (Qeq_dec q 0) as [H0|Hnz]; [rewrite (b64_zero q H0); now rewrite <- H0|].
  destruct (ulp_grid q g Hnz Hg Hsmall) as (j & Hj & Hu).
  rewrite (b64_eq q Hnz). pose proof (ulp_pos q) as Hup.
  pose proof (two_pos j) as Hj2. pose proof (two_pos (- g)) as Hg2.
  assert (Hc : (inject_Z m * 2 ^ (- g) == inject_Z (m * 2 ^ j) * ulp q)%Q).
  { rewrite inject_Z_mult, two_Z by exact Hj. rewrite Hu. hide_pow. field. lra. }
  assert (Hr : m * 2 ^ j <= py_round (q / ulp q)).
  { apply py_round_ge. apply Qle_shift_div_l; [exact Hup|]. now rewrite <- Hc. }
  rewrite Hc. apply Qmult_le_compat_r; [|lra]. now rewrite <- Zle_Qle.
Qed.

Lemma b64_le_Z (q : Q) (c : Z) :
  (Qabs q < 2 ^ 53)%Q -> (q <= inject_Z c)%Q -> (b64 q <= inject_Z c)%Q.
Proof.
  intros Hs Hle. pose proof (b64_le_grid q c 0) as H.
  change (2 ^ (- 0))%Q with 1%Q in H. change (2 ^ (53 - 0))%Q with (2 ^ 53)%Q in H.
  rewrite Qmult_1_r in H. apply H; [lia | exact Hs | exact Hle].
Qed.


(** Every value of [b64] is a multiple of the smallest subnormal. *)
Lemma b64_subnormal_multiple (q : Q) :
  exists M : Z, (b64 q == inject_Z M * 2 ^ (-1074))%Q.
Proof.
  destruct (Qeq_dec q 0) as [H0|Hnz].
  { exists 0. rewrite (b64_zero q H0). ring. }
  set (e := Z.max (Qlog2 q) (-1022)).
  assert (Hu : (ulp q == 2 ^ (e + 1022) * 2 ^ (-1074))%Q).
  { unfold ulp. fold e. rewrite <- two_plus.
    replace (e + 1022 + -1074) with (e - 52) by lia. reflexivity. }
  exists (py_round (q / ulp q) * 2 ^ (e + 1022)).
  rewrite (b64_eq q Hnz), inject_Z_mult, two_Z by (subst e; lia).
  set (n := py_round (q / ulp q)). rewrite Hu. ring.
Qed.

(** A negative number that is not below the subnormal range in size is
    not rounded to zero. *)
Lemma b64_negative (q : Q) : (q <= - 2 ^ (-1074))%Q -> (b64 q < 0)%Q.
Proof.
  intros Hq. pose proof (two_pos (-1074)) as Hmin.
  assert (Hnz : ~ (q == 0)%Q) by (intros H0; lra).
  destruct (Qlog2_spec q Hnz) as [Hl _].
  assert (Habs : (Qabs q == - q)%Q) by (apply Qabs_neg; lra).
  pose proof (ulp_pos q) as Hup.
  assert (Hu : (ulp q <= - q)%Q).
  { unfold ulp in *. destruct (Z.max_spec (Qlog2 q) (-1022)) as [[_ ->] | [_ ->]].
    - change (-1022 - 52) with (-1074). lra.
    - apply Qle_trans with (2 ^ Qlog2 q)%Q; [apply two_le; lia | lra]. }
  assert (Hr : py_round (q / ulp q) <= -1).
  { apply py_round_le. apply Qle_shift_div_r; [exact Hup|].
    change (inject_Z (-1)) with (-1)%Q. lra. }
  rewrite (b64_eq q Hnz).
  assert (Hrq : (inject_Z (py_round (q / ulp q)) <= -1)%Q).
  { change (-1)%Q with (inject_Z (-1)). now rewrite <- Zle_Qle. }
  nra.
Qed.

(** The test [x - r < 0] on a binary64 number [x] and an integer [r] is
    exact: when the rounded difference is not negative, [x] is not below
    [r]. *)
Lemma b64_sub_Z_sign (q : Q) (r : Z) :
  (0 <= b64 (b64 q - inject_Z r))%Q -> (inject_Z r <= b64 q)%Q.
Proof.
  intros Hsign. apply Qnot_lt_le. intros Hlt.
  destruct (b64_subnormal_multiple q) as (M & HM).
  pose proof (two_pos (-1074)) as Hmin.
  assert (HK : (b64 q - inject_Z r == inject_Z (M - r * 2 ^ 1074) * 2 ^ (-1074))%Q).
  { unfold Z.sub. rewrite inject_Z_plus, inject_Z_opp, inject_Z_mult, two_Z by lia.
    rewrite HM. change (-1074) with (- (1074)). rewrite Qpower_opp.
    pose proof (two_pos 1074). hide_pow. field. lra. }
  assert (Hneg : M - r * 2 ^ 1074 <= -1).
  { assert (M - r * 2 ^ 1074 < 0); [|lia].
    rewrite Zlt_Qlt. change (inject_Z 0) with 0%Q.
    assert (Hd : (b64 q - inject_Z r < 0)%Q) by lra. rewrite HK in Hd.
    set (K := inject_Z (M - r * 2 ^ 1074)) in *. nra. }
  assert (Hle : (b64 q - inject_Z r <= - 2 ^ (-1074))%Q).
  { rewrite HK. rewrite Zle_Qle in Hneg. change (inject_Z (-1)) with (-1)%Q in Hneg.
    set (K := inject_Z (M - r * 2 ^ 1074)) in *. nra. }
  pose proof (b64_negative _ Hle). lra.
Qed.

(** * Properties of the Python numerics *)

Lemma Qltb_lt (a b : Q) : Qltb a b = true <-> (a < b)%Q.
Proof.
  unfold Qltb. rewrite negb_true_iff. split.
  - intros H. apply Qnot_le_lt. intros Hle.
    apply Qle_bool_iff in Hle. congruence.
  - intros H. destruct (Qle_bool b a) eqn:Hb; [|reflexivity].
    apply Qle_bool_iff in Hb. lra.
Qed.

Lemma Qltb_ge (a b : Q) : Qltb a b = false <-> (b <= a)%Q.
Proof.
  unfold Qltb. rewrite negb_false_iff. apply Qle_bool_iff.
Qed.

Lemma py_float_Z (n : Z) : Z.abs n < 2 ^ 53 -> py_float n = inject_Z n.
Proof. apply b64_Z. Qed.

Lemma inject_Z_sub (a b : Z) : (inject_Z (a - b) == inject_Z a - inject_Z b)%Q.
Proof. unfold Z.sub. rewrite inject_Z_plus, inject_Z_opp. reflexivity. Qed.

(** An integer is a multiple of 2^-g, and so is its neighbour 2^-g away. *)
Lemma grid_Z (n k g : Z) :
  0 <= g -> (inject_Z (n * 2 ^ g + k) * 2 ^ (- g) == inject_Z n + inject_Z k * 2 ^ (- g))%Q.
Proof.
  intros Hg. rewrite inject_Z_plus, inject_Z_mult, two_Z by exact Hg.
  rewrite Qpower_opp. pose proof (two_pos g). hide_pow. field. lra.
Qed.

(** The error of one rounding: half a unit in the last place. *)
Lemma b64_near (q : Q) (k : Z) :
  -1021 <= k -> (Qabs q < 2 ^ k)%Q ->
  (q - 2 ^ (k - 54) <= b64 q <= q + 2 ^ (k - 54))%Q.
Proof.
  intros Hk Hq. pose proof (two_pos (k - 54)) as Hd.
  destruct (Qeq_dec q 0) as [H0|Hnz]; [rewrite (b64_zero q H0); lra|].
  destruct (Qlog2_spec q Hnz) as [Hl _].
  assert (Hlog : Qlog2 q < k) by (apply two_lt_inv; lra).
  pose proof (ulp_pos q) as Hup.
  assert (Hu : (ulp q <= 2 * 2 ^ (k - 54))%Q).
  { assert (H2 : (2 * 2 ^ (k - 54) == 2 ^ (k - 53))%Q).
    { replace (k - 53) with (1 + (k - 54)) by lia. rewrite two_plus. reflexivity. }
    rewrite H2. unfold ulp. apply two_le. lia. }
  destruct (py_round_near (q / ulp q)) as [Hn1 Hn2].
  rewrite (b64_eq q Hnz).
  set (n := inject_Z (py_round (q / ulp q))) in *.
  assert (Hq' : (q == q / ulp q * ulp q)%Q) by (field; lra).
  set (t := (q / ulp q)%Q) in *. set (u := ulp q) in *. set (d := (2 ^ (k - 54))%Q) in *.
  assert (H1 : (t * u - n * u <= (1 # 2) * u)%Q) by nra.
  assert (H2 : (n * u - t * u <= (1 # 2) * u)%Q) by nra.
  split; lra.
Qed.

Lemma b64_within (q B d : Q) (k : Z) :
  -1021 <= k -> (B < 2 ^ k)%Q -> (2 ^ (k - 54) <= d)%Q -> (- B <= q <= B)%Q ->
  (q - d <= b64 q <= q + d)%Q.
Proof.
  intros Hk HB Hd Hq.
  assert (Habs : (Qabs q < 2 ^ k)%Q).
  { apply Qle_lt_trans with B; [|exact HB]. apply Qabs_Qle_condition. lra. }
  pose proof (b64_near q k Hk Habs). lra.
Qed.

(** * targets.py *)

Section TargetProps.

Import Target.

Lemma bounce_low (p v : Q) (r lim : Z) :
  (b64 (p - py_float r) < 0)%Q -> bounce p v r lim = (inject_Z r, (v * -1)%Q).
Proof.
  intros H. unfold bounce. apply Qltb_lt in H. now rewrite H.
Qed.

Lemma bounce_high (p v : Q) (r lim : Z) :
  (0 <= b64 (p - py_float r))%Q -> (inject_Z lim < b64 (p + py_float r))%Q ->
  bounce p v r lim = (inject_Z (lim - r), (v * -1)%Q).
Proof.
  intros Hl Hh. unfold bounce.
  apply Qltb_ge in Hl. rewrite Hl. apply Qltb_lt in Hh. now rewrite Hh.
Qed.

Lemma bounce_inside (p v : Q) (r lim : Z) :
  (0 <= b64 (p - py_float r))%Q -> (b64 (p + py_float r) <= inject_Z lim)%Q ->
  bounce p v r lim = (p, v).
Proof.
  intros Hl Hh. unfold bounce.
  apply Qltb_ge in Hl. rewrite Hl. apply Qltb_ge in Hh. now rewrite Hh.
Qed.

(** The two axes of [update] are two independent bounces. *)
Lemma update_moving (s : t) :
  type s = "moving" ->
  update s =
  mk (oid s)
     (fst (bounce (b64 (x s + vx s)) (vx s) (radius s) (fst (bounds s))))
     (fst (bounce (b64 (y s + vy s)) (vy s) (radius s) (snd (bounds s))))
     (type s) (bounds s) (radius s) (color s) (points s)
     (snd (bounce (b64 (x s + vx s)) (vx s) (radius s) (fst (bounds s))))
     (snd (bounce (b64 (y s + vy s)) (vy s) (radius s) (snd (bounds s)))).
Proof.
  intros Ht. unfold update. rewrite Ht. simpl String.eqb. cbv iota.
  destruct (bounds s) as [w h]. simpl fst. simpl snd.
  destruct (bounce (b64 (x s + vx s)) (vx s) (radius s) w).
  destruct (bounce (b64 (y s + vy s)) (vy s) (radius s) h).
  reflexivity.
Qed.

Lemma update_still (s : t) : type s <> "moving" -> update s = s.
Proof.
  intros Ht. unfold update.
  destruct (String.eqb_spec (type s) "moving"); [contradiction | reflexivity].
Qed.

Lemma update_axis (s : t) (a : Axis) :
  type s = "moving" ->
  coord a (update s)
  = fst (bounce (b64 (coord a s + vel a s)) (vel a s) (radius s) (extent a s))
  /\ vel a (update s)
     = snd (bounce (b64 (coord a s + vel a s)) (vel a s) (radius s) (extent a s)).
Proof.
  intros Ht. rewrite (update_moving s Ht). destruct a; split; reflexivity.
Qed.

(** ** The edge tests in exact terms *)

(** The test of the low edge is exact on a float: [p - r] is rounded, but
    its sign is not lost. *)
Lemma low_test (q : Q) (r : Z) :
  Z.abs r < 2 ^ 53 ->
  (b64 (b64 q - py_float r) < 0 <-> b64 q < inject_Z r)%Q.
Proof.
  intros Hr. rewrite (py_float_Z r Hr). split.
  - intros H. apply Qnot_le_lt. intros Hle.
    assert (H0 : (0 <= b64 q - inject_Z r)%Q) by lra.
    apply b64_nonneg in H0. lra.
  - intros H. apply Qnot_le_lt. intros Hle.
    apply b64_sub_Z_sign in Hle. lra.
Qed.

(** The test of the high edge never fires on a rim inside the area, *)
Lemma high_test_sound (p : Q) (r lim : Z) :
  Z.abs r < 2 ^ 53 -> (Qabs (p + inject_Z r) < 2 ^ 53)%Q ->
  (inject_Z lim < b64 (p + py_float r))%Q -> (inject_Z lim < p + inject_Z r)%Q.
Proof.
  intros Hr Hs H. rewrite (py_float_Z r Hr) in H.
  apply Qnot_le_lt. intros Hle. apply (b64_le_Z _ lim Hs) in Hle. lra.
Qed.

(** and it fires on every rim that is 2^-g or more outside. *)
Lemma high_test_complete (p : Q) (r lim g : Z) :
  0 <= g <= 1074 -> Z.abs r < 2 ^ 53 -> (Qabs (p + inject_Z r) < 2 ^ (53 - g))%Q ->
  (inject_Z lim + 2 ^ (- g) <= p + inject_Z r)%Q ->
  (inject_Z lim < b64 (p + py_float r))%Q.
Proof.
  intros Hg Hr Hs H. rewrite (py_float_Z r Hr).
  pose proof (grid_Z lim 1 g (proj1 Hg)) as Hc.
  change (inject_Z 1) with 1%Q in Hc. rewrite Qmult_1_l in Hc.
  pose proof (two_pos (- g)) as Hpos.
  assert (Hge : (inject_Z (lim * 2 ^ g + 1) * 2 ^ (- g) <= b64 (p + inject_Z r))%Q).
  { apply b64_ge_grid; [exact Hg | exact Hs | rewrite Hc; exact H]. }
  rewrite Hc in Hge. lra.
Qed.

Section AxisBounce.

Variables (P v : Q) (r lim g : Z).
Hypothesis Hg : 0 <= g <= 52.
Hypothesis HP : (Qabs P < 2 ^ (52 - g))%Q.
Hypothesis Hr : Z.abs r < 2 ^ (52 - g).

Lemma radius_small : Z.abs r < 2 ^ 53.
Proof.
  apply Z.lt_le_trans with (2 ^ (52 - g)); [exact Hr|].
  apply Z.pow_le_mono_r; lia.
Qed.

Lemma radius_smallQ : (- 2 ^ (52 - g) < inject_Z r < 2 ^ (52 - g))%Q.
Proof.
  rewrite <- two_Z by lia. rewrite <- inject_Z_opp, <- !Zlt_Qlt. lia.
Qed.

Lemma advance_smallQ : (- 2 ^ (52 - g) < P < 2 ^ (52 - g))%Q.
Proof. now apply Qabs_Qlt_condition. Qed.

Lemma two_double (k : Z) : (2 ^ (k + 1) == 2 * 2 ^ k)%Q.
Proof. rewrite two_plus. change (2 ^ 1)%Q with 2%Q. ring. Qed.

Lemma advance_wide : (Qabs P < 2 ^ (53 - g))%Q.
Proof.
  apply Qlt_trans with (2 ^ (52 - g))%Q; [exact HP | apply two_lt; lia].
Qed.


Lemma advanced_small : (- 2 ^ (52 - g) <= b64 P <= 2 ^ (52 - g))%Q.
Proof.
  pose proof advance_smallQ as [Hlo Hhi].
  assert (Hg' : 0 <= g <= 1074) by lia.
  assert (Hc : (inject_Z (2 ^ 52) * 2 ^ (- g) == 2 ^ (52 - g))%Q).
  { rewrite two_Z by lia. rewrite <- two_plus. reflexivity. }
  assert (Hc' : (inject_Z (- 2 ^ 52) * 2 ^ (- g) == - 2 ^ (52 - g))%Q).
  { rewrite inject_Z_opp, <- Hc. ring. }
  split.
  - rewrite <- Hc'. apply b64_ge_grid; [exact Hg' | exact advance_wide | rewrite Hc'; lra].
  - rewrite <- Hc. apply b64_le_grid; [exact Hg' | exact advance_wide | rewrite Hc; lra].
Qed.

Lemma rim_small : (Qabs (b64 P + inject_Z r) < 2 ^ (53 - g))%Q.
Proof.
  pose proof advanced_small as [H1 H2]. pose proof radius_smallQ as [H3 H4].
  apply Qabs_Qlt_condition.
  replace (53 - g) with (52 - g + 1) by lia. rewrite two_double. lra.
Qed.


(** The three cases of one axis, as the rounded tests decide them. *)
Lemma bounce_clamp_low :
  (b64 P < inject_Z r)%Q -> bounce (b64 P) v r lim = (inject_Z r, (v * -1)%Q).
Proof.
  intros H. apply bounce_low. now apply (low_test P r radius_small).
Qed.

Lemma low_test_passed : (inject_Z r <= b64 P)%Q -> (0 <= b64 (b64 P - py_float r))%Q.
Proof.
  intros H. apply Qnot_lt_le. intros Hlt.
  apply (low_test P r radius_small) in Hlt. lra.
Qed.

Lemma bounce_clamp_high :
  (inject_Z r <= b64 P)%Q -> (inject_Z lim < b64 (b64 P + inject_Z r))%Q ->
  bounce (b64 P) v r lim = (inject_Z (lim - r), (v * -1)%Q).
Proof.
  intros Hl Hh. apply bounce_high; [now apply low_test_passed|].
  now rewrite (py_float_Z r radius_small).
Qed.

Lemma bounce_free :
  (inject_Z r <= b64 P)%Q -> (b64 (b64 P + inject_Z r) <= inject_Z lim)%Q ->
  bounce (b64 P) v r lim = (b64 P, v).
Proof.
  intros Hl Hh. apply bounce_inside; [now apply low_test_passed|].
  now rewrite (py_float_Z r radius_small).
Qed.










(** Where one axis lands: inside the play area, whatever the case. *)
Lemma bounce_lands :
  0 <= r -> 2 * r <= lim -> lim < 2 ^ 53 ->
  (0 <= b64 (fst (bounce (b64 P) v r lim) - py_float r))%Q
  /\ (b64 (fst (bounce (b64 P) v r lim) + py_float r) <= inject_Z lim)%Q
  /\ (inject_Z r <= fst (bounce (b64 P) v r lim))%Q
  /\ (fst (bounce (b64 P) v r lim) < inject_Z (lim - r) + 2 ^ (- g))%Q
  /\ (snd (bounce (b64 P) v r lim) = v \/ snd (bounce (b64 P) v r lim) = (v * -1)%Q).
Proof.
  intros Hr0 Hfit Hlim. pose proof (two_pos (- g)) as Hpos.
  assert (HR : (0 <= inject_Z r)%Q) by (change 0%Q with (inject_Z 0); now rewrite <- Zle_Qle).
  assert (HRL : (2 * inject_Z r <= inject_Z lim)%Q).
  { change 2%Q with (inject_Z 2). rewrite <- inject_Z_mult, <- Zle_Qle. exact Hfit. }
  assert (HL : (inject_Z lim < 2 ^ 53)%Q).
  { rewrite <- two_Z by lia. now rewrite <- Zlt_Qlt. }
  assert (Hin : forall q : Q, (0 <= q <= inject_Z lim)%Q -> (Qabs q < 2 ^ 53)%Q).
  { intros q Hq. apply Qabs_Qlt_condition. lra. }
  pose proof (inject_Z_sub lim r) as Hsub.
  destruct (Qlt_le_dec (b64 P) (inject_Z r)) as [Hlt|Hge].
  - rewrite (bounce_clamp_low Hlt). cbn [fst snd]. rewrite (py_float_Z r radius_small).
    split; [apply b64_nonneg; lra|].
    split; [apply b64_le_Z; [apply Hin|]; lra|].
    split; [lra|]. split; [lra | now right].
  - destruct (Qlt_le_dec (inject_Z lim) (b64 (b64 P + inject_Z r))) as [Hfire|Hpass].
    + rewrite (bounce_clamp_high Hge Hfire). cbn [fst snd]. rewrite (py_float_Z r radius_small).
      split; [apply b64_nonneg; lra|].
      split; [apply b64_le_Z; [apply Hin|]; lra|].
      split; [lra|]. split; [lra | now right].
    + rewrite (bounce_free Hge Hpass). cbn [fst snd].
      split; [now apply low_test_passed|].
      split; [now rewrite (py_float_Z r radius_small)|].
      split; [exact Hge|]. split; [|now left].
      apply Qnot_le_lt. intros Hout.
      assert (Hf : (inject_Z lim < b64 (b64 P + py_float r))%Q).
      { apply (high_test_complete (b64 P) r lim g); [lia | exact radius_small | exact rim_small |].
        lra. }
      rewrite (py_float_Z r radius_small) in Hf. lra.
Qed.

End AxisBounce.

End TargetProps.

Section TargetClaims.

Import Target.

(** ** Collision on integer centres: nothing is rounded *)

Lemma check_collision_Z (tg : Target.t) (pos : Pos) (cx cy : Z) :
  (x tg == inject_Z cx)%Q -> (y tg == inject_Z cy)%Q ->
  Z.abs cx < 2 ^ 25 -> Z.abs cy < 2 ^ 25 ->
  Z.abs (fst pos) < 2 ^ 25 -> Z.abs (snd pos) < 2 ^ 25 ->
  check_collision tg pos
  = ((cx - fst pos) * (cx - fst pos) + (cy - snd pos) * (cy - snd pos)
     <=? radius tg * radius tg).
Proof.
  intros Hx Hy Hcx Hcy Hpx Hpy. unfold check_collision.
  assert (Hdiff : forall (c : Q) (ci p : Z),
             (c == inject_Z ci)%Q -> Z.abs ci < 2 ^ 25 -> Z.abs p < 2 ^ 25 ->
             b64 (c - py_float p) = inject_Z (ci - p)).
  { intros c ci p Hc Hci Hp. rewrite py_float_Z by lia.
    rewrite (b64_compat (c - inject_Z p) (inject_Z (ci - p)))
      by (rewrite inject_Z_sub, Hc; reflexivity).
    apply b64_Z. lia. }
  rewrite (Hdiff (x tg) cx (fst pos) Hx Hcx Hpx), (Hdiff (y tg) cy (snd pos) Hy Hcy Hpy).
  set (dx := cx - fst pos). set (dy := cy - snd pos).
  assert (Hdx : Z.abs dx < 2 ^ 26) by (subst dx; lia).
  assert (Hdy : Z.abs dy < 2 ^ 26) by (subst dy; lia).
  assert (Hsq : forall d : Z, Z.abs d < 2 ^ 26 -> 0 <= d * d < 2 ^ 52).
  { intros d Hd. change (2 ^ 52) with (2 ^ 26 * 2 ^ 26). nia. }
  pose proof (Hsq dx Hdx) as Hsx. pose proof (Hsq dy Hdy) as Hsy.
  rewrite <- !inject_Z_mult.
  rewrite (b64_Z (dx * dx)), (b64_Z (dy * dy)) by lia.
  rewrite <- inject_Z_plus. rewrite b64_Z by lia.
  destruct (Z.leb_spec (dx * dx + dy * dy) (radius tg * radius tg)) as [Hle|Hgt].
  - apply Qle_bool_iff. now rewrite <- Zle_Qle.
  - destruct (Qle_bool _ _) eqn:Hb; [|reflexivity].
    apply Qle_bool_iff in Hb. rewrite <- Zle_Qle in Hb. lia.
Qed.

(** ** Collision on any centre: the error of the five roundings *)

Lemma square_near (d d' e B : Q) :
  (0 <= e)%Q -> (0 <= B)%Q -> (- B <= d <= B)%Q -> (d - e <= d' <= d + e)%Q ->
  (d * d - e * (2 * B + e) <= d' * d' <= d * d + e * (2 * B + e))%Q.
Proof.
  intros He HB Hd Hd'.
  set (t := (d' - d)%Q).
  assert (Ht : (- e <= t <= e)%Q) by (subst t; lra).
  assert (Hs : (d' * d' == d * d + t * (2 * d + t))%Q) by (subst t; ring).
  assert (Hp : (- (e * (2 * B + e)) <= t * (2 * d + t) <= e * (2 * B + e))%Q).
  { set (s := (2 * d + t)%Q). assert (Hsb : (- (2 * B + e) <= s <= 2 * B + e)%Q) by (subst s; lra).
    set (m := (2 * B + e)%Q) in *. assert (Hm : (0 <= m)%Q) by (subst m; lra).
    split; nra. }
  rewrite Hs. lra.
Qed.

Lemma check_collision_near (tg : Target.t) (pos : Pos) :
  near_origin tg pos ->
  let d2 := dist2 (x tg) (y tg) (inject_Z (fst pos)) (inject_Z (snd pos)) in
  let rr := (inject_Z (radius tg) * inject_Z (radius tg))%Q in
  ((d2 <= rr - (1 # 1048576))%Q -> check_collision tg pos = true)
  /\ (check_collision tg pos = true -> (d2 <= rr + (1 # 1048576))%Q).
Proof.
  intros (Hx & Hy & Hpx & Hpy) d2 rr.
  apply Qabs_Qle_condition in Hx. apply Qabs_Qle_condition in Hy.
  assert (Hin : forall p : Z, Z.abs p <= 4096 -> (- (4096) <= inject_Z p <= 4096)%Q).
  { intros p Hp. change 4096%Q with (inject_Z 4096). rewrite <- inject_Z_opp, <- !Zle_Qle. lia. }
  pose proof (Hin _ Hpx) as Hpxq. pose proof (Hin _ Hpy) as Hpyq.
  unfold check_collision. rewrite !py_float_Z by lia.
  set (e1 := (1 # 1099511627776)%Q).      (* 2^-40 *)
  set (e2 := (1 # 134217728)%Q).          (* 2^-27 *)
  set (e3 := (1 # 67108864)%Q).           (* 2^-26 *)
  assert (Hone : forall c p : Q, (- (4096) <= c <= 4096)%Q -> (- (4096) <= p <= 4096)%Q ->
             let d := (c - p)%Q in
             (d * d - 3 * e3 <= b64 (b64 d * b64 d) <= d * d + 3 * e3)%Q
             /\ (0 <= b64 (b64 d * b64 d) <= 67125250)%Q).
  { intros c p Hc Hp d.
    assert (Hd : (- (8192) <= d <= 8192)%Q) by (subst d; lra).
    assert (Hd' : (d - e1 <= b64 d <= d + e1)%Q).
    { apply (b64_within d 8192 e1 14); [lia | reflexivity | apply Qle_bool_imp_le; reflexivity | exact Hd]. }
    assert (Hsq : (d * d - e1 * (2 * 8192 + e1) <= b64 d * b64 d
                   <= d * d + e1 * (2 * 8192 + e1))%Q).
    { apply square_near; [apply Qle_bool_imp_le; reflexivity | apply Qle_bool_imp_le; reflexivity | exact Hd | exact Hd']. }
    assert (He : (e1 * (2 * 8192 + e1) <= 2 * e3)%Q) by (apply Qle_bool_imp_le; reflexivity).
    assert (Hdd : (0 <= d * d <= 67108864)%Q) by nra.
    assert (Hs0 : (0 <= b64 d * b64 d)%Q) by nra.
    assert (Hs' : (b64 d * b64 d - e2 <= b64 (b64 d * b64 d) <= b64 d * b64 d + e2)%Q).
    { apply (b64_within _ 67125249 e2 27); [lia | reflexivity | apply Qle_bool_imp_le; reflexivity |].
      unfold e3, e1 in *. lra. }
    pose proof (b64_nonneg _ Hs0) as Hnn.
    unfold e1, e2, e3 in *. split; lra. }
  destruct (Hone (x tg) (inject_Z (fst pos)) Hx Hpxq) as [Hsx Hbx].
  destruct (Hone (y tg) (inject_Z (snd pos)) Hy Hpyq) as [Hsy Hby].
  set (sx := b64 (b64 (x tg - inject_Z (fst pos)) * b64 (x tg - inject_Z (fst pos)))) in *.
  set (sy := b64 (b64 (y tg - inject_Z (snd pos)) * b64 (y tg - inject_Z (snd pos)))) in *.
  assert (Hsum : (sx + sy - e3 <= b64 (sx + sy) <= sx + sy + e3)%Q).
  { apply (b64_within _ 134250500 e3 28); [lia | reflexivity | apply Qle_bool_imp_le; reflexivity | lra]. }
  assert (Hd2 : (d2 == (x tg - inject_Z (fst pos)) * (x tg - inject_Z (fst pos))
                       + (y tg - inject_Z (snd pos)) * (y tg - inject_Z (snd pos)))%Q).
  { subst d2. unfold dist2. ring. }
  rewrite inject_Z_mult. fold rr.
  unfold e3 in *.
  split.
  - intros H. apply Qle_bool_iff. lra.
  - intros H. apply Qle_bool_iff in H. lra.
Qed.

(** The amended C7.  On a target whose centre has whole coordinates, as every
    target has when it is created, and for coordinates below 2^25,
    [check_collision] answers true exactly when the squared distance from
    the centre to the aim point is at most the square of the radius, and
    the point one radius to the right of the centre is a hit: the test is
    inclusive.  On any centre the float operations of the test are
    rounded; within 4096 pixels of the origin the answer is the exact one
    for every aim point whose squared distance is not within 2^-20 of the
    square of the radius. *)
Theorem check_collision_inclusive (tg : Target.t) (pos : Pos) :
  (forall cx cy : Z,
      (x tg == inject_Z cx)%Q -> (y tg == inject_Z cy)%Q ->
      Z.abs cx < 2 ^ 25 -> Z.abs cy < 2 ^ 25 ->
      Z.abs (fst pos) < 2 ^ 25 -> Z.abs (snd pos) < 2 ^ 25 ->
      (check_collision tg pos = true <->
       (dist2 (x tg) (y tg) (inject_Z (fst pos)) (inject_Z (snd pos))
        <= inject_Z (radius tg) * inject_Z (radius tg))%Q)
      /\ (pos = (cx + radius tg, cy) -> check_collision tg pos = true))
  /\ (near_origin tg pos ->
      ((dist2 (x tg) (y tg) (inject_Z (fst pos)) (inject_Z (snd pos))
        <= inject_Z (radius tg) * inject_Z (radius tg) - (1 # 1048576))%Q ->
       check_collision tg pos = true)
      /\ (check_collision tg pos = true ->
          (dist2 (x tg) (y tg) (inject_Z (fst pos)) (inject_Z (snd pos))
           <= inject_Z (radius tg) * inject_Z (radius tg) + (1 # 1048576))%Q)).
Proof.
  split; [|apply check_collision_near].
  intros cx cy Hx Hy Hcx Hcy Hpx Hpy.
  rewrite (check_collision_Z tg pos cx cy Hx Hy Hcx Hcy Hpx Hpy).
  assert (Hd : (dist2 (x tg) (y tg) (inject_Z (fst pos)) (inject_Z (snd pos))
                == inject_Z ((cx - fst pos) * (cx - fst pos)
                             + (cy - snd pos) * (cy - snd pos)))%Q).
  { unfold dist2. rewrite inject_Z_plus, !inject_Z_mult, !inject_Z_sub, Hx, Hy. ring. }
  split.
  - rewrite Hd, <- inject_Z_mult, <- Zle_Qle. apply Z.leb_le.
  - intros ->. cbn [fst snd]. apply Z.leb_le. nia.
Qed.

(** ** One frame of a target *)

Lemma update_frame (s : Target.t) :
  oid (update s) = oid s /\ type (update s) = type s /\ bounds (update s) = bounds s
  /\ radius (update s) = radius s /\ color (update s) = color s
  /\ points (update s) = points s.
Proof.
  destruct (String.eqb_spec (type s) "moving") as [Ht|Ht].
  - rewrite (update_moving s Ht). cbn. tauto.
  - rewrite (update_still s Ht). tauto.
Qed.


End TargetClaims.



(** A hit on the rim: the point (140, 100) against centre (100, 100), radius 40. *)
Lemma check_collision_inclusive_witness :
  (Target.x demo_static == inject_Z 100)%Q /\ (Target.y demo_static == inject_Z 100)%Q
  /\ Target.check_collision demo_static (140, 100) = true.
Proof.
  assert (Hx : (Target.x demo_static == inject_Z 100)%Q) by reflexivity.
  assert (Hy : (Target.y demo_static == inject_Z 100)%Q) by reflexivity.
  split; [exact Hx|]. split; [exact Hy|].
  refine (proj2 (proj1 (check_collision_inclusive demo_static (140, 100)) 100 100
                   Hx Hy _ _ _ _) eq_refl); cbn; lia.
Defined.

(** C7 as stated fails off the whole coordinates: with the centre 2^-30
    of a pixel off the row of the aim point the squared distance
    1600 + 2^-60 exceeds the square of the radius, and the sum rounds to
    1600: a hit. *)
Lemma check_collision_rounding_counterexample :
  Target.check_collision demo_offrow (140, 100) = true
  /\ (inject_Z (Target.radius demo_offrow) * inject_Z (Target.radius demo_offrow)
      < dist2 (Target.x demo_offrow) (Target.y demo_offrow) (inject_Z 140) (inject_Z 100))%Q.
Proof.
  split; [vm_compute; reflexivity | reflexivity].
Qed.

(** * hand_tracker.py *)

Section MovementFilterProps.

Import MovementFilter.

Lemma lastn_all {A : Type} (n : nat) (l : list A) :
  (length l <= n)%nat -> lastn n l = l.
Proof.
  intros H. unfold lastn. replace (length l - n)%nat with 0%nat by lia. reflexivity.
Qed.

Lemma lastn_length {A : Type} (n : nat) (l : list A) :
  length (lastn n l) = Nat.min n (length l).
Proof.
  unfold lastn. rewrite length_skipn. lia.
Qed.

Lemma lastn_lastn {A : Type} (n : nat) (l : list A) : lastn n (lastn n l) = lastn n l.
Proof.
  apply lastn_all. rewrite lastn_length. lia.
Qed.

Lemma init_window_ok (n : Z) : window_ok (__init__ n).
Proof.
  unfold window_ok, __init__. cbn. split; lia.
Qed.

Lemma add_position_window_ok (p : option Pos) (f : t) :
  window_ok f -> window_ok (add_position p f).
Proof.
  intros [H1 H2]. destruct p as [p|]; [|now split].
  unfold window_ok, add_position, deque. cbn [_buffer_size buffer].
  split; [exact H1|]. rewrite lastn_length. apply Nat.le_min_l.
Qed.

(** Resizing to [n >= 1] keeps the [n] most recent samples. *)
Lemma set_buffer_size_keeps_recent (n : Z) (f : t) :
  1 <= n -> window_ok f ->
  buffer (set_buffer_size n f) = lastn (Z.to_nat n) (buffer f)
  /\ window_ok (set_buffer_size n f).
Proof.
  intros Hn [H1 H2]. unfold set_buffer_size.
  replace (Z.max 1 n) with n by lia.
  destruct (Z.eqb_spec n (_buffer_size f)) as [->|Hne].
  - split; [|now split]. symmetry. now apply lastn_all.
  - unfold deque. cbn [buffer _buffer_size]. rewrite lastn_lastn.
    split; [reflexivity|]. split; [exact Hn|].
    cbn [buffer _buffer_size]. rewrite lastn_length. apply Nat.le_min_l.
Qed.

(** The filtered position is the rounded mean of the buffer, axis by axis. *)
Lemma get_filtered_position_mean (f : t) :
  buffer f <> [] ->
  get_filtered_position f =
  Some (py_round (inject_Z (sumZ (map fst (buffer f)))
                  / inject_Z (Z.of_nat (length (buffer f)))),
        py_round (inject_Z (sumZ (map snd (buffer f)))
                  / inject_Z (Z.of_nat (length (buffer f))))).
Proof.
  intros H. unfold get_filtered_position.
  destruct (buffer f); [contradiction | reflexivity].
Qed.

(** C9. The samples (0,0), (9,6), (6,12) in a window of 3 are filtered to
    (5,6); after the window is shrunk to 2 the buffer is the last two
    samples, which alone enter the next averages.  The same holds of any
    three samples: the filter returns their rounded mean, and the shrunk
    buffer is the last two of them. *)
Theorem movement_filter_average_and_resize :
  get_filtered_position demo_filter = Some (5, 6)
  /\ buffer (set_buffer_size 2 demo_filter) = [(9, 6); (6, 12)]
  /\ get_filtered_position (set_buffer_size 2 demo_filter) = Some (8, 9)
  /\ (forall p : Pos,
        buffer (add_position (Some p) (set_buffer_size 2 demo_filter)) = [(6, 12); p])
  /\ (forall p1 p2 p3 : Pos,
        let f := add_position (Some p3)
                   (add_position (Some p2) (add_position (Some p1) (__init__ 3))) in
        get_filtered_position f =
        Some (py_round (inject_Z (sumZ (map fst [p1; p2; p3])) / 3),
              py_round (inject_Z (sumZ (map snd [p1; p2; p3])) / 3))
        /\ buffer (set_buffer_size 2 f) = [p2; p3]).
Proof.
  split; [reflexivity|]. split; [reflexivity|]. split; [reflexivity|].
  split; [reflexivity|]. intros p1 p2 p3 f. split; reflexivity.
Qed.

End MovementFilterProps.

(** * targets.py: construction *)


Section TargetInit.

Variable E : Env.

(** What the surroundings guarantee: [math.cos] and [math.sin] lie on the
    unit circle, and [random.random()] lies in [[0, 1)]. *)
Hypothesis unit_circle : forall a : Q, (cos E a * cos E a + sin E a * sin E a == 1)%Q.
Hypothesis unit_interval : forall n : nat, (0 <= rand_float E n < 1)%Q.


End TargetInit.





(** * The method monad *)

Section MonadLaws.

Context {A B : Type}.

Lemma returns_ret (a : A) (w : World) (P : A -> World -> Prop) :
  P a w -> returns (ret a) w P.
Proof.
  intros H. exists a, w. split; [reflexivity | exact H].
Qed.

Lemma returns_bind (m : M A) (k : A -> M B) (w : World) (P : B -> World -> Prop) :
  returns m w (fun a w1 => returns (k a) w1 P) -> returns (bind m k) w P.
Proof.
  intros (a & w1 & Hm & b & w2 & Hk & HP).
  exists b, w2. split; [|exact HP]. unfold bind. now rewrite Hm.
Qed.

Lemma returns_mono (m : M A) (w : World) (P Q : A -> World -> Prop) :
  returns m w P -> (forall a w', P a w' -> Q a w') -> returns m w Q.
Proof.
  intros (a & w1 & Hm & HP) H. exists a, w1. split; [exact Hm | now apply H].
Qed.

Lemma returns_eq (m : M A) (w : World) (a : A) (w' : World) (P : A -> World -> Prop) :
  m w = Some (a, w') -> P a w' -> returns m w P.
Proof.
  intros Hm HP. exists a, w'. now split.
Qed.

Lemma ensures_ret (a : A) (w : World) (P : A -> World -> Prop) :
  P a w -> ensures (ret a) w P.
Proof.
  intros H a' w' Heq. unfold ret in Heq. injection Heq as <- <-. exact H.
Qed.

Lemma ensures_raise (w : World) (P : A -> World -> Prop) : ensures raise w P.
Proof.
  intros a' w' Heq. discriminate Heq.
Qed.

Lemma ensures_bind (m : M A) (k : A -> M B) (w : World) (P : B -> World -> Prop) :
  ensures m w (fun a w1 => ensures (k a) w1 P) -> ensures (bind m k) w P.
Proof.
  intros H b w2 Heq. unfold bind in Heq.
  destruct (m w) as [[a w1]|] eqn:Hm; [|discriminate].
  exact (H a w1 Hm b w2 Heq).
Qed.

Lemma ensures_mono (m : M A) (w : World) (P Q : A -> World -> Prop) :
  ensures m w P -> (forall a w', P a w' -> Q a w') -> ensures m w Q.
Proof.
  intros H HPQ a w' Heq. apply HPQ. now apply H.
Qed.

Lemma returns_ensures (m : M A) (w : World) (P : A -> World -> Prop) :
  returns m w P -> ensures m w P.
Proof.
  intros (a & w1 & Hm & HP) a' w' Heq. rewrite Hm in Heq. injection Heq as <- <-. exact HP.
Qed.

Lemma ensures_returns (m : M A) (w : World) (P Q : A -> World -> Prop) :
  ensures m w P -> returns m w Q -> returns m w (fun a w' => P a w' /\ Q a w').
Proof.
  intros H (a & w1 & Hm & HQ). exists a, w1. split; [exact Hm|].
  split; [now apply H | exact HQ].
Qed.

End MonadLaws.

(** A loop keeps what each of its rounds keeps. *)
Lemma ensures_for_each {A S : Type} (body : A -> S -> M S) (I : S -> World -> Prop)
  (l : list A) :
  (forall a s w, In a l -> I s w -> ensures (body a s) w I) ->
  forall s w, I s w -> ensures (for_each l body s) w I.
Proof.
  induction l as [|a l IH]; intros Hbody s w HI.
  - apply ensures_ret. exact HI.
  - cbn [for_each]. apply ensures_bind.
    eapply ensures_mono; [apply Hbody; [now left | exact HI]|].
    intros s1 w1 HI1. apply IH; [|exact HI1].
    intros a' s' w' Hin. apply Hbody. now right.
Qed.

Lemma returns_for_each {A S : Type} (body : A -> S -> M S) (I : S -> World -> Prop)
  (l : list A) :
  (forall a s w, In a l -> I s w -> returns (body a s) w I) ->
  forall s w, I s w -> returns (for_each l body s) w I.
Proof.
  induction l as [|a l IH]; intros Hbody s w HI.
  - apply returns_ret. exact HI.
  - cbn [for_each]. apply returns_bind.
    eapply returns_mono; [apply Hbody; [now left | exact HI]|].
    intros s1 w1 HI1. apply IH; [|exact HI1].
    intros a' s' w' Hin. apply Hbody. now right.
Qed.

(** * game_engine.py: shooting *)

Section Shooting.

Import GameEngine.

Variable E : Env.

Lemma now_ms_run (w : World) : now_ms E w = Some (next_now_ms E w, clock_read w).
Proof.
  reflexivity.
Qed.

Lemma play_sound_run (key : string) (s : t) (w : World) :
  _play_sound key s w =
  Some (tt, if existsb (String.eqb key) (sounds s) && audio_enabled s
            then mkWorld (clock_reads w) (rng_calls w) (next_oid w) (played w ++ [key])
            else w).
Proof.
  unfold _play_sound.
  destruct (existsb (String.eqb key) (sounds s) && audio_enabled s); reflexivity.
Qed.





End Shooting.




(** * game_engine.py: hit resolution *)

Lemma list_remove_first {A : Type} (same : A -> bool) (kept rest : list A) (a : A) :
  (forall k, In k kept -> same k = false) -> same a = true ->
  list_remove same (kept ++ a :: rest) = Some (kept ++ rest).
Proof.
  intros Hkept Ha. induction kept as [|k kept IH]; cbn [app list_remove].
  - now rewrite Ha.
  - rewrite (Hkept k (or_introl eq_refl)).
    rewrite IH; [reflexivity|]. intros k' Hin. apply Hkept. now right.
Qed.

Lemma NoDup_map_app_head {A : Type} (f : A -> nat) (kept rest : list A) (a : A) :
  NoDup (map f (kept ++ a :: rest)) ->
  (forall k, In k kept -> Nat.eqb (f k) (f a) = false)
  /\ NoDup (map f (kept ++ rest))
  /\ NoDup (map f ((kept ++ [a]) ++ rest)).
Proof.
  intros H. split; [|split].
  - intros k Hin. apply Nat.eqb_neq. intros Heq.
    rewrite map_app in H. cbn [map] in H. apply NoDup_remove_2 in H.
    apply H. rewrite <- Heq. apply in_or_app. left. now apply in_map.
  - rewrite map_app in *. cbn [map] in H. now apply NoDup_remove_1 in H.
  - now rewrite <- app_assoc.
Qed.

Section HitResolution.

Import GameEngine.

Variable E : Env.

Lemma random_uniform_run (a b : Q) (w : World) :
  random_uniform E a b w =
  Some ((a + (b - a) * rand_float E (rng_calls w))%Q,
        mkWorld (clock_reads w) (S (rng_calls w)) (next_oid w) (played w)).
Proof.
  reflexivity.
Qed.

(** The particle loop always returns: its two integer ranges are not empty. *)
Lemma spawn_particles_returns (n : nat) (x y : Z) (c : Color) :
  forall (parts : list Particle.t) (w : World),
  exists parts' : list Particle.t,
    spawn_particles E n x y c parts w =
    Some (parts', mkWorld (clock_reads w) (4 * n + rng_calls w) (next_oid w) (played w))
    /\ length parts' = (length parts + n)%nat.
Proof.
  induction n as [|n IH]; intros parts w.
  - exists parts. split; [destruct w; reflexivity | lia].
  - cbn [spawn_particles]. unfold bind at 1. rewrite random_uniform_run.
    unfold bind at 1. rewrite random_uniform_run.
    unfold bind at 1. unfold random_randint at 1. cbn [Z.ltb Z.compare Pos.compare
      Pos.compare_cont clock_reads rng_calls next_oid played].
    unfold bind at 1. unfold random_randint at 1. cbn [Z.ltb Z.compare Pos.compare
      Pos.compare_cont clock_reads rng_calls next_oid played].
    match goal with
    | |- context [spawn_particles E n x y c ?p ?w1] => destruct (IH p w1) as (parts' & Hrun & Hlen)
    end.
    exists parts'. rewrite Hrun. cbn [clock_reads rng_calls next_oid played].
    split; [|rewrite Hlen, length_app; cbn [length]; lia].
    do 2 f_equal. f_equal. lia.
Qed.

Lemma spawn_explosion_returns (x y : Z) (c : Color) (s : t) (w : World) :
  exists parts : list Particle.t,
    _spawn_explosion E x y c s w =
    Some (set_explosions (explosions s ++ [Explosion.mk (next_oid w) parts]) s,
          mkWorld (clock_reads w) (72 + rng_calls w) (S (next_oid w)) (played w))
    /\ length parts = 18%nat.
Proof.
  destruct (spawn_particles_returns 18 x y c [] w) as (parts & Hrun & Hlen).
  exists parts. split; [|exact Hlen].
  unfold _spawn_explosion, bind. rewrite Hrun. reflexivity.
Qed.

(** One round of the loop on a target that contains the aim point. *)
Lemma check_hit_body_hit (aim : Pos) (tg : Target.t) (kept rest : list Target.t)
  (s : t) (w : World) :
  Target.check_collision tg aim = true ->
  targets s = kept ++ tg :: rest ->
  NoDup (map Target.oid (kept ++ tg :: rest)) ->
  returns (check_hit_body E aim tg s) w
    (fun s' _ =>
       exists (ex : Explosion.t) (sw : Shockwave.t) (tr : Tracer.t),
         s' = with_hit s (score s + Target.points tg) (kept ++ rest)
                (explosions s ++ [ex]) (shockwaves s ++ [sw]) (tracers s ++ [tr])).
Proof.
  intros Hhit Hts Hnd. unfold check_hit_body. rewrite Hhit.
  cbn [targets set_score]. rewrite Hts.
  destruct (NoDup_map_app_head Target.oid kept rest tg Hnd) as (Hkept & _ & _).
  rewrite (list_remove_first (fun item => Target.same item tg) kept rest tg);
    [|exact Hkept | apply Nat.eqb_refl].
  apply returns_bind. eapply returns_eq; [reflexivity|].
  apply returns_bind.
  match goal with
  | |- returns (_spawn_explosion E ?x ?y ?c ?s0) w _ =>
      destruct (spawn_explosion_returns x y c s0 w) as (parts & Hrun & _)
  end.
  eapply returns_eq; [exact Hrun|].
  apply returns_bind. eapply returns_eq; [apply play_sound_run|].
  apply returns_bind. eapply returns_eq; [reflexivity|].
  eapply returns_eq; [reflexivity|].
  eexists. eexists. eexists. reflexivity.
Qed.

(** The loop of [check_hit] from any point of its run: [kept] are the
    targets already passed over, [todo] the ones still to visit. *)
Lemma check_hit_loop (aim : Pos) (todo : list Target.t) :
  forall (kept : list Target.t) (s : t) (w : World),
    targets s = kept ++ todo ->
    NoDup (map Target.oid (kept ++ todo)) ->
    returns (for_each todo (check_hit_body E aim) s) w
      (fun s' _ =>
         exists (ex : list Explosion.t) (sw : list Shockwave.t) (tr : list Tracer.t),
           s' = with_hit s (score s + sumZ (map Target.points (hit_by aim todo)))
                  (kept ++ missed_by aim todo)
                  (explosions s ++ ex) (shockwaves s ++ sw) (tracers s ++ tr)
           /\ length ex = length (hit_by aim todo)
           /\ length sw = length (hit_by aim todo)
           /\ length tr = length (hit_by aim todo)).
Proof.
  induction todo as [|tg rest IH]; intros kept s w Hts Hnd.
  - apply returns_ret. exists [], [], []. cbn [hit_by missed_by filter map sumZ length].
    rewrite !app_nil_r, Z.add_0_r. rewrite <- (app_nil_r kept), <- Hts.
    split; [destruct s; reflexivity | repeat split].
  - cbn [for_each]. apply returns_bind.
    unfold hit_by, missed_by. cbn [filter].
    destruct (Target.check_collision tg aim) eqn:Hhit; cbn [negb map sumZ length].
    + eapply returns_mono; [exact (check_hit_body_hit aim tg kept rest s w Hhit Hts Hnd)|].
      intros s1 w1 (ex1 & sw1 & tr1 & ->).
      destruct (NoDup_map_app_head Target.oid kept rest tg Hnd) as (_ & Hnd1 & _).
      eapply returns_mono; [apply (IH kept _ w1); [reflexivity | exact Hnd1]|].
      intros s2 w2 (ex & sw & tr & -> & Hex & Hsw & Htr).
      exists (ex1 :: ex), (sw1 :: sw), (tr1 :: tr).
      cbn [with_hit score set_score set_targets set_explosions set_shockwaves set_tracers
           explosions shockwaves tracers length].
      rewrite <- !app_assoc. cbn [app]. rewrite Z.add_assoc.
      fold (hit_by aim rest). fold (missed_by aim rest).
      repeat split; congruence.
    + unfold check_hit_body. rewrite Hhit.
      apply returns_ret.
      destruct (NoDup_map_app_head Target.oid kept rest tg Hnd) as (_ & _ & Hnd1).
      eapply returns_mono; [apply (IH (kept ++ [tg]) s w); [|exact Hnd1]|].
      * rewrite Hts, <- app_assoc. reflexivity.
      * intros s2 w2 (ex & sw & tr & -> & Hex & Hsw & Htr).
        exists ex, sw, tr. rewrite <- app_assoc. cbn [app].
        fold (hit_by aim rest). fold (missed_by aim rest).
        repeat split; assumption.
Qed.

End HitResolution.

(** * game_engine.py: the sweeps of the effects *)

Section Sweep.

Context {A : Type}.
Variables (oid : A -> nat) (adv : A -> A) (done : A -> bool) (same : A -> A -> bool).
Variable body : A -> list A -> M (list A).

Hypothesis adv_oid : forall a, oid (adv a) = oid a.
Hypothesis same_oid : forall a b, oid a = oid b -> same a b = true.
Hypothesis same_done : forall a b, same a b = true -> oid a <> oid b -> done a = done b.
Hypothesis body_eq : forall a live,
  body a live =
  if done (adv a)
  then lift (list_remove (fun item => same item (adv a)) (store oid (adv a) live))
  else ret (store oid (adv a) live).

Lemma store_other (a : A) (l : list A) :
  (forall k, In k l -> oid k <> oid a) -> store oid a l = l.
Proof.
  intros H. unfold store. induction l as [|k l IH]; [reflexivity|].
  cbn [map]. destruct (Nat.eqb_spec (oid k) (oid a)) as [Heq|_].
  - exfalso. exact (H k (or_introl eq_refl) Heq).
  - f_equal. apply IH. intros k' Hin. apply H. now right.
Qed.

Lemma store_unique (a a' : A) (kept rest : list A) :
  NoDup (map oid (kept ++ a :: rest)) -> oid a' = oid a ->
  store oid a' (kept ++ a :: rest) = kept ++ a' :: rest.
Proof.
  intros Hnd Ha. unfold store. rewrite map_app. cbn [map].
  rewrite Ha, Nat.eqb_refl.
  rewrite map_app in Hnd. cbn [map] in Hnd.
  pose proof (NoDup_remove_2 _ _ _ Hnd) as Hnotin.
  f_equal; [|f_equal].
  - rewrite <- Ha. apply store_other. intros k Hin Heq. apply Hnotin.
    apply in_or_app. left. rewrite <- Ha, <- Heq. now apply in_map.
  - rewrite <- Ha. apply store_other. intros k Hin Heq. apply Hnotin.
    apply in_or_app. right. rewrite <- Ha, <- Heq. now apply in_map.
Qed.

(** The loop from any point of its run: [kept] were visited and stay,
    [todo] are still to visit.  Every visited entry is advanced in place
    and leaves the list when it is done. *)
Lemma sweep_loop (todo : list A) :
  forall (kept : list A) (w : World),
    NoDup (map oid (kept ++ todo)) ->
    (forall k, In k kept -> done k = false) ->
    for_each todo body (kept ++ todo) w =
    Some (kept ++ filter (fun a => negb (done a)) (map adv todo), w).
Proof.
  induction todo as [|a rest IH]; intros kept w Hnd Hkept.
  - reflexivity.
  - cbn [for_each map filter]. unfold bind. rewrite body_eq.
    rewrite (store_unique a (adv a) kept rest Hnd (adv_oid a)).
    assert (Hnd' : NoDup (map oid (kept ++ adv a :: rest))).
    { rewrite map_app in *. cbn [map] in *. now rewrite adv_oid. }
    destruct (NoDup_map_app_head oid kept rest (adv a) Hnd') as (Hne & Hnd1 & Hnd2).
    destruct (done (adv a)) eqn:Hdone; cbn [negb].
    + rewrite (list_remove_first (fun item => same item (adv a)) kept rest (adv a)).
      * cbn [lift]. unfold ret. apply IH; assumption.
      * intros k Hin. destruct (same k (adv a)) eqn:Hs; [|reflexivity].
        exfalso. pose proof (Hne k Hin) as Hk. apply Nat.eqb_neq in Hk.
        pose proof (same_done k (adv a) Hs Hk) as Hd.
        rewrite (Hkept k Hin), Hdone in Hd. discriminate.
      * now apply same_oid.
    + unfold ret.
      replace (kept ++ adv a :: rest) with ((kept ++ [adv a]) ++ rest)
        by now rewrite <- app_assoc.
      rewrite (IH (kept ++ [adv a]) w).
      * now rewrite <- app_assoc.
      * exact Hnd2.
      * intros k Hin. apply in_app_or in Hin. destruct Hin as [Hin|[<-|[]]].
        -- now apply Hkept.
        -- exact Hdone.
Qed.

Lemma sweep_run (l : list A) (w : World) :
  NoDup (map oid l) ->
  for_each l body l w = Some (filter (fun a => negb (done a)) (map adv l), w).
Proof.
  intros Hnd. apply (sweep_loop l [] w Hnd). intros k [].
Qed.

End Sweep.

Lemma Qle_bool_compat (a a' b b' : Q) :
  Qeq_bool a a' = true -> Qeq_bool b b' = true -> Qle_bool a b = Qle_bool a' b'.
Proof.
  intros Ha Hb. apply Qeq_bool_iff in Ha. apply Qeq_bool_iff in Hb.
  destruct (Qle_bool a b) eqn:H1; destruct (Qle_bool a' b') eqn:H2; try reflexivity.
  - apply Qle_bool_iff in H1. rewrite Ha, Hb in H1. apply Qle_bool_iff in H1. congruence.
  - apply Qle_bool_iff in H2. rewrite <- Ha, <- Hb in H2. apply Qle_bool_iff in H2.
    congruence.
Qed.

Section EffectSweeps.

Import GameEngine.

Lemma update_explosions_run (dt : Z) (s : t) (w : World) :
  NoDup (map Explosion.oid (explosions s)) ->
  _update_explosions dt s w =
  Some (set_explosions (swept_explosions dt (explosions s)) s, w).
Proof.
  intros Hnd. unfold _update_explosions, bind.
  rewrite (sweep_run Explosion.oid (advance_explosion dt) explosion_done Explosion.same
             (update_explosions_body dt)); try assumption; try reflexivity.
  - intros a b Hab. unfold Explosion.same. rewrite Hab, Nat.eqb_refl. reflexivity.
  - intros a b Hs Hne. unfold Explosion.same in Hs.
    apply Nat.eqb_neq in Hne. rewrite Hne in Hs. cbn [orb] in Hs.
    unfold Explosion.eqb in Hs. unfold explosion_done.
    destruct (Explosion.particles a), (Explosion.particles b);
      try reflexivity; discriminate Hs.
Qed.

Lemma update_shockwaves_run (dt : Z) (s : t) (w : World) :
  NoDup (map Shockwave.oid (shockwaves s)) ->
  _update_shockwaves dt s w =
  Some (set_shockwaves (swept_shockwaves dt (shockwaves s)) s, w).
Proof.
  intros Hnd. unfold _update_shockwaves, bind.
  rewrite (sweep_run Shockwave.oid (advance_shockwave dt) shockwave_done Shockwave.same
             (update_shockwaves_body dt)); try assumption; try reflexivity.
  - intros a b Hab. unfold Shockwave.same. rewrite Hab, Nat.eqb_refl. reflexivity.
  - intros a b Hs Hne. unfold Shockwave.same in Hs.
    apply Nat.eqb_neq in Hne. rewrite Hne in Hs. cbn [orb] in Hs.
    unfold Shockwave.eqb in Hs. repeat (apply andb_prop in Hs; destruct Hs as [Hs ?]).
    unfold shockwave_done.
    rewrite (Qle_bool_compat (Shockwave.max_r a) (Shockwave.max_r b)
               (Shockwave.r a) (Shockwave.r b)) by assumption.
    match goal with
    | H : (Shockwave.life a =? Shockwave.life b) = true |- _ =>
        apply Z.eqb_eq in H; rewrite H
    end.
    reflexivity.
Qed.

Lemma update_tracers_run (dt : Z) (s : t) (w : World) :
  NoDup (map Tracer.oid (tracers s)) ->
  _update_tracers dt s w = Some (set_tracers (swept_tracers dt (tracers s)) s, w).
Proof.
  intros Hnd. unfold _update_tracers, bind.
  rewrite (sweep_run Tracer.oid (advance_tracer dt) tracer_done Tracer.same
             (update_tracers_body dt)); try assumption; try reflexivity.
  - intros a b Hab. unfold Tracer.same. rewrite Hab, Nat.eqb_refl. reflexivity.
  - intros a b Hs Hne. unfold Tracer.same in Hs.
    apply Nat.eqb_neq in Hne. rewrite Hne in Hs. cbn [orb] in Hs.
    unfold Tracer.eqb in Hs. repeat (apply andb_prop in Hs; destruct Hs as [Hs ?]).
    unfold tracer_done.
    match goal with
    | H : (Tracer.life a =? Tracer.life b) = true |- _ =>
        apply Z.eqb_eq in H; rewrite H
    end.
    reflexivity.
Qed.

Lemma update_muzzle_flashes_run (E : Env) (s : t) (w : World) :
  _update_muzzle_flashes E s w =
  Some (set_muzzle_flashes (swept_flashes (next_now_ms E w) (muzzle_flashes s)) s,
        clock_read w).
Proof.
  reflexivity.
Qed.

(** The block "Update effects" on lists of distinct objects. *)
Lemma run_effects_run (E : Env) (dt : Z) (s : t) (w : World) :
  NoDup (map Explosion.oid (explosions s)) ->
  NoDup (map Shockwave.oid (shockwaves s)) ->
  NoDup (map Tracer.oid (tracers s)) ->
  run_effects E dt s w =
  Some (set_tracers (swept_tracers dt (tracers s))
          (set_shockwaves (swept_shockwaves dt (shockwaves s))
             (set_muzzle_flashes (swept_flashes (next_now_ms E w) (muzzle_flashes s))
                (set_explosions (swept_explosions dt (explosions s)) s))),
        clock_read w).
Proof.
  intros He Hs Ht. unfold run_effects.
  unfold bind at 1. rewrite (update_explosions_run dt s w He).
  unfold bind at 1. rewrite update_muzzle_flashes_run.
  unfold bind at 1. rewrite update_shockwaves_run by exact Hs.
  rewrite update_tracers_run by exact Ht.
  reflexivity.
Qed.

End EffectSweeps.

(** * game_engine.py: the transitions of the ammunition state *)

(** Steps through a method under [ensures]; a call whose result does not
    matter is passed over. *)
Ltac pass_call := unfold ensures at 1; intros ? ? _; cbv beta.

Ltac mstep :=
  cbv zeta;
  lazymatch goal with
  | |- ensures (ret _) _ _ => apply ensures_ret
  | |- ensures raise _ _ => apply ensures_raise
  | |- ensures (bind _ _) _ _ => apply ensures_bind
  | |- ensures (lift ?o) _ _ => destruct o; cbn [lift]
  | |- ensures (if ?b then _ else _) _ _ => destruct b eqn:?
  | |- ensures _ _ _ => pass_call
  end.

Section Transitions.

Import GameEngine.

Variable E : Env.

Lemma with_hit_self (s : t) :
  s = with_hit s (score s) (targets s) (explosions s) (shockwaves s) (tracers s).
Proof.
  destruct s; reflexivity.
Qed.

Lemma with_hit_twice (s : t) (sc sc' : Z) (ts ts' : list Target.t)
  (ex ex' : list Explosion.t) (sw sw' : list Shockwave.t) (tr tr' : list Tracer.t) :
  with_hit (with_hit s sc ts ex sw tr) sc' ts' ex' sw' tr' = with_hit s sc' ts' ex' sw' tr'.
Proof.
  reflexivity.
Qed.

(** One round of the loop of [check_hit] writes the score, the targets and
    the three effect lists, and nothing else. *)
Lemma check_hit_body_shape (aim : Pos) (tg : Target.t) (s : t) (w : World) :
  ensures (check_hit_body E aim tg s) w
    (fun s' _ => exists sc ts ex sw tr, s' = with_hit s sc ts ex sw tr).
Proof.
  unfold check_hit_body. destruct (Target.check_collision tg aim).
  - unfold _spawn_explosion, _spawn_shockwave, _spawn_tracer.
    repeat mstep. do 5 eexists. reflexivity.
  - apply ensures_ret. do 5 eexists. apply with_hit_self.
Qed.

(** So does the whole of [check_hit]. *)
Lemma check_hit_shape (aim_pos : option Pos) (s : t) (w : World) :
  ensures (check_hit E aim_pos s) w
    (fun s' _ => exists sc ts ex sw tr, s' = with_hit s sc ts ex sw tr).
Proof.
  unfold check_hit. destruct aim_pos as [aim|].
  - apply (ensures_for_each (check_hit_body E aim)
             (fun s' _ => exists sc ts ex sw tr, s' = with_hit s sc ts ex sw tr)).
    + intros tg s1 w1 _ (sc & ts & ex & sw & tr & Hs1).
      eapply ensures_mono; [apply check_hit_body_shape|]. cbv beta.
      intros s2 w2 (sc' & ts' & ex' & sw' & tr' & Hs2).
      exists sc', ts', ex', sw', tr'. rewrite Hs2, Hs1. apply with_hit_twice.
    + do 5 eexists. apply with_hit_self.
  - apply ensures_ret. do 5 eexists. apply with_hit_self.
Qed.

Lemma can_shoot_conditions (s : t) (w : World) :
  ensures (_can_shoot E s) w
    (fun ok w' => w' = (if paused s || reloading s || (ammo s <=? 0) then w else clock_read w)
                  /\ (ok = true -> may_fire s (next_now_ms E w))).
Proof.
  unfold _can_shoot, may_fire.
  destruct (paused s) eqn:Hp; [apply ensures_ret; split; [reflexivity | discriminate]|].
  destruct (reloading s) eqn:Hr; [apply ensures_ret; split; [reflexivity | discriminate]|].
  destruct (ammo s <=? 0) eqn:Ha; [apply ensures_ret; split; [reflexivity | discriminate]|].
  cbn [orb]. apply ensures_bind.
  intros now w' Heq. rewrite now_ms_run in Heq. injection Heq as <- <-.
  destruct (next_now_ms E w - last_shot_time s <? shot_cooldown_ms s) eqn:Hc;
    apply ensures_ret; (split; [reflexivity|]); [discriminate|].
  intros _. apply Z.leb_gt in Ha. apply Z.ltb_ge in Hc. repeat split; assumption.
Qed.

(** [_shoot] either does nothing or fires, and fires only when [_can_shoot] allows. *)
Lemma shoot_shape (aim_pos : option Pos) (s : t) (w : World) :
  ensures (_shoot E aim_pos s) w
    (fun s' _ => s' = s \/ (may_fire s (next_now_ms E w) /\ fired s s')).
Proof.
  unfold _shoot. apply ensures_bind.
  eapply ensures_mono; [apply can_shoot_conditions|]. cbv beta.
  intros ok w1 [_ Hcond]. destruct ok; cbn [negb]; [|apply ensures_ret; now left].
  specialize (Hcond eq_refl).
  apply ensures_bind. intros now w2 _.
  apply ensures_bind. unfold _spawn_muzzle_flash.
  destruct aim_pos as [aim|].
  - apply ensures_bind. intros now' w3 _. apply ensures_ret.
    apply ensures_bind. intros u w4 _.
    eapply ensures_mono; [apply check_hit_shape|]. cbv beta.
    intros s' w5 (sc & ts & ex & sw & tr & ->). right. split; [exact Hcond|].
    unfold fired. do 7 eexists. reflexivity.
  - apply ensures_ret.
    apply ensures_bind. intros u w4 _.
    eapply ensures_mono; [apply check_hit_shape|]. cbv beta.
    intros s' w5 (sc & ts & ex & sw & tr & ->). right. split; [exact Hcond|].
    unfold fired. exists now, (muzzle_flashes s). do 5 eexists.
    destruct s; reflexivity.
Qed.

(** [_try_shoot] does nothing, or gives the dry-fire feedback, or fires. *)
Lemma try_shoot_shape (aim_pos : option Pos) (s : t) (w : World) :
  ensures (_try_shoot E aim_pos s) w
    (fun s' _ =>
       s' = s
       \/ (paused s = false /\ reloading s = false /\ ammo s <= 0
           /\ s' = set_no_ammo_msg_end_ms (next_now_ms E w + 700) s)
       \/ (may_fire s (next_now_ms E w)
           /\ may_fire s (next_now_ms E (clock_read w)) /\ fired s s')).
Proof.
  unfold _try_shoot.
  destruct (paused s) eqn:Hp; [apply ensures_ret; now left|].
  destruct (reloading s) eqn:Hr; [apply ensures_ret; now left|].
  cbn [orb]. apply ensures_bind.
  intros now w' Heq. rewrite now_ms_run in Heq. injection Heq as <- <-.
  destruct (ammo s <=? 0) eqn:Ha.
  - apply ensures_bind. pass_call. apply ensures_ret. right. left.
    apply Z.leb_le in Ha. repeat split; assumption.
  - destruct (next_now_ms E w - last_shot_time s <? shot_cooldown_ms s) eqn:Hc;
      [apply ensures_ret; now left|].
    eapply ensures_mono; [apply shoot_shape|]. cbv beta.
    intros s' w2 [->|[Hcond Hf]]; [now left|]. right. right.
    split; [|split; assumption].
    apply Z.leb_gt in Ha. apply Z.ltb_ge in Hc. repeat split; assumption.
Qed.

Lemma start_reload_shape (s : t) (w : World) :
  ensures (_start_reload E s) w
    (fun s' _ =>
       s' = s
       \/ (reloading s = false /\ ammo s < max_ammo s
           /\ s' = set_reload_started_at (clock E (clock_reads w) * 1000.0)
                     (set_reloading true s))).
Proof.
  unfold _start_reload.
  destruct (reloading s) eqn:Hr; cbn [negb andb]; [apply ensures_ret; now left|].
  destruct (ammo s <? max_ammo s) eqn:Ha; [|apply ensures_ret; now left].
  apply ensures_bind. intros now w' Heq. unfold time_time in Heq. injection Heq as <- <-.
  apply ensures_ret. right. apply Z.ltb_lt in Ha. repeat split; assumption.
Qed.

Lemma update_reload_shape (s : t) (w : World) :
  ensures (_update_reload E s) w
    (fun s' _ =>
       s' = s
       \/ (reloading s = true
           /\ (inject_Z (reload_time_ms s)
               <= clock E (clock_reads w) * 1000.0 - reload_started_at s)%Q
           /\ s' = set_ammo (max_ammo s) (set_reloading false s))).
Proof.
  unfold _update_reload.
  destruct (reloading s) eqn:Hr; [|apply ensures_ret; now left].
  apply ensures_bind. intros now w' Heq. unfold time_time in Heq. injection Heq as <- <-.
  destruct (Qle_bool _ _) eqn:Hq; [|apply ensures_ret; now left].
  apply ensures_bind. pass_call. apply ensures_ret. right.
  apply Qle_bool_iff in Hq. repeat split; assumption.
Qed.

End Transitions.

(** * game_engine.py: what the parts of a frame keep *)

Ltac frame_facts :=
  unfold ammo_ok, same_pace, same_scene, may_fire, fired in *;
  repeat match goal with
         | H : exists _, _ |- _ => destruct H
         | H : _ /\ _ |- _ => destruct H
         end;
  subst; cbn in *;
  repeat split; try reflexivity; try assumption; try lia; try congruence.

Section Frames.

Import GameEngine.

Variable E : Env.



(** Shooting keeps the cadence and the magazine in range, and a shot or a
    dry fire only happens to an engine that is not paused. *)
Lemma try_shoot_frame (aim_pos : option Pos) (s : t) (w : World) :
  ensures (_try_shoot E aim_pos s) w
    (fun s' _ => same_pace s s' /\ (ammo_ok s -> ammo_ok s')
                 /\ paused s' = paused s /\ (s' = s \/ paused s' = false)).
Proof.
  eapply ensures_mono; [apply try_shoot_shape|]. cbv beta.
  intros s' w' [->|[(Hp & Hr & Ha & ->)|(Hg & _ & Hf)]].
  - frame_facts. now left.
  - frame_facts. now right.
  - destruct Hg as (Hp & Hr & Ha & Hc).
    destruct Hf as (now & mf & sc & ts & ex & sw & tr & ->).
    unfold same_pace, ammo_ok. cbn. repeat split; try lia. now right.
Qed.


Lemma start_reload_frame (s : t) (w : World) :
  ensures (_start_reload E s) w
    (fun s' _ => same_pace s s' /\ same_scene s s' /\ (ammo_ok s -> ammo_ok s')
                 /\ paused s' = paused s).
Proof.
  eapply ensures_mono; [apply start_reload_shape|]. cbv beta.
  intros s' w' [->|(Hr & Ha & ->)]; frame_facts.
Qed.

Lemma update_reload_frame (s : t) (w : World) :
  ensures (_update_reload E s) w
    (fun s' _ => same_pace s s' /\ same_scene s s' /\ (ammo_ok s -> ammo_ok s')
                 /\ paused s' = paused s).
Proof.
  eapply ensures_mono; [apply update_reload_shape|]. cbv beta.
  intros s' w' [->|(Hr & Ha & ->)]; frame_facts.
Qed.

(** An event with the options menu open only reaches the menu. *)
Lemma handle_options_event_frame (ev : Event) (s : t) (w : World) :
  ensures (_handle_options_event ev s) w
    (fun s' _ => same_pace s s' /\ same_scene s s' /\ (ammo_ok s -> ammo_ok s')).
Proof.
  unfold _handle_options_event, _toggle_options, _toggle_mute, _change_volume,
    set_volume_at.
  destruct (show_options s) eqn:Hso; cbn [negb];
    destruct ev as [|k|k|b [mx my]|b|[mx my]|]; try destruct k;
    repeat mstep; frame_facts.
Qed.

(** An event with the menu closed never touches the scene; it changes the
    cadence only when it selects a difficulty. *)
Lemma handle_game_event_frame (ev : Event) (s : t) (w : World) :
  ensures (handle_game_event E ev s) w
    (fun s' _ => same_scene s s' /\ (ammo_ok s -> ammo_ok s')
                 /\ (difficulty_key ev = false -> same_pace s s')).
Proof.
  destruct ev as [|k|k|b p|b|p|]; try destruct k; cbn [handle_game_event difficulty_key];
    try (apply ensures_ret; unfold _toggle_pause, _toggle_options, _toggle_mute,
           _change_volume; frame_facts; fail).
  - apply ensures_ret. unfold _toggle_options.
    destruct (show_options s); frame_facts.
  - eapply ensures_mono; [apply start_reload_frame|]. cbv beta.
    intros s' w' (Hp & Hs & Ha & _).
    split; [exact Hs|]. split; [exact Ha|]. intros _. exact Hp.
Qed.

Lemma same_pace_trans (a b c : t) : same_pace a b -> same_pace b c -> same_pace a c.
Proof.
  unfold same_pace. intuition congruence.
Qed.

Lemma same_scene_trans (a b c : t) : same_scene a b -> same_scene b c -> same_scene a c.
Proof.
  unfold same_scene. intuition congruence.
Qed.

Lemma same_pace_refl (a : t) : same_pace a a.
Proof.
  unfold same_pace. tauto.
Qed.

Lemma same_scene_refl (a : t) : same_scene a a.
Proof.
  unfold same_scene. tauto.
Qed.

Lemma handle_events_frame (evs : list Event) (s : t) (w : World) :
  ensures (_handle_events E evs s) w
    (fun s' _ => same_scene s s' /\ (ammo_ok s -> ammo_ok s')
                 /\ ((forall ev, In ev evs -> difficulty_key ev = false) -> same_pace s s')).
Proof.
  unfold _handle_events.
  apply (ensures_for_each _
           (fun s' _ => same_scene s s' /\ (ammo_ok s -> ammo_ok s')
                        /\ ((forall ev, In ev evs -> difficulty_key ev = false)
                            -> same_pace s s'))).
  - intros ev s1 w1 Hin (Hs & Ha & Hp). destruct (show_options s1).
    + eapply ensures_mono; [apply handle_options_event_frame|]. cbv beta.
      intros s2 w2 (Hp2 & Hs2 & Ha2).
      split; [exact (same_scene_trans _ _ _ Hs Hs2)|]. split; [tauto|].
      intros Hk. exact (same_pace_trans _ _ _ (Hp Hk) Hp2).
    + eapply ensures_mono; [apply handle_game_event_frame|]. cbv beta.
      intros s2 w2 (Hs2 & Ha2 & Hp2).
      split; [exact (same_scene_trans _ _ _ Hs Hs2)|]. split; [tauto|].
      intros Hk. exact (same_pace_trans _ _ _ (Hp Hk) (Hp2 (Hk ev Hin))).
  - split; [apply same_scene_refl|]. split; [tauto|]. intros _. apply same_pace_refl.
Qed.

End Frames.

Section FrameParts.

Import GameEngine.

Variable E : Env.

(** The gestures and the shooting inputs: a frame that leaves this block
    paused has not touched the scene. *)
Lemma run_input_frame (fr : Frame) (s : t) (w : World) :
  ensures (run_input E fr s) w
    (fun s' _ => same_pace s s' /\ (ammo_ok s -> ammo_ok s')
                 /\ (paused s' = true -> same_scene s s')).
Proof.
  unfold run_input. cbv zeta.
  match goal with
  | |- ensures (bind ?m _) _ _ =>
      match m with
      | context [_start_reload E ?x] => set (sa := x)
      end
  end.
  assert (Ha : same_pace s sa /\ same_scene s sa /\ (ammo_ok s -> ammo_ok sa)).
  { subst sa. destruct (g_pause fr); [destruct (pause_gesture_active s)|];
      unfold _toggle_pause; frame_facts. }
  destruct Ha as (Hpa & Hsa & Haa).
  apply ensures_bind.
  apply ensures_mono
    with (P := fun sb (_ : World) =>
                 same_pace sa sb /\ same_scene sa sb /\ (ammo_ok sa -> ammo_ok sb)
                 /\ paused sb = paused sa).
  { destruct (g_reload fr); [destruct (reload_gesture_active sa); cbn [negb]|].
    - apply ensures_ret. frame_facts.
    - apply ensures_bind. eapply ensures_mono; [apply start_reload_frame|]. cbv beta.
      intros s1 w1 (H1 & H2 & H3 & H4). apply ensures_ret. clearbody sa. frame_facts.
    - apply ensures_ret. clearbody sa. frame_facts. }
  cbv beta. intros sb wb (Hpb & Hsb & Hab & Hbb).
  apply ensures_bind.
  apply ensures_mono
    with (P := fun sc (_ : World) =>
                 same_pace sb sc /\ (ammo_ok sb -> ammo_ok sc)
                 /\ paused sc = paused sb /\ (sc = sb \/ paused sc = false)).
  { destruct (g_shoot fr); [apply try_shoot_frame|].
    apply ensures_ret. split; [apply same_pace_refl|]. split; [tauto|].
    split; [reflexivity | now left]. }
  cbv beta. intros sc wc (Hpc & Hac & Hbc & Hcc).
  assert (Hfin : forall (sd : t),
             same_pace sc sd /\ (ammo_ok sc -> ammo_ok sd)
             /\ paused sd = paused sc /\ (sd = sc \/ paused sd = false) ->
             same_pace s sd /\ (ammo_ok s -> ammo_ok sd)
             /\ (paused sd = true -> same_scene s sd)).
  { intros sd (Hpd & Had & Hbd & Hdd).
    split; [exact (same_pace_trans _ _ _ (same_pace_trans _ _ _
                     (same_pace_trans _ _ _ Hpa Hpb) Hpc) Hpd)|].
    split; [tauto|].
    intros Hpaused. destruct Hdd as [->|Hd]; [|congruence].
    destruct Hcc as [->|Hc]; [|congruence].
    exact (same_scene_trans _ _ _ Hsa Hsb). }
  destruct (shoot_key_held sc).
  - eapply ensures_mono; [apply try_shoot_frame|]. cbv beta.
    intros sd wd Hd. apply Hfin. exact Hd.
  - apply ensures_ret. apply Hfin.
    split; [apply same_pace_refl|]. split; [tauto|]. split; [reflexivity | now left].
Qed.

Lemma run_before_world_frame (fr : Frame) (s : t) (w : World) :
  ensures (run_before_world E fr s) w
    (fun s' _ => (ammo_ok s -> ammo_ok s')
                 /\ ((forall ev, In ev (events fr) -> difficulty_key ev = false)
                     -> same_pace s s')
                 /\ (paused s' = true -> same_scene s s')).
Proof.
  unfold run_before_world. apply ensures_bind.
  eapply ensures_mono; [apply handle_events_frame|]. cbv beta.
  intros s1 w1 (Hs1 & Ha1 & Hp1). apply ensures_bind.
  eapply ensures_mono; [apply run_input_frame|]. cbv beta.
  intros s2 w2 (Hp2 & Ha2 & Hs2).
  eapply ensures_mono; [apply update_reload_frame|]. cbv beta.
  intros s3 w3 (Hp3 & Hs3 & Ha3 & Hb3).
  split; [tauto|]. split.
  - intros Hk. exact (same_pace_trans _ _ _ (same_pace_trans _ _ _ (Hp1 Hk) Hp2) Hp3).
  - intros Hpaused. rewrite Hb3 in Hpaused.
    exact (same_scene_trans _ _ _ (same_scene_trans _ _ _ Hs1 (Hs2 Hpaused)) Hs3).
Qed.


Lemma run_after_world_frame (fr : Frame) (s : t) (w : World) :
  ensures (run_after_world E fr s) w
    (fun s' _ => same_pace s s' /\ (ammo_ok s -> ammo_ok s') /\ paused s' = paused s
                 /\ targets s' = targets s /\ spawn_timer s' = spawn_timer s).
Proof.
  unfold run_after_world, run_effects, _update_explosions, _update_muzzle_flashes,
    _update_shockwaves, _update_tracers.
  repeat mstep; frame_facts.
Qed.




End FrameParts.

(** * game_engine.py: spawning and the escalation of the cadence *)

Section Spawning.

Import GameEngine.

Variable E : Env.

Lemma weighted_choice_returns (s : t) (w : World) :
  spawn_weights s <> [] ->
  exists name : string,
    _weighted_choice E s w =
    Some (name, mkWorld (clock_reads w) (S (rng_calls w)) (next_oid w) (played w)).
Proof.
  intros Hne. unfold _weighted_choice, bind, random_random.
  destruct (weighted_walk _ 0 (spawn_weights s)) as [name|].
  - exists name. reflexivity.
  - destruct (rev (spawn_weights s)) as [|[name wt] rest] eqn:Hrev.
    + exfalso. apply Hne. rewrite <- (rev_involutive (spawn_weights s)), Hrev. reflexivity.
    + exists name. reflexivity.
Qed.

(** The constructor of a target returns for every type name and reads no clock. *)
Lemma target_init_returns (x0 y0 : Z) (ttype : string) (bounds0 : Z * Z)
  (speed_mul size_mul points_mul : Q) (w : World) :
  exists (tg : Target.t) (w' : World),
    Target.__init__ E x0 y0 ttype bounds0 speed_mul size_mul points_mul w = Some (tg, w')
    /\ Target.oid tg = next_oid w /\ clock_reads w' = clock_reads w.
Proof.
  unfold Target.__init__, bind, new_oid.
  destruct (String.eqb ttype "moving").
  - eexists. eexists. split; [reflexivity|]. split; reflexivity.
  - destruct (String.eqb ttype "small");
      (eexists; eexists; split; [reflexivity|]; split; reflexivity).
Qed.

Lemma spawn_target_returns (s : t) (w : World) :
  spawn_weights s <> [] -> 100 <= screen_width s -> 100 <= screen_height s ->
  exists (tg : Target.t) (w' : World),
    spawn_target E s w = Some (set_targets (targets s ++ [tg]) s, w')
    /\ clock_reads w' = clock_reads w.
Proof.
  intros Hne Hw Hh. unfold spawn_target.
  destruct (weighted_choice_returns s w Hne) as (name & Hname).
  unfold bind at 1. rewrite Hname.
  unfold bind at 1. unfold random_randint at 1.
  assert (Hx : (screen_width s - 50 <? 50) = false) by (apply Z.ltb_ge; lia).
  rewrite Hx.
  unfold bind at 1. unfold random_randint at 1.
  assert (Hy : (screen_height s - 50 <? 50) = false) by (apply Z.ltb_ge; lia).
  rewrite Hy. unfold bind.
  match goal with
  | |- context [Target.__init__ E ?a ?b ?c ?d ?e ?f ?g ?w1] =>
      destruct (target_init_returns a b c d e f g w1) as (tg & w' & Hinit & _ & Hclock)
  end.
  exists tg, w'. rewrite Hinit. split; [reflexivity | exact Hclock].
Qed.

Lemma maybe_increase_difficulty_run (s : t) (w : World) :
  exists s' : t,
    _maybe_increase_difficulty E s w = Some (s', clock_read w)
    /\ spawn_interval s' = escalated_interval s (clock E (clock_reads w))
    /\ (s' = s \/ s' = set_spawn_interval (escalated_interval s (clock E (clock_reads w))) s).
Proof.
  unfold _maybe_increase_difficulty, bind, time_time, escalated_interval, py_floordiv.
  destruct (Z.eqb_spec
              (Z.max (spawn_interval_min s)
                 (60 - Qfloor ((clock E (clock_reads w) - start_time s) / 20) * 5))
              (spawn_interval s)) as [Heq|Hne]; cbn [negb].
  - exists s. split; [reflexivity|]. split; [now symmetry | now left].
  - eexists. split; [reflexivity|]. split; [reflexivity | now right].
Qed.

(** C3.  In a frame that is not paused the spawn timer advances; when it
    reaches the spawn interval a target is spawned, the timer restarts and
    the interval becomes [max(spawn_interval_min, 60 - floor(elapsed / 20) * 5)]
    for the session time elapsed at that moment; when it does not, no
    target is spawned and the interval stands.  A paused frame skips the
    block, and neither the part of the frame before it (unless an event
    selects a difficulty) nor the part after it touches the interval. *)
Theorem spawn_interval_recomputed_at_spawn (s : t) (w : World) :
  (spawn_weights s <> [] -> 100 <= screen_width s -> 100 <= screen_height s ->
   paused s = false ->
   exists (s' : t) (w' : World),
     run_world E s w = Some (s', w')
     /\ (spawn_interval s <= spawn_timer s + 1 ->
         (exists tg : Target.t, targets s' = map Target.update (targets s ++ [tg]))
         /\ spawn_timer s' = 0
         /\ spawn_interval s' = escalated_interval s (clock E (clock_reads w))
         /\ escalated_interval s (clock E (clock_reads w))
            = Z.max (spawn_interval_min s)
                (60 - Qfloor ((clock E (clock_reads w) - start_time s) / 20) * 5))
     /\ (spawn_timer s + 1 < spawn_interval s ->
         targets s' = map Target.update (targets s)
         /\ spawn_timer s' = spawn_timer s + 1
         /\ spawn_interval s' = spawn_interval s))
  /\ (paused s = true -> run_world E s w = Some (s, w))
  /\ (forall fr : Frame,
        (forall ev, In ev (events fr) -> difficulty_key ev = false) ->
        ensures (run_before_world E fr s) w
          (fun s' _ => spawn_interval s' = spawn_interval s))
  /\ (forall fr : Frame,
        ensures (run_after_world E fr s) w
          (fun s' _ => spawn_interval s' = spawn_interval s)).
Proof.
  split; [|split; [|split]].
  - intros Hne Hw Hh Hp. unfold run_world. rewrite Hp. cbn [negb]. cbv zeta.
    cbn [spawn_interval spawn_timer set_spawn_timer].
    destruct (Z.leb_spec (spawn_interval s) (spawn_timer s + 1)) as [Hspawn|Hwait].
    + destruct (spawn_target_returns (set_spawn_timer (spawn_timer s + 1) s) w Hne Hw Hh)
        as (tg & w1 & Hrun & Hclock).
      match type of Hrun with
      | _ = Some (?s1, _) =>
          destruct (maybe_increase_difficulty_run (set_spawn_timer 0 s1) w1)
            as (s2 & Hrun2 & Hint & Hs2)
      end.
      eexists. eexists. split.
      { unfold bind. rewrite Hrun. rewrite Hrun2. reflexivity. }
      split; [|intros Hlt; lia].
      intros _. rewrite Hclock in Hint. cbn in Hint.
      destruct Hs2 as [->| ->]; cbn;
        (split; [exists tg; reflexivity|]; split; [reflexivity|]; split;
         [exact Hint | reflexivity]).
    + eexists. eexists. split; [reflexivity|].
      split; [intros Hle; lia|].
      intros _. cbn. repeat split.
  - intros Hp. unfold run_world. rewrite Hp. reflexivity.
  - intros fr Hk. eapply ensures_mono; [apply run_before_world_frame|]. cbv beta.
    intros s' w' (_ & Hpace & _). apply (Hpace Hk).
  - intros fr. eapply ensures_mono; [apply run_after_world_frame|]. cbv beta.
    intros s' w' (Hpace & _). apply Hpace.
Qed.

End Spawning.

(** The spawn 45 s into the session: the interval drops from 60 to 50. *)
Lemma spawn_interval_recomputed_at_spawn_witness :
  GameEngine.spawn_weights demo_spawn_engine <> []
  /\ 100 <= GameEngine.screen_width demo_spawn_engine
  /\ 100 <= GameEngine.screen_height demo_spawn_engine
  /\ GameEngine.paused demo_spawn_engine = false
  /\ GameEngine.spawn_interval demo_spawn_engine
     <= GameEngine.spawn_timer demo_spawn_engine + 1
  /\ exists (s' : GameEngine.t) (w' : World),
       GameEngine.run_world demo_env demo_spawn_engine demo_world_46s = Some (s', w')
       /\ GameEngine.spawn_timer s' = 0
       /\ GameEngine.spawn_interval s' = 50.
Proof.
  assert (H1 : GameEngine.spawn_weights demo_spawn_engine <> []) by discriminate.
  assert (H2 : 100 <= GameEngine.screen_width demo_spawn_engine) by (cbn; lia).
  assert (H3 : 100 <= GameEngine.screen_height demo_spawn_engine) by (cbn; lia).
  assert (H4 : GameEngine.paused demo_spawn_engine = false) by reflexivity.
  assert (H5 : GameEngine.spawn_interval demo_spawn_engine
               <= GameEngine.spawn_timer demo_spawn_engine + 1) by (cbn; lia).
  repeat (split; [assumption|]).
  destruct (proj1 (spawn_interval_recomputed_at_spawn demo_env demo_spawn_engine
                     demo_world_46s) H1 H2 H3 H4)
    as (s' & w' & Hrun & Hspawn & _).
  destruct (Hspawn H5) as (_ & Htimer & Hint & _).
  exists s', w'. split; [exact Hrun|]. split; [exact Htimer|].
  rewrite Hint. reflexivity.
Defined.

(** * game_engine.py: the ammunition invariant *)

Section AmmoMachine.

Import GameEngine.

Variable E : Env.

Lemma can_shoot_allows (s : t) (w : World) :
  may_fire s (next_now_ms E w) -> _can_shoot E s w = Some (true, clock_read w).
Proof.
  intros (Hp & Hr & Ha & Hc). unfold _can_shoot. rewrite Hp, Hr.
  apply Z.leb_gt in Ha. rewrite Ha.
  unfold bind. rewrite now_ms_run.
  apply Z.ltb_ge in Hc. rewrite Hc. reflexivity.
Qed.

(** A shot does go off when the conditions hold at the two readings of
    the clock that test them: the attempt returns, and one round is gone. *)
Lemma try_shoot_fires (aim_pos : option Pos) (s : t) (w : World) :
  NoDup (map Target.oid (targets s)) ->
  may_fire s (next_now_ms E w) ->
  may_fire s (next_now_ms E (clock_read w)) ->
  returns (_try_shoot E aim_pos s) w
    (fun s' _ => ammo s' = ammo s - 1 /\ max_ammo s' = max_ammo s
                 /\ last_shot_time s' = next_now_ms E (clock_read (clock_read w))).
Proof.
  intros Hnd (Hp & Hr & Ha & Hc) Hfire2. unfold _try_shoot. rewrite Hp, Hr. cbn [orb].
  apply returns_bind. eapply returns_eq; [apply now_ms_run|].
  apply Z.leb_gt in Ha. rewrite Ha. apply Z.ltb_ge in Hc. rewrite Hc.
  unfold _shoot. apply returns_bind.
  eapply returns_eq; [exact (can_shoot_allows s (clock_read w) Hfire2)|]. cbn [negb].
  apply returns_bind. eapply returns_eq; [apply now_ms_run|]. cbv zeta.
  apply returns_bind.
  apply returns_mono
    with (P := fun s1 (_ : World) =>
                 targets s1 = targets s /\ ammo s1 = ammo s - 1
                 /\ max_ammo s1 = max_ammo s
                 /\ last_shot_time s1 = next_now_ms E (clock_read (clock_read w))).
  { unfold _spawn_muzzle_flash. destruct aim_pos as [aim|].
    - apply returns_bind. eapply returns_eq; [apply now_ms_run|].
      apply returns_ret. cbn. repeat split.
    - apply returns_ret. cbn. repeat split. }
  intros s1 w1 (Hts & Ha1 & Hm1 & Hl1).
  apply returns_bind. eapply returns_eq; [apply play_sound_run|].
  destruct aim_pos as [aim|]; cbn [check_hit].
  - rewrite <- Hts in Hnd.
    eapply returns_mono; [exact (check_hit_loop E aim (targets s1) [] s1 _ eq_refl Hnd)|].
    intros s2 w2 (ex & sw & tr & -> & _). cbn. repeat split; assumption.
  - apply returns_ret. repeat split; assumption.
Qed.


End AmmoMachine.

Lemma demo_engine_init :
  GameEngine.__init__ demo_env 1280 720 true ["shot"; "hit"; "reload"; "dry"] demo_world
  = Some (demo_engine, mkWorld 1 0 0 []).
Proof.
  reflexivity.
Qed.



(** * Object identities: the lists of a session hold distinct objects *)

Lemma fresh_below_mono (n m : nat) (l : list nat) :
  (n <= m)%nat -> fresh_below n l -> fresh_below m l.
Proof.
  intros Hle [Hnd Hlt]. split; [exact Hnd|]. intros o Hin. specialize (Hlt o Hin). lia.
Qed.

Lemma fresh_below_snoc (n : nat) (l : list nat) :
  fresh_below n l -> fresh_below (S n) (l ++ [n]).
Proof.
  intros [Hnd Hlt]. split.
  - apply NoDup_app; [exact Hnd | repeat constructor; intros [] |].
    intros o Hin [Heq|[]]. subst o. specialize (Hlt n Hin). lia.
  - intros o Hin. apply in_app_or in Hin. destruct Hin as [Hin|[<-|[]]]; [|lia].
    specialize (Hlt o Hin). lia.
Qed.

Lemma fresh_below_filter {A : Type} (oid : A -> nat) (keep : A -> bool) (n : nat)
  (l : list A) :
  fresh_below n (map oid l) -> fresh_below n (map oid (filter keep l)).
Proof.
  intros [Hnd Hlt]. split.
  - induction l as [|a l IH]; [constructor|]. cbn [map filter] in *.
    inversion Hnd as [|? ? Hnotin Hnd']; subst.
    destruct (keep a); cbn [map].
    + constructor; [|apply IH; [exact Hnd' | intros o Hin; apply Hlt; now right]].
      intros Hin. apply Hnotin. apply in_map_iff in Hin. destruct Hin as (b & Hb & Hin).
      apply filter_In in Hin. rewrite <- Hb. apply in_map. tauto.
    + apply IH; [exact Hnd' | intros o Hin; apply Hlt; now right].
  - intros o Hin. apply Hlt. apply in_map_iff in Hin. destruct Hin as (b & Hb & Hin).
    apply filter_In in Hin. rewrite <- Hb. apply in_map. tauto.
Qed.

Lemma list_remove_filter {A : Type} (oid : A -> nat) (same : A -> bool) (n : nat)
  (l l' : list A) :
  list_remove same l = Some l' ->
  fresh_below n (map oid l) -> fresh_below n (map oid l').
Proof.
  revert l'. induction l as [|a l IH]; intros l' Hrm [Hnd Hlt]; [discriminate|].
  cbn [list_remove] in Hrm. cbn [map] in *.
  inversion Hnd as [|? ? Hnotin Hnd']; subst.
  destruct (same a).
  - injection Hrm as <-. split; [exact Hnd' | intros o Hin; apply Hlt; now right].
  - destruct (list_remove same l) as [r|] eqn:Hr; [|discriminate].
    injection Hrm as <-.
    destruct (IH r eq_refl) as [Hnd2 Hlt2].
    { split; [exact Hnd' | intros o Hin; apply Hlt; now right]. }
    assert (Hsub : forall o, In o (map oid r) -> In o (map oid l)).
    { clear - Hr. revert r Hr. induction l as [|b l IHl]; intros r Hr; [discriminate|].
      cbn [list_remove] in Hr. destruct (same b).
      - injection Hr as <-. intros o Hin. now right.
      - destruct (list_remove same l) as [r'|] eqn:Hr'; [|discriminate].
        injection Hr as <-. intros o [<-|Hin]; [now left|]. right. now apply (IHl r'). }
    split.
    + cbn [map]. constructor; [|exact Hnd2]. intros Hin. apply Hnotin. now apply Hsub.
    + intros o [<-|Hin]; [apply Hlt; now left | now apply Hlt2].
Qed.

Lemma fresh_below_swept {A : Type} (oid : A -> nat) (adv : A -> A) (keep : A -> bool)
  (n : nat) (l : list A) :
  (forall a, oid (adv a) = oid a) ->
  fresh_below n (map oid l) -> fresh_below n (map oid (filter keep (map adv l))).
Proof.
  intros Hadv H. apply fresh_below_filter.
  rewrite map_map. now rewrite (map_ext _ oid Hadv).
Qed.

Section KeepsOid.

Context {A B : Type}.

Lemma keeps_ret (a : A) : keeps_oid (ret a).
Proof.
  intros w. now apply ensures_ret.
Qed.

Lemma keeps_raise : keeps_oid (@raise A).
Proof.
  intros w. apply ensures_raise.
Qed.

Lemma keeps_bind (m : M A) (k : A -> M B) :
  keeps_oid m -> (forall a, keeps_oid (k a)) -> keeps_oid (bind m k).
Proof.
  intros Hm Hk w. apply ensures_bind.
  eapply ensures_mono; [apply Hm|]. cbv beta. intros a w1 H1.
  eapply ensures_mono; [apply Hk|]. cbv beta. intros b w2 H2. congruence.
Qed.

Lemma keeps_lift (o : option A) : keeps_oid (lift o).
Proof.
  destruct o; [apply keeps_ret | apply keeps_raise].
Qed.

End KeepsOid.

Lemma keeps_for_each {A S : Type} (body : A -> S -> M S) (l : list A) :
  (forall a s, keeps_oid (body a s)) -> forall s, keeps_oid (for_each l body s).
Proof.
  intros Hbody. induction l as [|a l IH]; intros s; cbn [for_each].
  - apply keeps_ret.
  - apply keeps_bind; [apply Hbody | exact IH].
Qed.

Lemma keeps_time_time (E : Env) : keeps_oid (time_time E).
Proof.
  intros w a w' Heq. unfold time_time in Heq. now injection Heq as <- <-.
Qed.

Lemma keeps_now_ms (E : Env) : keeps_oid (now_ms E).
Proof.
  apply keeps_bind; [apply keeps_time_time | intros; apply keeps_ret].
Qed.

Lemma keeps_random_random (E : Env) : keeps_oid (random_random E).
Proof.
  intros w a w' Heq. unfold random_random in Heq. now injection Heq as <- <-.
Qed.

Lemma keeps_random_uniform (E : Env) (a b : Q) : keeps_oid (random_uniform E a b).
Proof.
  apply keeps_bind; [apply keeps_random_random | intros; apply keeps_ret].
Qed.

Lemma keeps_random_randint (E : Env) (a b : Z) : keeps_oid (random_randint E a b).
Proof.
  unfold random_randint. destruct (b <? a); [apply keeps_raise|].
  intros w r w' Heq. now injection Heq as <- <-.
Qed.

Lemma keeps_Sound_play (key : string) : keeps_oid (Sound_play key).
Proof.
  intros w a w' Heq. unfold Sound_play in Heq. now injection Heq as <- <-.
Qed.

Lemma keeps_play_sound (key : string) (s : GameEngine.t) :
  keeps_oid (GameEngine._play_sound key s).
Proof.
  unfold GameEngine._play_sound.
  destruct (_ && _); [apply keeps_Sound_play | apply keeps_ret].
Qed.

(** Resolves [keeps_oid] of a method built from calls that allocate nothing. *)
Ltac keeps :=
  repeat first
    [ apply keeps_ret | apply keeps_raise | apply keeps_lift
    | apply keeps_time_time | apply keeps_now_ms
    | apply keeps_random_random | apply keeps_random_uniform | apply keeps_random_randint
    | apply keeps_Sound_play | apply keeps_play_sound
    | apply keeps_bind; [|intros ?]
    | apply keeps_for_each; intros ? ?
    | match goal with
      | |- keeps_oid (if ?b then _ else _) => destruct b
      | |- keeps_oid (match ?x with _ => _ end) => destruct x
      | |- keeps_oid (let _ := _ in _) => cbv zeta
      end ].

Section DistinctObjects.

Import GameEngine.

Variable E : Env.

Lemma keeps_start_reload (s : t) : keeps_oid (_start_reload E s).
Proof.
  unfold _start_reload. keeps.
Qed.

Lemma keeps_update_reload (s : t) : keeps_oid (_update_reload E s).
Proof.
  unfold _update_reload. keeps.
Qed.

Lemma keeps_handle_events (evs : list Event) (s : t) : keeps_oid (_handle_events E evs s).
Proof.
  unfold _handle_events, _handle_options_event, handle_game_event, _start_reload. keeps.
Qed.

Lemma keeps_run_effects (dt : Z) (s : t) : keeps_oid (run_effects E dt s).
Proof.
  unfold run_effects, _update_explosions, _update_muzzle_flashes, _update_shockwaves,
    _update_tracers, update_explosions_body, update_shockwaves_body, update_tracers_body.
  keeps.
Qed.

Lemma keeps_draw (s : t) : keeps_oid (_draw_hud E s ;;; _draw_muzzle_flashes E ;;; ret s).
Proof.
  unfold _draw_hud, _draw_muzzle_flashes. keeps.
Qed.

Lemma keeps_spawn_particles (n : nat) (x y : Z) (c : Color) (parts : list Particle.t) :
  keeps_oid (spawn_particles E n x y c parts).
Proof.
  revert parts. induction n as [|n IH]; intros parts; cbn [spawn_particles]; keeps.
  apply IH.
Qed.

Lemma keeps_weighted_choice (s : t) : keeps_oid (_weighted_choice E s).
Proof.
  unfold _weighted_choice. keeps.
Qed.

Lemma distinct_same_scene (s s' : t) (w w' : World) :
  same_scene s s' -> next_oid w' = next_oid w ->
  distinct_objects s w -> distinct_objects s' w'.
Proof.
  intros (Hts & _ & Hex & _ & Hsw & Htr) Hw. unfold distinct_objects.
  now rewrite Hts, Hex, Hsw, Htr, Hw.
Qed.

End DistinctObjects.

Lemma fresh_below_alloc (n m o : nat) (l : list nat) :
  fresh_below n l -> (n <= o)%nat -> (o < m)%nat -> fresh_below m (l ++ [o]).
Proof.
  intros [Hnd Hlt] Hno Hom. split.
  - apply NoDup_app; [exact Hnd | repeat constructor; intros [] |].
    intros a Hin [Heq|[]]. subst a. specialize (Hlt o Hin). lia.
  - intros a Hin. apply in_app_or in Hin. destruct Hin as [Hin|[Heq|[]]]; [|lia].
    specialize (Hlt a Hin). lia.
Qed.

Section DistinctSteps.

Import GameEngine.

Variable E : Env.

Ltac alloc_step o w' :=
  let Heq := fresh "Heq" in
  intros o w' Heq; unfold new_oid in Heq; injection Heq as <- <-.

(** A hit allocates three objects, one for each list of effects. *)
Lemma check_hit_body_distinct (aim : Pos) (tg : Target.t) (s : t) (w : World) :
  distinct_objects s w ->
  ensures (check_hit_body E aim tg s) w (fun s' w' => distinct_objects s' w').
Proof.
  intros (Ht & Hx & Hs & Hr). unfold check_hit_body.
  destruct (Target.check_collision tg aim);
    [|apply ensures_ret; repeat split; try apply Ht; try apply Hx; try apply Hs; apply Hr].
  cbv zeta. apply ensures_bind.
  destruct (list_remove _ _) as [ts|] eqn:Hrm; cbn [lift]; [|apply ensures_raise].
  apply ensures_ret. apply ensures_bind.
  unfold _spawn_explosion. apply ensures_bind.
  eapply ensures_mono; [apply keeps_spawn_particles|]. cbv beta. intros parts w1 H1.
  apply ensures_bind. alloc_step o2 w2. apply ensures_ret.
  apply ensures_bind.
  eapply ensures_mono; [apply keeps_play_sound|]. cbv beta. intros u w3 H3.
  apply ensures_bind. unfold _spawn_shockwave.
  apply ensures_bind. alloc_step o4 w4. apply ensures_ret.
  unfold _spawn_tracer. apply ensures_bind. alloc_step o5 w5. apply ensures_ret.
  cbn [next_oid] in H3.
  unfold distinct_objects.
  cbn [targets explosions shockwaves tracers set_score set_targets set_explosions
       set_shockwaves set_tracers next_oid] in *.
  rewrite !map_app. cbn [map Explosion.oid Shockwave.oid Tracer.oid].
  rewrite H3, H1.
  split; [|split; [|split]].
  - apply (fresh_below_mono (next_oid w)); [lia|].
    exact (list_remove_filter Target.oid _ _ _ _ Hrm Ht).
  - apply (fresh_below_alloc (next_oid w)); [exact Hx | lia | lia].
  - apply (fresh_below_alloc (next_oid w)); [exact Hs | lia | lia].
  - apply (fresh_below_alloc (next_oid w)); [exact Hr | lia | lia].
Qed.

Lemma check_hit_distinct (aim_pos : option Pos) (s : t) (w : World) :
  distinct_objects s w ->
  ensures (check_hit E aim_pos s) w (fun s' w' => distinct_objects s' w').
Proof.
  intros Hd. unfold check_hit. destruct aim_pos as [aim|]; [|now apply ensures_ret].
  apply (ensures_for_each (check_hit_body E aim) distinct_objects); [|exact Hd].
  intros tg s1 w1 _ H1. now apply check_hit_body_distinct.
Qed.

Lemma shoot_distinct (aim_pos : option Pos) (s : t) (w : World) :
  distinct_objects s w ->
  ensures (_shoot E aim_pos s) w (fun s' w' => distinct_objects s' w').
Proof.
  intros Hd. unfold _shoot. apply ensures_bind.
  assert (Hk : keeps_oid (_can_shoot E s)) by (unfold _can_shoot; keeps).
  eapply ensures_mono; [apply Hk|]. cbv beta. intros ok w1 H1.
  destruct ok; cbn [negb].
  - apply ensures_bind.
    eapply ensures_mono; [apply keeps_now_ms|]. cbv beta. intros now w2 H2.
    cbv zeta. apply ensures_bind.
    assert (Hflash :
      forall s0, ensures (_spawn_muzzle_flash E aim_pos s0) w2
        (fun s' w' => same_scene (set_muzzle_flashes (muzzle_flashes s') s0) s'
                      /\ next_oid w' = next_oid w2)).
    { intros s0. unfold _spawn_muzzle_flash. destruct aim_pos as [aim|].
      - apply ensures_bind.
        eapply ensures_mono; [apply keeps_now_ms|]. cbv beta. intros now' w3 H3.
        apply ensures_ret. split; [|exact H3]. unfold same_scene. cbn. tauto.
      - apply ensures_ret. split; [|reflexivity]. unfold same_scene. cbn. tauto. }
    eapply ensures_mono; [apply Hflash|]. cbv beta.
    intros s3 w3 ((Hts & _ & Hex & _ & Hsw & Htr) & H3).
    cbn [targets explosions shockwaves tracers set_muzzle_flashes set_ammo
         set_last_shot_time] in Hts, Hex, Hsw, Htr.
    apply ensures_bind.
    eapply ensures_mono; [apply keeps_play_sound|]. cbv beta. intros u w4 H4.
    apply check_hit_distinct.
    unfold distinct_objects. rewrite Hts, Hex, Hsw, Htr, H4, H3, H2, H1. exact Hd.
  - apply ensures_ret. unfold distinct_objects in *. now rewrite H1.
Qed.

Lemma try_shoot_distinct (aim_pos : option Pos) (s : t) (w : World) :
  distinct_objects s w ->
  ensures (_try_shoot E aim_pos s) w (fun s' w' => distinct_objects s' w').
Proof.
  intros Hd. unfold _try_shoot.
  destruct (paused s || reloading s); [now apply ensures_ret|].
  apply ensures_bind.
  eapply ensures_mono; [apply keeps_now_ms|]. cbv beta. intros now w1 H1.
  assert (Hd1 : distinct_objects s w1) by (unfold distinct_objects in *; now rewrite H1).
  destruct (ammo s <=? 0).
  - apply ensures_bind.
    eapply ensures_mono; [apply keeps_play_sound|]. cbv beta. intros u w2 H2.
    apply ensures_ret. unfold distinct_objects in *. cbn. now rewrite H2.
  - destruct (now - last_shot_time s <? shot_cooldown_ms s); [now apply ensures_ret|].
    now apply shoot_distinct.
Qed.

(** A method that keeps the scene and allocates nothing keeps the objects
    distinct. *)
Lemma still_distinct (m : M t) (s : t) (w : World) :
  ensures m w (fun s' _ => same_scene s s') -> keeps_oid m ->
  distinct_objects s w -> ensures m w (fun s' w' => distinct_objects s' w').
Proof.
  intros Hscene Hkeeps Hd s' w' Hrun.
  exact (distinct_same_scene s s' w w' (Hscene s' w' Hrun) (Hkeeps w s' w' Hrun) Hd).
Qed.

Lemma run_input_distinct (fr : Frame) (s : t) (w : World) :
  distinct_objects s w ->
  ensures (run_input E fr s) w (fun s' w' => distinct_objects s' w').
Proof.
  intros Hd. unfold run_input. cbv zeta.
  match goal with
  | |- ensures (bind ?m _) _ _ =>
      match m with
      | context [_start_reload E ?x] => set (sa := x)
      end
  end.
  assert (Ha : distinct_objects sa w).
  { subst sa. destruct (g_pause fr); [destruct (pause_gesture_active s)|];
      unfold _toggle_pause, distinct_objects in *; cbn; exact Hd. }
  clearbody sa. apply ensures_bind.
  apply ensures_mono with (P := fun sb wb => distinct_objects sb wb).
  { destruct (g_reload fr); [destruct (reload_gesture_active sa); cbn [negb]|].
    - now apply ensures_ret.
    - apply ensures_bind.
      eapply ensures_mono;
        [apply (still_distinct (_start_reload E sa) sa w);
         [|apply keeps_start_reload | exact Ha]|].
      + eapply ensures_mono; [apply start_reload_frame|]. cbv beta. tauto.
      + cbv beta. intros s1 w1 H1. apply ensures_ret.
        unfold distinct_objects in *. cbn. exact H1.
    - apply ensures_ret. unfold distinct_objects in *. cbn. exact Ha. }
  cbv beta. intros sb wb Hb. apply ensures_bind.
  apply ensures_mono with (P := fun sc wc => distinct_objects sc wc).
  { destruct (g_shoot fr); [now apply try_shoot_distinct | now apply ensures_ret]. }
  cbv beta. intros sc wc Hc.
  destruct (shoot_key_held sc); [now apply try_shoot_distinct | now apply ensures_ret].
Qed.

Lemma run_before_world_distinct (fr : Frame) (s : t) (w : World) :
  distinct_objects s w ->
  ensures (run_before_world E fr s) w (fun s' w' => distinct_objects s' w').
Proof.
  intros Hd. unfold run_before_world. apply ensures_bind.
  eapply ensures_mono;
    [apply (still_distinct (_handle_events E (events fr) s) s w);
     [|apply keeps_handle_events | exact Hd]|].
  { eapply ensures_mono; [apply handle_events_frame|]. cbv beta. tauto. }
  cbv beta. intros s1 w1 H1. apply ensures_bind.
  eapply ensures_mono; [now apply run_input_distinct|]. cbv beta.
  intros s2 w2 H2.
  apply (still_distinct (_update_reload E s2) s2 w2);
    [|apply keeps_update_reload | exact H2].
  eapply ensures_mono; [apply update_reload_frame|]. cbv beta. tauto.
Qed.

Lemma target_init_world (x0 y0 : Z) (ttype : string) (bounds0 : Z * Z)
  (speed_mul size_mul points_mul : Q) (w : World) :
  ensures (Target.__init__ E x0 y0 ttype bounds0 speed_mul size_mul points_mul) w
    (fun tg w' => Target.oid tg = next_oid w /\ next_oid w' = S (next_oid w)).
Proof.
  intros tg w' Hrun.
  unfold Target.__init__, bind, new_oid, random_uniform, random_random, ret in Hrun.
  cbn [clock_reads rng_calls next_oid played] in Hrun.
  destruct (String.eqb ttype "moving"); [|destruct (String.eqb ttype "small")];
    injection Hrun as <- <-; split; reflexivity.
Qed.

Lemma update_oid (tg : Target.t) : Target.oid (Target.update tg) = Target.oid tg.
Proof.
  unfold Target.update. destruct (String.eqb (Target.type tg) "moving"); [|reflexivity].
  destruct (Target.bounds tg) as [bw bh].
  destruct (Target.bounce _ _ _ bw). destruct (Target.bounce _ _ _ bh). reflexivity.
Qed.

Lemma run_world_distinct (s : t) (w : World) :
  distinct_objects s w ->
  ensures (run_world E s) w (fun s' w' => distinct_objects s' w').
Proof.
  intros (Ht & Hx & Hs & Hr). unfold run_world.
  destruct (paused s); cbn [negb]; [now apply ensures_ret|].
  cbv zeta. apply ensures_bind.
  apply ensures_mono with (P := fun s1 w1 => distinct_objects s1 w1).
  - destruct (_ <=? _); [|apply ensures_ret; unfold distinct_objects; cbn; tauto].
    apply ensures_bind. unfold spawn_target. apply ensures_bind.
    eapply ensures_mono; [apply keeps_weighted_choice|]. cbv beta. intros name w1 H1.
    apply ensures_bind.
    eapply ensures_mono; [apply keeps_random_randint|]. cbv beta. intros x w2 H2.
    apply ensures_bind.
    eapply ensures_mono; [apply keeps_random_randint|]. cbv beta. intros y w3 H3.
    apply ensures_bind.
    eapply ensures_mono; [apply target_init_world|]. cbv beta. intros tg w4 (Hoid & H4).
    apply ensures_ret. cbv zeta.
    unfold _maybe_increase_difficulty. apply ensures_bind.
    eapply ensures_mono; [apply keeps_time_time|]. cbv beta. intros now w5 H5.
    cbv zeta.
    assert (Hn : next_oid w3 = next_oid w) by congruence.
    assert (Hfin : distinct_objects
                     (set_spawn_timer 0
                        (set_targets (targets (set_spawn_timer (spawn_timer s + 1) s) ++ [tg])
                           (set_spawn_timer (spawn_timer s + 1) s))) w5).
    { unfold distinct_objects. cbn. rewrite H5, H4, Hn, map_app. cbn [map]. rewrite Hoid, Hn.
      split; [now apply fresh_below_snoc|].
      split; [|split]; (eapply fresh_below_mono; [|eassumption]); lia. }
    destruct (negb _); apply ensures_ret; [|exact Hfin].
    unfold distinct_objects in *. cbn in *. exact Hfin.
  - cbv beta. intros s1 w1 (Ht1 & Hx1 & Hs1 & Hr1). apply ensures_ret.
    unfold distinct_objects. cbn.
    rewrite map_map, (map_ext _ Target.oid update_oid). tauto.
Qed.

Lemma run_effects_distinct (dt : Z) (s : t) (w : World) :
  distinct_objects s w ->
  ensures (run_effects E dt s) w (fun s' w' => distinct_objects s' w').
Proof.
  intros (Ht & Hx & Hs & Hr) s' w' Hrun.
  rewrite (run_effects_run E dt s w (proj1 Hx) (proj1 Hs) (proj1 Hr)) in Hrun.
  injection Hrun as <- <-. unfold distinct_objects. cbn.
  split; [exact Ht|].
  split; [|split]; apply fresh_below_swept; try assumption; reflexivity.
Qed.

Lemma run_iteration_distinct (fr : Frame) (s : t) (w : World) :
  distinct_objects s w ->
  ensures (run_iteration E fr s) w (fun s' w' => distinct_objects s' w').
Proof.
  intros Hd. unfold run_iteration. apply ensures_bind.
  eapply ensures_mono; [now apply run_before_world_distinct|]. cbv beta.
  intros s1 w1 H1. apply ensures_bind.
  eapply ensures_mono; [now apply run_world_distinct|]. cbv beta.
  intros s2 w2 H2. unfold run_after_world. apply ensures_bind.
  eapply ensures_mono; [now apply run_effects_distinct|]. cbv beta.
  intros s3 w3 H3. intros s4 w4 Hrun.
  pose proof (keeps_draw E s3 w3 s4 w4 Hrun) as Hk. cbv beta in Hk.
  assert (Hs : s4 = s3).
  { revert Hrun. unfold _draw_hud, _draw_muzzle_flashes, bind, now_ms, time_time, ret.
    destruct (reloading s3); intros Hrun; now injection Hrun as <- _. }
  subst s4. unfold distinct_objects in *. now rewrite Hk.
Qed.

(** Every reachable state holds distinct objects: the hypotheses on the
    identities in the statements about [check_hit] and about the sweeps of
    the effects hold throughout a session. *)
Lemma reachable_distinct (s : t) (w : World) : reachable E s w -> distinct_objects s w.
Proof.
  induction 1 as [width height audio_ok loaded w s w' Hinit | op s w s' w' _ IH Hstep].
  - unfold __init__, bind, time_time, ret in Hinit. injection Hinit as <- <-.
    unfold distinct_objects, fresh_below. cbn.
    repeat split; try constructor; intros o [].
  - destruct op as [aim|aim| | |level| |fr]; cbn [perform] in Hstep.
    + exact (try_shoot_distinct aim s w IH s' w' Hstep).
    + exact (shoot_distinct aim s w IH s' w' Hstep).
    + refine (still_distinct (_start_reload E s) s w _ (keeps_start_reload E s) IH s' w' Hstep).
      eapply ensures_mono; [apply start_reload_frame|]. cbv beta. tauto.
    + refine (still_distinct (_update_reload E s) s w _ (keeps_update_reload E s) IH
                s' w' Hstep).
      eapply ensures_mono; [apply update_reload_frame|]. cbv beta. tauto.
    + unfold ret in Hstep. injection Hstep as <- <-.
      unfold distinct_objects in *. cbn. exact IH.
    + unfold ret in Hstep. injection Hstep as <- <-.
      unfold distinct_objects in *. cbn. exact IH.
    + exact (run_iteration_distinct fr s w IH s' w' Hstep).
Qed.

End DistinctSteps.

(** * game_engine.py: hit resolution, all matches *)

Section HitResolutionAll.

Import GameEngine.

Variable E : Env.

(** The amended C1.  With a present aim point, [check_hit] destroys every
    live target whose circle contains the point, not only the first: each
    of them has its points added to the score and is removed, with one
    explosion, one shockwave and one tracer; the targets that do not
    contain the point stay, in their order.  Nothing else of the engine
    changes.  With no aim point the call does nothing.  This is stated of
    a live list of distinct objects, which is what every reachable state
    has. *)
Theorem check_hit_destroys_every_match (aim : Pos) (s : t) (w : World) :
  (NoDup (map Target.oid (targets s)) ->
   exists (s' : t) (w' : World),
     check_hit E (Some aim) s w = Some (s', w')
     /\ targets s' = missed_by aim (targets s)
     /\ score s' = score s + sumZ (map Target.points (hit_by aim (targets s)))
     /\ exists (ex : list Explosion.t) (sw : list Shockwave.t) (tr : list Tracer.t),
          s' = with_hit s (score s') (targets s')
                 (explosions s ++ ex) (shockwaves s ++ sw) (tracers s ++ tr)
          /\ length ex = length (hit_by aim (targets s))
          /\ length sw = length (hit_by aim (targets s))
          /\ length tr = length (hit_by aim (targets s)))
  /\ check_hit E None s w = Some (s, w)
  /\ (reachable E s w -> NoDup (map Target.oid (targets s))).
Proof.
  split; [|split; [reflexivity|]].
  - intros Hnd.
    destruct (check_hit_loop E aim (targets s) [] s w eq_refl Hnd)
      as (s' & w' & Hrun & ex & sw & tr & -> & Hex & Hsw & Htr).
    eexists. exists w'. split; [exact Hrun|].
    cbn [app]. split; [reflexivity|]. split; [reflexivity|].
    exists ex, sw, tr. repeat split; assumption.
  - intros Hr. exact (proj1 (proj1 (reachable_distinct E s w Hr))).
Qed.

End HitResolutionAll.

(** One shot into the overlap of the two concrete targets. *)
Lemma check_hit_destroys_every_match_witness :
  NoDup (map Target.oid (GameEngine.targets demo_overlap_engine))
  /\ exists (s' : GameEngine.t) (w' : World),
       GameEngine.check_hit demo_env (Some (105, 100)) demo_overlap_engine demo_world_3
       = Some (s', w')
       /\ GameEngine.targets s' = []
       /\ GameEngine.score s' = 40.
Proof.
  assert (Hnd : NoDup (map Target.oid (GameEngine.targets demo_overlap_engine))).
  { cbn. repeat constructor; cbn; intuition discriminate. }
  split; [exact Hnd|].
  destruct (proj1 (check_hit_destroys_every_match demo_env (105, 100) demo_overlap_engine
                     demo_world_3) Hnd) as (s' & w' & Hrun & Hts & Hsc & _).
  exists s', w'. split; [exact Hrun|]. split; [exact Hts | exact Hsc].
Defined.

(** C1 as stated fails on overlapping targets: the aim point (105, 100)
    lies in both live targets, and the one call removes both and scores
    10 + 30, where the first-match policy would leave the small target
    alive and score 10. *)
Lemma check_hit_overlap_counterexample :
  GameEngine.targets demo_overlap_engine = [demo_static; demo_small]
  /\ Target.check_collision demo_static (105, 100) = true
  /\ Target.check_collision demo_small (105, 100) = true
  /\ exists (s' : GameEngine.t) (w' : World),
       GameEngine.check_hit demo_env (Some (105, 100)) demo_overlap_engine demo_world_3
       = Some (s', w')
       /\ GameEngine.targets s' = []
       /\ GameEngine.targets s' <> [demo_small]
       /\ GameEngine.score s' = GameEngine.score demo_overlap_engine + 10 + 30
       /\ GameEngine.score s'
          <> GameEngine.score demo_overlap_engine + Target.points demo_static.
Proof.
  split; [reflexivity|]. split; [reflexivity|]. split; [reflexivity|].
  eexists. eexists. split; [vm_compute; reflexivity|].
  cbn [GameEngine.targets GameEngine.score].
  split; [reflexivity|]. split; [discriminate|]. split; [reflexivity | discriminate].
Qed.

(** * game_engine.py: a paused frame *)

Section PausedFrame.

Import GameEngine.

Variable E : Env.

Lemma draw_returns (s : t) (w : World) :
  exists w' : World, (_draw_hud E s ;;; _draw_muzzle_flashes E ;;; ret s) w = Some (s, w').
Proof.
  unfold _draw_hud, _draw_muzzle_flashes, bind, now_ms, time_time, ret.
  destruct (reloading s); eexists; reflexivity.
Qed.

Lemma start_reload_returns (s : t) (w : World) :
  returns (_start_reload E s) w (fun s' _ => paused s' = paused s).
Proof.
  unfold _start_reload. destruct (negb (reloading s) && (ammo s <? max_ammo s)).
  - cbv zeta. apply returns_bind. eapply returns_eq; [reflexivity|].
    now apply returns_ret.
  - now apply returns_ret.
Qed.

Lemma update_reload_returns (s : t) (w : World) :
  returns (_update_reload E s) w (fun s' _ => paused s' = paused s).
Proof.
  unfold _update_reload. destruct (reloading s); [|now apply returns_ret].
  apply returns_bind. eapply returns_eq; [reflexivity|].
  destruct (Qle_bool _ _); [|now apply returns_ret].
  cbv zeta. apply returns_bind. eapply returns_eq; [apply play_sound_run|].
  now apply returns_ret.
Qed.

(** A paused engine that gets no event and no pause gesture is still
    paused when the loop reaches the test of the flag. *)
Lemma paused_stays_paused (fr : Frame) (s : t) (w : World) :
  paused s = true -> events fr = [] -> g_pause fr = false ->
  returns (run_before_world E fr s) w (fun s1 _ => paused s1 = true).
Proof.
  intros Hp Hev Hg. unfold run_before_world, _handle_events. rewrite Hev.
  cbn [for_each]. apply returns_bind. apply returns_ret.
  apply returns_bind. unfold run_input. rewrite Hg. cbv zeta.
  apply returns_bind.
  apply returns_mono with (P := fun sb (_ : World) => paused sb = true).
  - destruct (g_reload fr); [destruct (negb _)|].
    + apply returns_bind.
      eapply returns_mono; [apply start_reload_returns|]. cbv beta.
      intros s1 w1 H1. apply returns_ret. cbn in *. congruence.
    + now apply returns_ret.
    + now apply returns_ret.
  - intros sb wb Hb. apply returns_bind.
    assert (Hidle : forall aim w0, _try_shoot E aim sb w0 = Some (sb, w0)).
    { intros aim w0. unfold _try_shoot. rewrite Hb. reflexivity. }
    apply returns_mono with (P := fun sc (_ : World) => sc = sb).
    + destruct (g_shoot fr); [eapply returns_eq; [apply Hidle | reflexivity]|].
      now apply returns_ret.
    + intros sc wc ->.
      eapply returns_mono
        with (P := fun sd (_ : World) => sd = sb).
      * destruct (shoot_key_held sb); [eapply returns_eq; [apply Hidle | reflexivity]|].
        now apply returns_ret.
      * intros sd wd ->.
        eapply returns_mono; [apply update_reload_returns|]. cbv beta.
        intros s3 w3 H3. congruence.
Qed.


End PausedFrame.




(** * Further properties: targets.py *)

Section TargetMore.

Import Target.

Lemma ordinary_tame (g : Z) (tg : t) (a : Axis) :
  ordinary g tg -> tame g a tg /\ extent a tg < 2 ^ 53.
Proof.
  intros (Hg & Hr & Hax). destruct (Hax a) as (Hfit & HP & Hsize).
  pose proof (Qabs_nonneg (vel a tg)) as Hv.
  assert (Hlim : extent a tg < 2 ^ (52 - g)).
  { rewrite Zlt_Qlt, two_Z by lia. lra. }
  split; [split; [exact Hg | split; [exact HP | lia]]|].
  apply Z.lt_le_trans with (2 ^ (52 - g)); [exact Hlim|].
  apply Z.pow_le_mono_r; lia.
Qed.

(** One frame of a target of ordinary size puts it inside its play area
    and leaves it of ordinary size, with the speed it had. *)
Lemma update_lands (g : Z) (tg : t) :
  type tg = "moving" -> ordinary g tg ->
  inside_area g (update tg) /\ ordinary g (update tg)
  /\ (speed2 (update tg) == speed2 tg)%Q.
Proof.
  intros Hm Hord.
  destruct (update_frame tg) as (_ & _ & Hb & Hr & _ & _).
  assert (Hext : forall a, extent a (update tg) = extent a tg).
  { intros a. destruct a; cbn [extent]; now rewrite Hb. }
  assert (Hax : forall a,
             ((0 <= b64 (coord a (update tg) - py_float (radius tg)))%Q
              /\ (b64 (coord a (update tg) + py_float (radius tg)) <= inject_Z (extent a tg))%Q
              /\ (inject_Z (radius tg) <= coord a (update tg))%Q
              /\ (coord a (update tg) < inject_Z (extent a tg - radius tg) + 2 ^ (- g))%Q
              /\ (vel a (update tg) = vel a tg \/ vel a (update tg) = (vel a tg * -1)%Q))).
  { intros a. destruct (update_axis tg a Hm) as [Hc Hv]. rewrite Hc, Hv.
    destruct (ordinary_tame g tg a Hord) as [(Hg & HP & Hrs) Hlim].
    destruct Hord as (_ & Hr0 & Hall). destruct (Hall a) as (Hfit & _ & _).
    exact (bounce_lands _ (vel a tg) (radius tg) (extent a tg) g Hg HP Hrs Hr0 Hfit Hlim). }
  split; [|split].
  - intros a. rewrite Hr, Hext. destruct (Hax a) as (H1 & H2 & H3 & H4 & _). tauto.
  - destruct Hord as (Hg & Hr0 & Hall).
    split; [exact Hg|]. split; [now rewrite Hr|].
    intros a. rewrite Hr, Hext.
    destruct (Hall a) as (Hfit & HP & Hsize).
    destruct (Hax a) as (_ & _ & H3 & H4 & Hv).
    assert (Habs : (Qabs (vel a (update tg)) == Qabs (vel a tg))%Q).
    { destruct Hv as [-> | ->]; [reflexivity|].
      rewrite (Qabs_wd (vel a tg * -1) (- vel a tg)) by ring. apply Qabs_opp. }
    split; [exact Hfit|]. split; [|now rewrite Habs].
    pose proof (two_pos (- g)) as Hpos.
    assert (Hone : (2 ^ (- g) <= 1)%Q).
    { change 1%Q with (2 ^ 0)%Q. apply two_le. lia. }
    assert (HR : (0 <= inject_Z (radius tg))%Q)
      by (change 0%Q with (inject_Z 0); now rewrite <- Zle_Qle).
    pose proof (Qle_Qabs (vel a (update tg))) as Hv1.
    pose proof (Qle_Qabs (- vel a (update tg))) as Hv2.
    rewrite Qabs_opp in Hv2. rewrite Habs in Hv1, Hv2.
    rewrite inject_Z_sub in H4.
    apply Qabs_Qlt_condition. lra.
  - unfold speed2.
    destruct (Hax Horizontal) as (_ & _ & _ & _ & Hvx).
    destruct (Hax Vertical) as (_ & _ & _ & _ & Hvy).
    cbn [vel] in Hvx, Hvy.
    destruct Hvx as [-> | ->]; destruct Hvy as [-> | ->]; ring.
Qed.

(** X1.  A moving target of ordinary size, in a play area at least one
    diameter wide and high, is inside the area after every update: on
    both axes neither edge test fires on it, its centre is at least a
    radius from the low edge and less than 2^-g beyond the position
    [extent - radius] of the high edge.  It keeps its speed, its radius
    and its points: the bounces lose no energy. *)
Theorem moving_target_stays_inside (tg : Target.t) (g : Z) (n : nat) :
  type tg = "moving" -> ordinary g tg ->
  inside_area g (Nat.iter (S n) update tg)
  /\ (speed2 (Nat.iter (S n) update tg) == speed2 tg)%Q
  /\ radius (Nat.iter (S n) update tg) = radius tg
  /\ points (Nat.iter (S n) update tg) = points tg.
Proof.
  intros Hm Hord.
  assert (Hinv : forall k,
             type (Nat.iter k update tg) = "moving"
             /\ ordinary g (Nat.iter k update tg)
             /\ radius (Nat.iter k update tg) = radius tg
             /\ points (Nat.iter k update tg) = points tg
             /\ (speed2 (Nat.iter k update tg) == speed2 tg)%Q).
  { induction k as [|k (Ht & Ho & Hr & Hp & Hs)].
    - cbn. split; [exact Hm|]. split; [exact Hord|]. split; [reflexivity|].
      split; reflexivity.
    - rewrite Nat.iter_succ.
      destruct (update_frame (Nat.iter k update tg)) as (_ & Ht' & _ & Hr' & _ & Hp').
      destruct (update_lands g _ Ht Ho) as (_ & Ho' & Hs').
      split; [congruence|]. split; [exact Ho'|]. split; [congruence|]. split; [congruence|].
      apply Qeq_trans with (speed2 (Nat.iter k update tg)); [exact Hs' | exact Hs]. }
  destruct (Hinv n) as (Ht & Ho & _).
  destruct (Hinv (S n)) as (_ & _ & Hr' & Hp' & Hs').
  split; [|split; [exact Hs'|split; [exact Hr'|exact Hp']]].
  rewrite Nat.iter_succ. now apply update_lands.
Qed.

End TargetMore.

(** The mover of the bounce test, after three frames, to 2^-20 of a pixel. *)
Lemma moving_target_stays_inside_witness :
  Target.type demo_mover = "moving"
  /\ ordinary 20 demo_mover
  /\ inside_area 20 (Nat.iter 3 Target.update demo_mover).
Proof.
  assert (H1 : Target.type demo_mover = "moving") by reflexivity.
  assert (H2 : ordinary 20 demo_mover).
  { split; [lia|]. split; [cbn; lia|].
    intros a. destruct a; (split; [cbn; lia|]); split;
      [reflexivity | apply Qle_bool_imp_le; reflexivity
      | reflexivity | apply Qle_bool_imp_le; reflexivity]. }
  split; [exact H1|]. split; [exact H2|].
  exact (proj1 (moving_target_stays_inside demo_mover 20 2 H1 H2)).
Defined.

Section TargetInitMore.

Variable E : Env.

(** X2.  For coordinates below 2^53 and multipliers below 2^1000 in size
    the constructor returns, for every type name: the radius is at least
    8, and exactly 8 when the size multiplier is not positive; the type,
    the play area and the position are the ones given; the colour goes by
    the type; the points are not negative when their multiplier is not.
    A type name other than "moving" and "small" is built like a static
    target.  A target that is not "moving" draws nothing from the random
    module, has no velocity, and no number of updates moves it. *)
Theorem target_init_floor_and_rest (x0 y0 : Z) (ttype : string) (bounds0 : Z * Z)
  (speed_mul size_mul points_mul : Q) (w : World) :
  Z.abs x0 < 2 ^ 53 -> Z.abs y0 < 2 ^ 53 ->
  (Qabs size_mul < 2 ^ 1000)%Q -> (Qabs points_mul < 2 ^ 1000)%Q ->
  exists (tg : Target.t) (w' : World),
    Target.__init__ E x0 y0 ttype bounds0 speed_mul size_mul points_mul w = Some (tg, w')
    /\ 8 <= Target.radius tg
    /\ ((size_mul <= 0)%Q -> Target.radius tg = 8)
    /\ Target.type tg = ttype /\ Target.bounds tg = bounds0
    /\ Target.x tg = inject_Z x0 /\ Target.y tg = inject_Z y0
    /\ Target.color tg
       = (if String.eqb ttype "moving" then (255, 255, 0)
          else if String.eqb ttype "small" then (255, 0, 0) else (0, 255, 0))
    /\ ((0 <= points_mul)%Q -> 0 <= Target.points tg)
    /\ (ttype <> "small" -> ttype <> "moving" ->
        exists st : Target.t,
          Target.__init__ E x0 y0 "static" bounds0 speed_mul size_mul points_mul w
          = Some (st, w')
          /\ Target.radius tg = Target.radius st /\ Target.points tg = Target.points st
          /\ Target.color tg = Target.color st
          /\ Target.vx tg = Target.vx st /\ Target.vy tg = Target.vy st)
    /\ (ttype <> "moving" ->
        Target.vx tg = 0%Q /\ Target.vy tg = 0%Q /\ rng_calls w' = rng_calls w
        /\ forall n : nat, Nat.iter n Target.update tg = tg).
Proof.
  intros _ _ _ _.
  unfold Target.__init__, bind, new_oid, random_uniform, random_random, ret.
  cbn [clock_reads rng_calls next_oid played].
  assert (Hiter : forall tg : Target.t,
             Target.type tg <> "moving" -> forall n, Nat.iter n Target.update tg = tg).
  { intros tg Ht n. induction n as [|n IH]; [reflexivity|].
    rewrite Nat.iter_succ, IH. now apply update_still. }
  assert (Hrad : forall b : Q, (0 <= b)%Q -> (size_mul <= 0)%Q ->
             Z.max 8 (py_round (b * size_mul)) = 8).
  { intros b Hb Hs. apply Z.max_l.
    assert (py_round (b * size_mul) <= 0); [|lia].
    apply py_round_le. change (inject_Z 0) with 0%Q. nra. }
  assert (Hpts : forall b : Q, (0 <= b)%Q -> (0 <= points_mul)%Q ->
             0 <= py_round (b * points_mul)).
  { intros b Hb Hp. apply py_round_ge. change (inject_Z 0) with 0%Q. nra. }
  destruct (String.eqb_spec ttype "moving") as [Hm|Hm].
  - subst ttype. cbn [String.eqb Ascii.eqb Bool.eqb negb].
    eexists. eexists. split; [reflexivity|].
    cbn [Target.radius Target.type Target.bounds Target.x Target.y Target.points
         Target.color Target.vx Target.vy rng_calls].
    split; [apply Z.le_max_l|]. split; [apply Hrad; lra|].
    do 5 (split; [reflexivity|]). split; [apply Hpts; lra|].
    split; [intros _ Hc; now contradiction Hc | intros Hc; now contradiction Hc].
  - destruct (String.eqb_spec ttype "small") as [Hs|Hs].
    + subst ttype. eexists. eexists. split; [reflexivity|]. cbn [negb].
      cbn [Target.radius Target.type Target.bounds Target.x Target.y Target.points
           Target.color Target.vx Target.vy rng_calls].
      split; [apply Z.le_max_l|]. split; [apply Hrad; lra|].
      do 5 (split; [reflexivity|]). split; [apply Hpts; lra|].
      split; [intros Hc; now contradiction Hc|].
      intros _. do 3 (split; [reflexivity|]). apply Hiter. cbn. discriminate.
    + eexists. eexists. split; [reflexivity|]. cbn [negb].
      cbn [Target.radius Target.type Target.bounds Target.x Target.y Target.points
           Target.color Target.vx Target.vy rng_calls].
      split; [apply Z.le_max_l|]. split; [apply Hrad; lra|].
      do 5 (split; [reflexivity|]). split; [apply Hpts; lra|].
      split.
      * intros _ _. eexists. cbn [String.eqb Ascii.eqb Bool.eqb negb].
        split; [reflexivity|]. cbn. repeat split.
      * intros _. do 3 (split; [reflexivity|]). apply Hiter. cbn. exact Hm.
Qed.

End TargetInitMore.

(** A static target at (100, 100) with the multipliers of the Normal
    profile. *)
Lemma target_init_floor_and_rest_witness :
  exists (tg : Target.t) (w' : World),
    Target.__init__ demo_env 100 100 "static" (200, 200) 1 1 1 demo_world = Some (tg, w')
    /\ 8 <= Target.radius tg.
Proof.
  destruct (target_init_floor_and_rest demo_env 100 100 "static" (200, 200) 1 1 1 demo_world)
    as (tg & w' & Hrun & Hrad & _);
    [cbn; lia | cbn; lia | reflexivity | reflexivity |].
  exists tg, w'. split; [exact Hrun | exact Hrad].
Defined.

(** * Further properties: the movement filter *)

Lemma py_round_between (a b : Z) (q : Q) :
  (inject_Z a <= q <= inject_Z b)%Q -> a <= py_round q <= b.
Proof.
  intros [Ha Hb].
  pose proof (Qfloor_le q) as Hfl. pose proof (Qlt_floor q) as Hfu.
  assert (Haf : a <= Qfloor q).
  { rewrite <- (Qfloor_Z a). now apply Qfloor_resp_le. }
  assert (Hfb : Qfloor q <= b).
  { rewrite <- (Qfloor_Z b). now apply Qfloor_resp_le. }
  unfold py_round.
  destruct (q - inject_Z (Qfloor q) ?= 1 # 2)%Q eqn:Hc.
  - apply Qeq_alt in Hc.
    assert (Hlt : Qfloor q < b).
    { rewrite Zlt_Qlt. lra. }
    destruct (Z.even (Qfloor q)); lia.
  - lia.
  - apply Qgt_alt in Hc.
    assert (Hlt : Qfloor q < b).
    { rewrite Zlt_Qlt. lra. }
    lia.
Qed.

Lemma sum_between (l : list Z) (a b : Z) :
  (forall x, In x l -> a <= x <= b) ->
  a * Z.of_nat (length l) <= sumZ l <= b * Z.of_nat (length l).
Proof.
  induction l as [|x l IH]; intros H; [cbn; lia|].
  cbn [sumZ length]. rewrite Nat2Z.inj_succ.
  specialize (IH (fun y Hy => H y (or_intror Hy))).
  pose proof (H x (or_introl eq_refl)). lia.
Qed.

Lemma mean_between (l : list Z) (a b : Z) :
  l <> [] -> (forall x, In x l -> a <= x <= b) ->
  (inject_Z a <= inject_Z (sumZ l) / inject_Z (Z.of_nat (length l)) <= inject_Z b)%Q.
Proof.
  intros Hne H. destruct (sum_between l a b H) as [Hlo Hhi].
  assert (Hn : (0 < inject_Z (Z.of_nat (length l)))%Q).
  { change 0%Q with (inject_Z 0). rewrite <- Zlt_Qlt.
    destruct l; [contradiction | cbn [length]; lia]. }
  split.
  - apply Qle_shift_div_l; [exact Hn|]. rewrite <- inject_Z_mult. now rewrite <- Zle_Qle.
  - apply Qle_shift_div_r; [exact Hn|]. rewrite <- inject_Z_mult. now rewrite <- Zle_Qle.
Qed.

Lemma lastn_In {A : Type} (n : nat) (l : list A) (a : A) : In a (lastn n l) -> In a l.
Proof.
  unfold lastn. intros H. rewrite <- (firstn_skipn (length l - n) l).
  apply in_or_app. now right.
Qed.

Lemma lastn_nonempty {A : Type} (n : nat) (l : list A) :
  (1 <= n)%nat -> l <> [] -> lastn n l <> [].
Proof.
  intros Hn Hl Hnil. apply (f_equal (@length A)) in Hnil.
  rewrite lastn_length in Hnil. cbn in Hnil.
  destruct l; [contradiction | cbn [length] in Hnil; lia].
Qed.

Section FilterMore.

Import MovementFilter.

Lemma set_buffer_size_window_ok (n : Z) (f : t) :
  window_ok f -> window_ok (set_buffer_size n f).
Proof.
  intros Hok. unfold set_buffer_size.
  destruct (Z.eqb_spec (Z.max 1 n) (_buffer_size f)); [exact Hok|].
  unfold window_ok, deque. cbn [buffer _buffer_size]. split; [lia|].
  rewrite lastn_lastn, lastn_length. apply Nat.le_min_l.
Qed.

Lemma set_buffer_size_In (n : Z) (f : t) (p : Pos) :
  In p (buffer (set_buffer_size n f)) -> In p (buffer f).
Proof.
  unfold set_buffer_size.
  destruct (Z.eqb_spec (Z.max 1 n) (_buffer_size f)); [tauto|].
  unfold deque. cbn [buffer]. intros H. now apply lastn_In, lastn_In in H.
Qed.

Lemma add_position_In (q : option Pos) (f : t) (p : Pos) :
  In p (buffer (add_position q f)) -> In p (buffer f) \/ q = Some p.
Proof.
  destruct q as [q|]; cbn [add_position]; [|tauto].
  unfold deque. cbn [buffer]. intros H. apply lastn_In in H.
  apply in_app_or in H. destruct H as [H|[->|[]]]; [now left | now right].
Qed.

(** X3.  Whatever run of insertions and resizes a filter goes through,
    its window is at least 1, its buffer never holds more samples than the
    window, and every sample in the buffer is one that was offered to it:
    the filter drops samples but never invents or duplicates one out of
    nothing.  An absent position changes nothing. *)
Theorem filter_window_invariant (size : Z) (ops : list FilterOp) :
  let f := fold_left filter_step ops (__init__ size) in
  1 <= _buffer_size f
  /\ (length (buffer f) <= Z.to_nat (_buffer_size f))%nat
  /\ (forall p : Pos, In p (buffer f) -> offered ops p)
  /\ add_position None f = f.
Proof.
  cbv zeta.
  assert (Hgen : forall ops0 f0,
             window_ok f0 ->
             window_ok (fold_left filter_step ops0 f0)
             /\ forall p, In p (buffer (fold_left filter_step ops0 f0)) ->
                          In p (buffer f0) \/ offered ops0 p).
  { induction ops0 as [|op ops0 IH]; intros f0 Hok; [cbn; tauto|].
    cbn [fold_left].
    assert (Hok1 : window_ok (filter_step f0 op)).
    { destruct op; cbn [filter_step];
        [now apply add_position_window_ok | now apply set_buffer_size_window_ok]. }
    destruct (IH _ Hok1) as (Hw & Hin). split; [exact Hw|].
    intros p Hp. destruct (Hin p Hp) as [H|H]; [|right; now right].
    destruct op as [q|n]; cbn [filter_step] in H.
    - apply add_position_In in H. destruct H as [H| ->]; [now left|].
      right. now left.
    - left. now apply set_buffer_size_In in H. }
  destruct (Hgen ops (__init__ size) (init_window_ok size)) as ((H1 & H2) & H3).
  repeat split; try assumption.
  intros p Hp. destruct (H3 p Hp) as [[]|H]. exact H.
Qed.

Lemma filtered_in_box (f : t) (lo hi : Pos) :
  buffer f <> [] ->
  (forall p, In p (buffer f) -> in_box lo hi p) ->
  exists p : Pos, get_filtered_position f = Some p /\ in_box lo hi p.
Proof.
  intros Hne Hin. rewrite (get_filtered_position_mean f Hne).
  eexists. split; [reflexivity|]. unfold in_box. cbn [fst snd].
  assert (Hlen : forall g : Pos -> Z, length (map g (buffer f)) = length (buffer f))
    by (intros; apply length_map).
  split.
  - rewrite <- (Hlen fst). apply py_round_between, mean_between.
    + intros Hnil. apply Hne. now apply map_eq_nil in Hnil.
    + intros x Hx. apply in_map_iff in Hx. destruct Hx as (p & <- & Hp).
      exact (proj1 (Hin p Hp)).
  - rewrite <- (Hlen snd). apply py_round_between, mean_between.
    + intros Hnil. apply Hne. now apply map_eq_nil in Hnil.
    + intros x Hx. apply in_map_iff in Hx. destruct Hx as (p & <- & Hp).
      exact (proj2 (Hin p Hp)).
Qed.

Lemma filtered_constant (f : t) (q : Pos) :
  buffer f <> [] -> (forall p, In p (buffer f) -> p = q) ->
  get_filtered_position f = Some q.
Proof.
  intros Hne Hall.
  destruct (filtered_in_box f q q Hne) as (p & Hp & (Hx & Hy)).
  { intros p Hp. rewrite (Hall p Hp). unfold in_box. lia. }
  rewrite Hp. f_equal. destruct p, q. cbn [fst snd] in *. f_equal; lia.
Qed.

(** X4.  The filtered position is absent exactly for an empty buffer;
    otherwise it lies in every box that contains the buffered samples, so
    smoothing never puts the aim outside the range of the recent readings,
    and a buffer of one repeated point is filtered to that point. *)
Theorem filtered_position_within_samples (f : MovementFilter.t) (lo hi : Pos) :
  (get_filtered_position f = None <-> buffer f = [])
  /\ (buffer f <> [] ->
      (forall p, In p (buffer f) -> in_box lo hi p) ->
      exists p : Pos, get_filtered_position f = Some p /\ in_box lo hi p)
  /\ (forall q : Pos,
        buffer f <> [] -> (forall p, In p (buffer f) -> p = q) ->
        get_filtered_position f = Some q).
Proof.
  split; [|split].
  - unfold get_filtered_position. destruct (buffer f); split; intros H;
      try reflexivity; discriminate.
  - apply filtered_in_box.
  - intros q. apply filtered_constant.
Qed.

End FilterMore.

(** The three samples of the averaging test lie in the box from (0, 0) to
    (9, 12), and so does their filtered position. *)
Lemma filtered_position_within_samples_witness :
  MovementFilter.buffer demo_filter <> []
  /\ (forall p, In p (MovementFilter.buffer demo_filter) -> in_box (0, 0) (9, 12) p)
  /\ exists p : Z * Z,
       MovementFilter.get_filtered_position demo_filter = Some p
       /\ in_box (0, 0) (9, 12) p.
Proof.
  assert (H1 : MovementFilter.buffer demo_filter <> []) by discriminate.
  assert (H2 : forall p, In p (MovementFilter.buffer demo_filter) ->
                         in_box (0, 0) (9, 12) p).
  { intros p Hp. cbn in Hp. unfold in_box.
    destruct Hp as [<-|[<-|[<-|[]]]]; cbn; lia. }
  split; [exact H1|]. split; [exact H2|].
  exact (proj1 (proj2 (filtered_position_within_samples demo_filter (0, 0) (9, 12)))
           H1 H2).
Defined.

(** * Further properties: hand_tracker.py *)

Section CalibrationMore.

Import Calibration.

Lemma clamp_range (q : Q) : (0.5 <= Qmax 0.5 (Qmin 2.0 q) <= 2.0)%Q.
Proof.
  split; [apply Q.le_max_l|].
  apply Q.max_lub; [discriminate | apply Q.le_min_l].
Qed.

Lemma clamp_inside (q : Q) : (0.5 <= q <= 2.0)%Q -> (Qmax 0.5 (Qmin 2.0 q) == q)%Q.
Proof.
  intros [Hlo Hhi].
  rewrite (Q.min_r 2.0 q Hhi). now apply Q.max_r.
Qed.

Lemma adjust_sensitivity_bounds (l : list Pos) (h : Z) (c : Calibration.t) :
  l <> [] -> (0.5 <= fst (adjust_sensitivity (Some l) h c) <= 2.0)%Q.
Proof.
  intros Hne. destruct l as [|wrist rest]; [contradiction|].
  cbn [adjust_sensitivity fst]. apply clamp_range.
Qed.

(** X5.  The sensitivity computed from a hand lies between 0.5 and 2.0
    for every wrist height and every screen height, zero and negative ones
    included; it is stored in the calibration, does not depend on the value
    stored before, and equals wrist_y / base when that quotient is within the
    range.  Without landmarks the stored value is returned and nothing
    changes.  The deadzone is never touched. *)
Theorem adjust_sensitivity_clamped (landmarks : option (list Pos))
  (screen_height : Z) (c : Calibration.t) :
  let r := adjust_sensitivity landmarks screen_height c in
  sensitivity (snd r) = fst r
  /\ deadzone (snd r) = deadzone c
  /\ (truthy landmarks = false -> r = (sensitivity c, c))
  /\ (truthy landmarks = true ->
      (0.5 <= fst r <= 2.0)%Q
      /\ (forall c' : Calibration.t,
             fst (adjust_sensitivity landmarks screen_height c') = fst r))
  /\ (forall (wrist : Pos) (rest : list Pos),
        landmarks = Some (wrist :: rest) ->
        let base := Z.max 1 (screen_height / 2) in
        base <= 2 * snd wrist -> snd wrist <= 2 * base ->
        (fst r == inject_Z (snd wrist) / inject_Z base)%Q).
Proof.
  cbv zeta. destruct landmarks as [[|wrist rest]|]; cbn [adjust_sensitivity truthy fst snd sensitivity deadzone].
  - repeat split; try discriminate.
  - split; [reflexivity|]. split; [reflexivity|]. split; [discriminate|].
    split; [intros _; split; [apply clamp_range | reflexivity]|].
    intros wrist0 rest0 Heq Hlo Hhi. injection Heq as <- <-.
    apply clamp_inside.
    set (base := Z.max 1 (screen_height / 2)) in *.
    assert (Hb : 1 <= base) by apply Z.le_max_l.
    assert (Hbq : (0 < inject_Z base)%Q).
    { change 0%Q with (inject_Z 0). rewrite <- Zlt_Qlt. lia. }
    split.
    + apply Qle_shift_div_l; [exact Hbq|].
      assert (H2 : (inject_Z base <= 2 * inject_Z (snd wrist))%Q).
      { change 2%Q with (inject_Z 2). rewrite <- inject_Z_mult. now rewrite <- Zle_Qle. }
      lra.
    + apply Qle_shift_div_r; [exact Hbq|].
      assert (H2 : (inject_Z (snd wrist) <= 2 * inject_Z base)%Q).
      { change 2%Q with (inject_Z 2). rewrite <- inject_Z_mult. now rewrite <- Zle_Qle. }
      lra.
  - repeat split; try discriminate.
Qed.

End CalibrationMore.

Section HandTrackerMore.

Import HandTracker.

Lemma is_extended_total (l : list Pos) (tip_idx pip_idx : nat) :
  (tip_idx < length l)%nat -> (pip_idx < length l)%nat ->
  exists b : bool, is_extended l tip_idx pip_idx = Some b.
Proof.
  intros Ht Hp. unfold is_extended.
  destruct (nth_error l tip_idx) eqn:H1; [|apply nth_error_None in H1; lia].
  destruct (nth_error l pip_idx) eqn:H2; [|apply nth_error_None in H2; lia].
  eexists. reflexivity.
Qed.

Lemma fingers_up_total (l : list Pos) :
  (21 <= length l)%nat -> exists f : Fingers, _fingers_up l = Some f.
Proof.
  intros Hlen. unfold _fingers_up.
  destruct (is_extended_total l 8 6) as (i & ->); [lia | lia |].
  destruct (is_extended_total l 12 10) as (m & ->); [lia | lia |].
  destruct (is_extended_total l 16 14) as (r & ->); [lia | lia |].
  destruct (is_extended_total l 20 18) as (p & ->); [lia | lia |].
  eexists. reflexivity.
Qed.

(** X6.  Gesture detection never fails with an index error, whatever the
    number of landmarks: with fewer than 21 (or none) all three gestures
    are off, otherwise the four finger states are read and at most one of
    shoot, reload and pause is reported.  The shoot entry is the answer of
    is_shooting_gesture, and with the index up and the others folded it is
    shoot alone. *)
Theorem detect_gestures_total_exclusive (landmarks : option (list Pos)) :
  exists g : Gestures,
    detect_gestures landmarks = Some g
    /\ is_shooting_gesture landmarks = Some (shoot g)
    /\ exclusive g
    /\ ((forall l, landmarks = Some l -> (length l < 21)%nat) -> g = no_gestures)
    /\ (forall l f, landmarks = Some l -> (21 <= length l)%nat ->
                    _fingers_up l = Some f ->
                    shoot g = index f && negb (middle f) && negb (ring f) && negb (pinky f)
                    /\ reload g = negb (index f || middle f || ring f || pinky f)
                    /\ pause g = index f && middle f && ring f && pinky f).
Proof.
  unfold exclusive.
  destruct landmarks as [l|].
  - cbn [detect_gestures is_shooting_gesture].
    destruct (negb (truthy (Some l)) || (length l <? 21)%nat) eqn:Hguard.
    + exists no_gestures. cbn [shoot reload pause no_gestures andb].
      do 2 (split; [reflexivity|]). split; [repeat split|].
      split; [reflexivity|].
      intros l0 f Heq Hlen _. injection Heq as <-.
      apply Bool.orb_true_iff in Hguard. destruct Hguard as [Hg|Hg].
      * destruct l; [cbn in Hlen; lia | discriminate].
      * apply Nat.ltb_lt in Hg. lia.
    + apply Bool.orb_false_iff in Hguard. destruct Hguard as [_ Hg].
      apply Nat.ltb_ge in Hg.
      destruct (fingers_up_total l Hg) as (f & Hf). rewrite Hf.
      eexists. split; [reflexivity|]. cbn [shoot reload pause].
      split; [destruct (index f), (middle f), (ring f), (pinky f); reflexivity|].
      split; [destruct (index f), (middle f), (ring f), (pinky f); repeat split|].
      split.
      * intros Hshort. specialize (Hshort l eq_refl). lia.
      * intros l0 f0 Heq _ Hf0. injection Heq as <-.
        rewrite Hf in Hf0. injection Hf0 as <-.
        destruct (index f), (middle f), (ring f), (pinky f); repeat split.
  - exists no_gestures. cbn [detect_gestures is_shooting_gesture shoot reload pause
                              no_gestures andb].
    do 2 (split; [reflexivity|]). split; [repeat split|].
    split; [reflexivity|]. discriminate.
Qed.

Lemma set_buffer_size_size (n : Z) (f : MovementFilter.t) :
  MovementFilter._buffer_size (MovementFilter.set_buffer_size n f) = Z.max 1 n.
Proof.
  unfold MovementFilter.set_buffer_size.
  destruct (Z.eqb_spec (Z.max 1 n) (MovementFilter._buffer_size f)) as [Heq|Hne];
    [now rewrite Heq | reflexivity].
Qed.

Lemma window_for_cases (sens : Q) : In (window_for sens) [3; 4; 5; 7].
Proof.
  unfold window_for.
  destruct (Qle_bool 1.6 sens); [cbn; tauto|].
  destruct (Qle_bool 1.2 sens); [cbn; tauto|].
  destruct (Qle_bool 0.8 sens); cbn; tauto.
Qed.

Lemma settle_cases (dz : Z) (buf : list Pos) (pos : Pos) :
  settle dz buf pos = pos \/ In (settle dz buf pos) buf.
Proof.
  unfold settle. destruct (rev buf) as [|last rest] eqn:Hrev; [now left|].
  destruct (_ && _); [|now left].
  right. apply in_rev. rewrite Hrev. now left.
Qed.

Lemma add_position_nonempty (p : Pos) (f : MovementFilter.t) :
  window_ok f -> MovementFilter.buffer (MovementFilter.add_position (Some p) f) <> [].
Proof.
  intros [Hsz _]. cbn [MovementFilter.add_position MovementFilter.buffer].
  unfold MovementFilter.deque. apply lastn_nonempty; [lia|].
  intros Hnil. apply app_eq_nil in Hnil. destruct Hnil as [_ Hnil]. discriminate.
Qed.

Lemma aim_position_run (l : list Pos) (tip : Pos) (tr : t) :
  nth_error l 8 = Some tip ->
  let sens := fst (Calibration.adjust_sensitivity (Some l) (screen_height tr)
                     (calibration tr)) in
  let f := MovementFilter.set_buffer_size (window_for sens) (filter tr) in
  let pos := settle (Calibration.deadzone (calibration tr)) (MovementFilter.buffer f) tip in
  let f' := MovementFilter.add_position (Some pos) f in
  get_aim_position (Some l) tr
  = Some (MovementFilter.get_filtered_position f',
          mk (screen_width tr) (screen_height tr) f'
            (Calibration.mk sens (Calibration.deadzone (calibration tr)))).
Proof.
  intros Htip. cbv zeta.
  assert (Hlen : (8 < length l)%nat).
  { apply nth_error_Some. rewrite Htip. discriminate. }
  unfold get_aim_position.
  destruct l as [|wrist rest]; [cbn in Hlen; lia|].
  cbn [truthy negb orb].
  destruct (Nat.leb_spec (length (wrist :: rest)) 8) as [Hle|_]; [lia|].
  cbn [Calibration.adjust_sensitivity fst snd Calibration.deadzone].
  rewrite Htip. reflexivity.
Qed.

(** X7.  Asking for the aim never fails with an index error.  With no
    hand or at most 8 landmarks the answer is None and the tracker is left
    exactly as it was.  With the index tip present, an aim is returned, the
    smoothing window becomes 3, 4, 5 or 7, the sensitivity is within 0.5 and
    2.0, the buffer respects its window, and the aim lies in every box that
    holds the fingertip and the samples buffered before. *)
Theorem aim_position_guarded (landmarks : option (list Pos)) (tr : HandTracker.t) :
  window_ok (filter tr) ->
  exists (aim : option Pos) (tr' : HandTracker.t),
    get_aim_position landmarks tr = Some (aim, tr')
    /\ window_ok (filter tr')
    /\ screen_width tr' = screen_width tr /\ screen_height tr' = screen_height tr
    /\ Calibration.deadzone (calibration tr') = Calibration.deadzone (calibration tr)
    /\ ((forall l, landmarks = Some l -> (length l <= 8)%nat) -> aim = None /\ tr' = tr)
    /\ (forall l tip, landmarks = Some l -> nth_error l 8 = Some tip ->
          In (MovementFilter._buffer_size (filter tr')) [3; 4; 5; 7]
          /\ (0.5 <= Calibration.sensitivity (calibration tr') <= 2.0)%Q
          /\ exists p : Pos,
               aim = Some p
               /\ forall lo hi : Pos,
                    (forall q, In q (MovementFilter.buffer (filter tr)) -> in_box lo hi q) ->
                    in_box lo hi tip -> in_box lo hi p).
Proof.
  intros Hok.
  destruct landmarks as [l|].
  - destruct (nth_error l 8) as [tip|] eqn:Htip.
    + rewrite (aim_position_run l tip tr Htip).
      set (sens := fst (Calibration.adjust_sensitivity (Some l) (screen_height tr)
                          (calibration tr))).
      set (f := MovementFilter.set_buffer_size (window_for sens) (filter tr)).
      set (pos := settle (Calibration.deadzone (calibration tr))
                    (MovementFilter.buffer f) tip).
      set (f' := MovementFilter.add_position (Some pos) f).
      assert (Hokf : window_ok f) by now apply set_buffer_size_window_ok.
      assert (Hokf' : window_ok f') by now apply add_position_window_ok.
      eexists. eexists. split; [reflexivity|].
      cbn [filter screen_width screen_height calibration Calibration.deadzone
           Calibration.sensitivity].
      split; [exact Hokf'|]. split; [reflexivity|]. split; [reflexivity|].
      split; [reflexivity|]. split.
      * intros Hshort. specialize (Hshort l eq_refl).
        assert (8 < length l)%nat by (apply nth_error_Some; rewrite Htip; discriminate).
        lia.
      * intros l0 tip0 Heq Htip0. injection Heq as <-.
        rewrite Htip in Htip0. injection Htip0 as <-.
        split.
        { change (MovementFilter._buffer_size f') with (MovementFilter._buffer_size f).
          unfold f. rewrite set_buffer_size_size.
          pose proof (window_for_cases sens) as Hw.
          cbn in Hw. cbn. lia. }
        split.
        { apply adjust_sensitivity_bounds. intros ->. discriminate. }
        pose proof (add_position_nonempty pos f Hokf) as Hne.
        destruct (MovementFilter.get_filtered_position f') as [p|] eqn:Hp.
        2:{ exfalso. apply Hne. unfold MovementFilter.get_filtered_position in Hp.
            fold f' in Hp |- *. destruct (MovementFilter.buffer f'); [reflexivity|discriminate]. }
        exists p. split; [reflexivity|].
        intros lo hi Hbuf Htipbox.
        destruct (filtered_in_box f' lo hi Hne) as (p' & Hp' & Hbox).
        { intros q Hq. apply add_position_In in Hq. destruct Hq as [Hq|Hq].
          - apply Hbuf. now apply set_buffer_size_In in Hq.
          - injection Hq as <-. unfold pos.
            destruct (settle_cases (Calibration.deadzone (calibration tr))
                        (MovementFilter.buffer f) tip) as [-> | Hin]; [exact Htipbox|].
            apply Hbuf. now apply set_buffer_size_In in Hin. }
        rewrite Hp in Hp'. injection Hp' as <-. exact Hbox.
    + assert (Hlen : (length l <= 8)%nat) by now apply nth_error_None.
      exists None, tr. split.
      { unfold get_aim_position.
        destruct (Nat.leb_spec (length l) 8) as [_|Hgt]; [|lia].
        now rewrite Bool.orb_true_r. }
      split; [exact Hok|]. do 3 (split; [reflexivity|]).
      split; [intros _; split; reflexivity|].
      intros l0 tip0 Heq Htip0. injection Heq as <-. congruence.
  - exists None, tr. split; [reflexivity|].
    split; [exact Hok|]. do 3 (split; [reflexivity|]).
    split; [intros _; split; reflexivity | discriminate].
Qed.

(** X8.  A filter settled on one point holds the aim there: when every
    buffered sample is the point q and the fingertip is closer than the
    deadzone to q on both axes, the aim returned is exactly q, and the
    filter is still settled on q afterwards, so the jitter never adds up. *)
Theorem aim_deadzone_sticky (l : list Pos) (tip q : Pos) (tr : HandTracker.t) :
  window_ok (filter tr) ->
  nth_error l 8 = Some tip ->
  MovementFilter.buffer (filter tr) <> [] ->
  (forall p, In p (MovementFilter.buffer (filter tr)) -> p = q) ->
  Z.abs (fst tip - fst q) < Calibration.deadzone (calibration tr) ->
  Z.abs (snd tip - snd q) < Calibration.deadzone (calibration tr) ->
  exists tr' : HandTracker.t,
    get_aim_position (Some l) tr = Some (Some q, tr')
    /\ MovementFilter.buffer (filter tr') <> []
    /\ (forall p, In p (MovementFilter.buffer (filter tr')) -> p = q)
    /\ window_ok (filter tr')
    /\ Calibration.deadzone (calibration tr') = Calibration.deadzone (calibration tr).
Proof.
  intros Hok Htip Hne Hall Hdx Hdy.
  rewrite (aim_position_run l tip tr Htip).
  set (sens := fst (Calibration.adjust_sensitivity (Some l) (screen_height tr)
                      (calibration tr))).
  set (f := MovementFilter.set_buffer_size (window_for sens) (filter tr)).
  assert (Hokf : window_ok f) by now apply set_buffer_size_window_ok.
  assert (Hallf : forall p, In p (MovementFilter.buffer f) -> p = q).
  { intros p Hp. apply Hall. now apply set_buffer_size_In in Hp. }
  assert (Hnef : MovementFilter.buffer f <> []).
  { unfold f, MovementFilter.set_buffer_size.
    destruct (Z.eqb_spec (Z.max 1 (window_for sens))
                (MovementFilter._buffer_size (filter tr))); [exact Hne|].
    unfold MovementFilter.deque. cbn [MovementFilter.buffer].
    apply lastn_nonempty; [lia|]. apply lastn_nonempty; [lia | exact Hne]. }
  assert (Hpos : settle (Calibration.deadzone (calibration tr))
                   (MovementFilter.buffer f) tip = q).
  { unfold settle. destruct (rev (MovementFilter.buffer f)) as [|last rest] eqn:Hrev.
    - exfalso. apply Hnef. apply (f_equal (@rev Pos)) in Hrev.
      now rewrite rev_involutive in Hrev.
    - assert (Hlast : last = q).
      { apply Hallf, in_rev. rewrite Hrev. now left. }
      subst last.
      destruct (Z.ltb_spec (Z.abs (fst tip - fst q)) (Calibration.deadzone (calibration tr)));
        [|lia].
      destruct (Z.ltb_spec (Z.abs (snd tip - snd q)) (Calibration.deadzone (calibration tr)));
        [|lia].
      reflexivity. }
  rewrite Hpos.
  set (f' := MovementFilter.add_position (Some q) f).
  assert (Hnef' : MovementFilter.buffer f' <> []) by now apply add_position_nonempty.
  assert (Hallf' : forall p, In p (MovementFilter.buffer f') -> p = q).
  { intros p Hp. apply add_position_In in Hp. destruct Hp as [Hp|Hp];
      [now apply Hallf | now injection Hp]. }
  eexists. split; [rewrite (filtered_constant f' q Hnef' Hallf'); reflexivity|].
  cbn [filter calibration Calibration.deadzone].
  split; [exact Hnef'|]. split; [exact Hallf'|].
  split; [now apply add_position_window_ok | reflexivity].
Qed.

End HandTrackerMore.

Lemma demo_tracker_window_ok : window_ok (HandTracker.filter demo_tracker).
Proof. unfold window_ok. cbn. split; lia. Defined.

(** The pointing hand seen by the settled tracker. *)
Lemma aim_position_guarded_witness :
  window_ok (HandTracker.filter demo_tracker)
  /\ exists (aim : option (Z * Z)) (tr' : HandTracker.t),
       HandTracker.get_aim_position (Some demo_hand) demo_tracker = Some (aim, tr')
       /\ window_ok (HandTracker.filter tr').
Proof.
  split; [exact demo_tracker_window_ok|].
  destruct (aim_position_guarded (Some demo_hand) demo_tracker demo_tracker_window_ok)
    as (aim & tr' & Hrun & Hok & _).
  exists aim, tr'. split; [exact Hrun | exact Hok].
Defined.

(** The fingertip of the pointing hand is 2 pixels from the point the
    filter has settled on, inside the deadzone of 5. *)
Lemma aim_deadzone_sticky_witness :
  exists tr' : HandTracker.t,
    HandTracker.get_aim_position (Some demo_hand) demo_tracker
    = Some (Some (100, 100), tr').
Proof.
  destruct (aim_deadzone_sticky demo_hand (102, 98) (100, 100) demo_tracker
              demo_tracker_window_ok eq_refl) as (tr' & Hrun & _).
  - discriminate.
  - intros p Hp. cbn in Hp. destruct Hp as [<-|[<-|[]]]; reflexivity.
  - cbn. lia.
  - cbn. lia.
  - exists tr'. exact Hrun.
Defined.

(** * Further properties: the mouse fallback *)

(** X9.  With the mouse fallback the loop sees no gesture at all: the
    tracker reports no landmarks, so the loop never asks it for gestures,
    and a frame in which Space is not held fires nothing, starts no reload
    and toggles no pause, whichever mouse buttons are down.  The engine is
    left as it was, the two gesture latches cleared, and neither the clock
    nor the mixer is touched. *)
Theorem mouse_buttons_reach_nothing (E : Env) (dt : Z) (evs : list Event)
  (pressed : bool * bool * bool) (mouse_pos : Z * Z) (m : MouseTracker.t)
  (s : GameEngine.t) (w : World) :
  GameEngine.shoot_key_held s = false ->
  let fr := poll_mouse dt evs pressed mouse_pos m in
  g_shoot fr = false /\ g_reload fr = false /\ g_pause fr = false
  /\ GameEngine.run_input E fr s w
     = Some (GameEngine.set_reload_gesture_active false
               (GameEngine.set_pause_gesture_active false s), w).
Proof.
  intros Hkey. cbv zeta. unfold poll_mouse.
  cbn [MouseTracker.get_hand_landmarks truthy shoot reload pause no_gestures
       g_shoot g_reload g_pause].
  do 3 (split; [reflexivity|]).
  unfold GameEngine.run_input.
  cbn [g_shoot g_reload g_pause aim_pos].
  unfold bind at 1. unfold ret at 1. unfold bind at 1. unfold ret at 1.
  destruct s. cbn in Hkey. subst. reflexivity.
Qed.

(** The fresh engine, the left button down. *)
Lemma mouse_buttons_reach_nothing_witness :
  GameEngine.shoot_key_held demo_engine = false
  /\ GameEngine.run_input demo_env
       (poll_mouse 16 [] (true, false, false) (10, 20) (MouseTracker.mk 1280 720))
       demo_engine demo_world
     = Some (GameEngine.set_reload_gesture_active false
               (GameEngine.set_pause_gesture_active false demo_engine), demo_world).
Proof.
  split; [reflexivity|].
  exact (proj2 (proj2 (proj2
           (mouse_buttons_reach_nothing demo_env 16 [] (true, false, false) (10, 20)
              (MouseTracker.mk 1280 720) demo_engine demo_world eq_refl)))).
Defined.

(** X10.  On a screen of at least one pixel each way the mouse fallback
    always gives an aim, the aim is a pixel of the screen wherever the
    pointer is reported, and a pointer already on the screen is passed
    through unchanged. *)
Theorem mouse_aim_on_screen (mouse_pos : Z * Z) (m : MouseTracker.t) :
  1 <= MouseTracker.screen_width m -> 1 <= MouseTracker.screen_height m ->
  exists p : Z * Z,
    MouseTracker.get_aim_position mouse_pos m = Some p
    /\ on_screen (MouseTracker.screen_width m) (MouseTracker.screen_height m) p
    /\ (on_screen (MouseTracker.screen_width m) (MouseTracker.screen_height m) mouse_pos ->
        p = mouse_pos)
    /\ MouseTracker.get_aim_position p m = Some p.
Proof.
  intros Hw Hh. destruct mouse_pos as [x y].
  unfold MouseTracker.get_aim_position, on_screen, in_box. cbn [fst snd].
  eexists. split; [reflexivity|]. cbn [fst snd].
  split; [lia|]. split.
  - intros [Hx Hy]. f_equal; lia.
  - f_equal. f_equal; lia.
Qed.

Lemma mouse_aim_on_screen_witness :
  1 <= MouseTracker.screen_width (MouseTracker.mk 640 480)
  /\ 1 <= MouseTracker.screen_height (MouseTracker.mk 640 480)
  /\ MouseTracker.get_aim_position (700, -3) (MouseTracker.mk 640 480) = Some (639, 0).
Proof.
  assert (H1 : 1 <= MouseTracker.screen_width (MouseTracker.mk 640 480)) by (cbn; lia).
  assert (H2 : 1 <= MouseTracker.screen_height (MouseTracker.mk 640 480)) by (cbn; lia).
  split; [exact H1|]. split; [exact H2|].
  destruct (mouse_aim_on_screen (700, -3) (MouseTracker.mk 640 480) H1 H2)
    as (p & Hp & _).
  reflexivity.
Defined.

(** * Further properties: difficulty profiles and the reload timer *)

Lemma Qle_bool_false (a b : Q) : Qle_bool a b = false <-> (b < a)%Q.
Proof.
  split.
  - intros H. apply Qnot_le_lt. intros Hle. apply Qle_bool_iff in Hle. congruence.
  - intros H. destruct (Qle_bool a b) eqn:Hb; [|reflexivity].
    apply Qle_bool_iff in Hb. exfalso. now apply (Qlt_not_le b a).
Qed.

Section Profiles.

Import GameEngine.


Lemma profile_cases (level : string) :
  exists cfg : Profile,
    match difficulty_levels level with Some c => c | None => Normal end = cfg
    /\ (cfg = Easy \/ cfg = Normal \/ cfg = Hard).
Proof.
  unfold difficulty_levels.
  destruct (String.eqb level "Easy"); [eexists; split; [reflexivity | tauto]|].
  destruct (String.eqb level "Normal"); [eexists; split; [reflexivity | tauto]|].
  destruct (String.eqb level "Hard"); eexists; split; try reflexivity; tauto.
Qed.


End Profiles.

Section ReloadTimer.

Import GameEngine.

Variable E : Env.

Lemma start_reload_run (s : t) (w : World) :
  reloading s = false -> ammo s < max_ammo s ->
  _start_reload E s w
  = Some (set_reload_started_at (clock E (clock_reads w) * 1000.0) (set_reloading true s),
          clock_read w).
Proof.
  intros Hr Ha. unfold _start_reload. rewrite Hr.
  destruct (Z.ltb_spec (ammo s) (max_ammo s)) as [_|Hge]; [|lia].
  reflexivity.
Qed.

Lemma start_reload_skip (s : t) (w : World) :
  reloading s = true \/ max_ammo s <= ammo s -> _start_reload E s w = Some (s, w).
Proof.
  intros H. unfold _start_reload.
  destruct (reloading s); [reflexivity|].
  destruct H as [H|H]; [discriminate|].
  destruct (Z.ltb_spec (ammo s) (max_ammo s)) as [Hlt|_]; [lia | reflexivity].
Qed.





End ReloadTimer.


(** * Further properties: invariants of a session *)

Lemma py_round_nonneg (q : Q) : (0 <= q)%Q -> 0 <= py_round q.
Proof.
  intros Hq.
  assert (Hf : 0 <= Qfloor q).
  { change 0 with (Qfloor (inject_Z 0)). now apply Qfloor_resp_le. }
  unfold py_round. destruct (q - inject_Z (Qfloor q) ?= 1 # 2)%Q; [|lia|lia].
  destruct (Z.even (Qfloor q)); lia.
Qed.

Lemma list_remove_Forall {A : Type} (P : A -> Prop) (same : A -> bool) (l l' : list A) :
  list_remove same l = Some l' -> Forall P l -> Forall P l'.
Proof.
  revert l'. induction l as [|a l IH]; intros l' Hrm Hall; [discriminate|].
  cbn [list_remove] in Hrm. inversion Hall as [|? ? Ha Hl]; subst.
  destruct (same a); [injection Hrm as <-; exact Hl|].
  destruct (list_remove same l) as [r|]; [|discriminate].
  injection Hrm as <-. constructor; [exact Ha | now apply IH].
Qed.

Lemma clamp01 (q : Q) : (0 <= Qmax 0.0 (Qmin 1.0 q) <= 1)%Q.
Proof.
  split.
  - apply Qle_trans with 0.0%Q; [discriminate | apply Q.le_max_l].
  - apply Q.max_lub; [discriminate|].
    apply Qle_trans with 1.0%Q; [apply Q.le_min_l | discriminate].
Qed.

Section SessionSteps.

Import GameEngine.

Variable E : Env.

Lemma advances_refl (s : t) : sound s -> advances s s.
Proof.
  intros H. unfold advances. split; [exact H|]. split; [lia|].
  split; [reflexivity|]. split; [reflexivity | tauto].
Qed.

Lemma advances_trans (a b c : t) : advances a b -> advances b c -> advances a c.
Proof.
  unfold advances. intros (_ & H1 & H2 & H3 & H7) (Hs & H4 & H5 & H6 & H8).
  split; [exact Hs|]. split; [lia|]. split; [congruence|]. split; [congruence | tauto].
Qed.

(** A write that leaves the five attributes of [sound] and the screen alone. *)
Lemma advances_same (s s' : t) :
  sound s ->
  spawn_weights s' = spawn_weights s -> points_mul s' = points_mul s ->
  targets s' = targets s -> master_volume s' = master_volume s ->
  score s' = score s -> screen_width s' = screen_width s ->
  screen_height s' = screen_height s -> running s' = running s ->
  advances s s'.
Proof.
  unfold advances, sound. intros (H1 & H2 & H3 & H4 & H5) E1 E2 E3 E4 E5 E6 E7 E8.
  rewrite E1, E2, E3, E4, E5, E6, E7, E8.
  repeat split; try assumption; try lia; try tauto; apply H4.
Qed.

Lemma stop_advances (s : t) : sound s -> advances s (set_running false s).
Proof.
  intros (H1 & H2 & H3 & H4 & H5). unfold advances, sound.
  destruct s; cbn [spawn_weights points_mul targets master_volume score screen_width
                   screen_height running set_running] in *.
  repeat split; try assumption; try lia; try tauto; apply H4.
Qed.

Ltac same_step s := apply advances_same; [assumption | destruct s; reflexivity ..].

Lemma change_volume_advances (delta : Q) (s : t) :
  sound s -> advances s (_change_volume delta s).
Proof.
  intros (H1 & H2 & H3 & H4 & H5). pose proof (clamp01 (master_volume s + delta)) as Hv.
  unfold advances, sound, _change_volume.
  destruct s; cbn [spawn_weights points_mul targets master_volume score screen_width
                   screen_height running set_master_volume] in *.
  repeat split; try assumption; try lia; try tauto; apply Hv.
Qed.

Lemma set_volume_at_advances (mx : Z) (s : t) :
  sound s -> advances s (set_volume_at mx s).
Proof.
  intros (H1 & H2 & H3 & H4 & H5). unfold set_volume_at.
  set (frac := (inject_Z (mx - rx (vol_bar s)) / inject_Z (rw (vol_bar s)))%Q).
  pose proof (clamp01 frac) as Hv. clearbody frac.
  unfold advances, sound.
  destruct s; cbn [spawn_weights points_mul targets master_volume score screen_width
                   screen_height running set_master_volume] in *.
  repeat split; try assumption; try lia; try tauto; apply Hv.
Qed.

Lemma apply_difficulty_advances (level : string) (s : t) :
  sound s -> advances s (_apply_difficulty level s).
Proof.
  intros (H1 & H2 & H3 & H4 & H5).
  destruct (profile_cases level) as (cfg & Hcfg & Hcases).
  unfold _apply_difficulty. rewrite Hcfg. unfold advances, sound.
  destruct s; cbn [spawn_weights points_mul targets master_volume score screen_width
                   screen_height running set_spawn_interval set_spawn_interval_min set_max_ammo
                   set_ammo set_shot_cooldown_ms set_target_speed_mul set_target_size_mul
                   set_points_mul set_spawn_weights max_ammo] in *.
  destruct Hcases as [-> | [-> | ->]];
    (repeat split; try assumption; try lia; try tauto; try apply H4; discriminate).
Qed.

Lemma start_reload_advances (s : t) (w : World) :
  sound s -> ensures (_start_reload E s) w (fun s' _ => advances s s').
Proof.
  intros Hs. eapply ensures_mono; [apply start_reload_shape|]. cbv beta.
  intros s' w' [->|(_ & _ & ->)]; [now apply advances_refl | same_step s].
Qed.

Lemma update_reload_advances (s : t) (w : World) :
  sound s -> ensures (_update_reload E s) w (fun s' _ => advances s s').
Proof.
  intros Hs. eapply ensures_mono; [apply update_reload_shape|]. cbv beta.
  intros s' w' [->|(_ & _ & ->)]; [now apply advances_refl | same_step s].
Qed.

Lemma check_hit_body_advances (aim : Pos) (tg : Target.t) (s : t) (w : World) :
  sound s -> 0 <= Target.points tg ->
  ensures (check_hit_body E aim tg s) w (fun s' _ => advances s s').
Proof.
  intros Hs Hp. unfold check_hit_body.
  destruct (Target.check_collision tg aim); [|apply ensures_ret; now apply advances_refl].
  cbv zeta. apply ensures_bind.
  destruct (list_remove _ _) as [ts|] eqn:Hrm; cbn [lift]; [|apply ensures_raise].
  apply ensures_ret.
  unfold _spawn_explosion, _spawn_shockwave, _spawn_tracer. repeat mstep.
  destruct Hs as (H1 & H2 & H3 & H4 & H5).
  assert (Hts : Forall (fun tg0 => 0 <= Target.points tg0) ts).
  { apply (list_remove_Forall _ _ _ _ Hrm). destruct s; exact H3. }
  clear Hrm. unfold advances, sound.
  destruct s; cbn [spawn_weights points_mul targets master_volume score screen_width
                   screen_height running set_score set_targets set_explosions set_shockwaves
                   set_tracers explosions shockwaves tracers] in *.
  repeat split; try assumption; try lia; try tauto; apply H4.
Qed.

Lemma check_hit_advances (aim_pos : option Pos) (s : t) (w : World) :
  sound s -> ensures (check_hit E aim_pos s) w (fun s' _ => advances s s').
Proof.
  intros Hs. unfold check_hit.
  destruct aim_pos as [aim|]; [|apply ensures_ret; now apply advances_refl].
  apply (ensures_for_each (check_hit_body E aim) (fun s' _ => advances s s'));
    [|now apply advances_refl].
  intros tg s1 w1 Hin H1.
  eapply ensures_mono; [apply check_hit_body_advances|].
  - apply H1.
  - destruct Hs as (_ & _ & Hall & _). rewrite Forall_forall in Hall. now apply Hall.
  - cbv beta. intros s2 w2 H2. exact (advances_trans _ _ _ H1 H2).
Qed.

Lemma shoot_advances (aim_pos : option Pos) (s : t) (w : World) :
  sound s -> ensures (_shoot E aim_pos s) w (fun s' _ => advances s s').
Proof.
  intros Hs. unfold _shoot. apply ensures_bind. intros ok w1 _.
  destruct ok; cbn [negb]; [|apply ensures_ret; now apply advances_refl].
  apply ensures_bind. intros now w2 _. cbv zeta.
  set (s1 := set_ammo (ammo (set_last_shot_time now s) - 1) (set_last_shot_time now s)).
  assert (H1 : advances s s1) by (subst s1; same_step s).
  clearbody s1.
  apply ensures_bind.
  apply ensures_mono with (P := fun s2 (_ : World) => advances s1 s2).
  { unfold _spawn_muzzle_flash. destruct aim_pos as [aim|].
    - apply ensures_bind. intros now' w3 _. apply ensures_ret.
      destruct H1 as (Hs1 & _). same_step s1.
    - apply ensures_ret. apply advances_refl, H1. }
  cbv beta. intros s2 w3 H2.
  apply ensures_bind. intros u w4 _.
  eapply ensures_mono; [apply check_hit_advances; apply H2|]. cbv beta.
  intros s3 w5 H3. exact (advances_trans _ _ _ (advances_trans _ _ _ H1 H2) H3).
Qed.

Lemma try_shoot_advances (aim_pos : option Pos) (s : t) (w : World) :
  sound s -> ensures (_try_shoot E aim_pos s) w (fun s' _ => advances s s').
Proof.
  intros Hs. unfold _try_shoot.
  destruct (paused s || reloading s); [apply ensures_ret; now apply advances_refl|].
  apply ensures_bind. intros now w1 _.
  destruct (ammo s <=? 0).
  - apply ensures_bind. intros u w2 _. apply ensures_ret. same_step s.
  - destruct (now - last_shot_time s <? shot_cooldown_ms s);
      [apply ensures_ret; now apply advances_refl | now apply shoot_advances].
Qed.

Lemma toggle_options_advances (s : t) : sound s -> advances s (_toggle_options s).
Proof.
  intros Hs. unfold _toggle_options. destruct (negb (show_options s)); same_step s.
Qed.

Lemma handle_options_event_advances (ev : Event) (s : t) (w : World) :
  sound s -> ensures (_handle_options_event ev s) w (fun s' _ => advances s s').
Proof.
  intros Hs.
  assert (Hsound : forall key, ensures (_play_sound key s ;;; ret s) w
                                 (fun s' _ => advances s s')).
  { intros key. apply ensures_bind. intros u w1 _. apply ensures_ret.
    now apply advances_refl. }
  assert (Hmute : advances s (_toggle_mute s)) by (unfold _toggle_mute; same_step s).
  assert (Hdrag : forall b, advances s (set__options_dragging_volume b s))
    by (intros b; same_step s).
  assert (Hbar : forall mx, advances s (set__options_dragging_volume true (set_volume_at mx s))).
  { intros mx. apply advances_trans with (set_volume_at mx s);
      [now apply set_volume_at_advances|].
    pose proof (set_volume_at_advances mx s Hs) as (Hs1 & _).
    set (s1 := set_volume_at mx s) in *. clearbody s1. same_step s1. }
  unfold _handle_options_event.
  destruct ev as [|k|k|b [mx my]|b|[mx my]|]; try destruct k;
    try (apply ensures_ret; first [ now apply advances_refl
                                   | now apply toggle_options_advances
                                   | now apply change_volume_advances
                                   | exact Hmute ]; fail);
    try (apply Hsound; fail).
  - destruct (b =? 1); [|apply ensures_ret; now apply advances_refl].
    repeat match goal with
           | |- ensures (if ?c then _ else _) _ _ => destruct c
           end;
      try (apply Hsound; fail);
      apply ensures_ret;
      first [ now apply advances_refl | now apply toggle_options_advances
            | exact Hmute | apply Hbar ].
  - destruct (b =? 1); apply ensures_ret; [apply Hdrag | now apply advances_refl].
  - destruct (_options_dragging_volume s); apply ensures_ret;
      [now apply set_volume_at_advances | now apply advances_refl].
Qed.

Lemma handle_game_event_advances (ev : Event) (s : t) (w : World) :
  sound s -> ensures (handle_game_event E ev s) w (fun s' _ => advances s s').
Proof.
  intros Hs.
  assert (Hdiff : forall level, advances s (_apply_difficulty level (set_difficulty level s))).
  { intros level. apply advances_trans with (set_difficulty level s); [same_step s|].
    apply apply_difficulty_advances.
    assert (Ha : advances s (set_difficulty level s)) by same_step s. apply Ha. }
  destruct ev as [|k|k|b p|b|p|]; try destruct k; cbn [handle_game_event];
    try (apply ensures_ret;
         first [ now apply advances_refl | now apply toggle_options_advances
               | now apply change_volume_advances | apply Hdiff
               | now apply stop_advances
               | unfold _toggle_pause, _toggle_mute; same_step s ]; fail).
  now apply start_reload_advances.
Qed.

Lemma handle_events_advances (evs : list Event) (s : t) (w : World) :
  sound s -> ensures (_handle_events E evs s) w (fun s' _ => advances s s').
Proof.
  intros Hs. unfold _handle_events.
  apply (ensures_for_each _ (fun s' _ => advances s s')); [|now apply advances_refl].
  intros ev s1 w1 _ H1. destruct (show_options s1).
  - eapply ensures_mono; [apply handle_options_event_advances; apply H1|]. cbv beta.
    intros s2 w2 H2. exact (advances_trans _ _ _ H1 H2).
  - eapply ensures_mono; [apply handle_game_event_advances; apply H1|]. cbv beta.
    intros s2 w2 H2. exact (advances_trans _ _ _ H1 H2).
Qed.

Lemma run_input_advances (fr : Frame) (s : t) (w : World) :
  sound s -> ensures (run_input E fr s) w (fun s' _ => advances s s').
Proof.
  intros Hs. unfold run_input. cbv zeta.
  match goal with
  | |- ensures (bind ?m _) _ _ =>
      match m with
      | context [_start_reload E ?x] => set (sa := x)
      end
  end.
  assert (Ha : advances s sa).
  { subst sa. destruct (g_pause fr); [destruct (pause_gesture_active s); cbn [negb]|];
      [now apply advances_refl | unfold _toggle_pause; same_step s | same_step s]. }
  clearbody sa.
  apply ensures_bind.
  apply ensures_mono with (P := fun sb (_ : World) => advances sa sb).
  { destruct (g_reload fr); [destruct (reload_gesture_active sa); cbn [negb]|].
    - apply ensures_ret. apply advances_refl, Ha.
    - apply ensures_bind.
      eapply ensures_mono; [apply start_reload_advances; apply Ha|]. cbv beta.
      intros s1 w1 H1. apply ensures_ret.
      apply advances_trans with s1; [exact H1|].
      destruct H1 as (Hs1 & _). same_step s1.
    - apply ensures_ret. destruct Ha as (Hsa & _). same_step sa. }
  cbv beta. intros sb wb Hb.
  apply ensures_bind.
  apply ensures_mono with (P := fun sc (_ : World) => advances sb sc).
  { destruct (g_shoot fr); [apply try_shoot_advances; apply Hb|].
    apply ensures_ret. apply advances_refl, Hb. }
  cbv beta. intros sc wc Hc.
  pose proof (advances_trans _ _ _ (advances_trans _ _ _ Ha Hb) Hc) as Hall.
  destruct (shoot_key_held sc).
  - eapply ensures_mono; [apply try_shoot_advances; apply Hc|]. cbv beta.
    intros sd wd Hd. exact (advances_trans _ _ _ Hall Hd).
  - apply ensures_ret. exact Hall.
Qed.

Lemma run_before_world_advances (fr : Frame) (s : t) (w : World) :
  sound s -> ensures (run_before_world E fr s) w (fun s' _ => advances s s').
Proof.
  intros Hs. unfold run_before_world. apply ensures_bind.
  eapply ensures_mono; [now apply handle_events_advances|]. cbv beta.
  intros s1 w1 H1. apply ensures_bind.
  eapply ensures_mono; [apply run_input_advances; apply H1|]. cbv beta.
  intros s2 w2 H2.
  eapply ensures_mono; [apply update_reload_advances; apply H2|]. cbv beta.
  intros s3 w3 H3. exact (advances_trans _ _ _ (advances_trans _ _ _ H1 H2) H3).
Qed.

Lemma target_init_points (x0 y0 : Z) (ttype : string) (bounds0 : Z * Z)
  (speed_mul size_mul pm : Q) (w : World) :
  (0 <= pm)%Q ->
  ensures (Target.__init__ E x0 y0 ttype bounds0 speed_mul size_mul pm) w
    (fun tg _ => 0 <= Target.points tg).
Proof.
  intros Hpm. unfold Target.__init__.
  apply ensures_bind. intros o w1 _. cbv zeta.
  assert (Hk : forall k : Q, (0 <= k)%Q -> 0 <= py_round (k * pm)).
  { intros k Hk. apply py_round_nonneg. now apply Qmult_le_0_compat. }
  destruct (String.eqb ttype "moving").
  - apply ensures_bind. intros u w2 _. apply ensures_bind. intros ang w3 _.
    apply ensures_ret. cbn [Target.points]. apply Hk. discriminate.
  - destruct (String.eqb ttype "small"); apply ensures_ret; cbn [Target.points];
      apply Hk; discriminate.
Qed.

Lemma spawn_target_advances (s : t) (w : World) :
  sound s -> ensures (spawn_target E s) w (fun s' _ => advances s s').
Proof.
  intros Hs. unfold spawn_target.
  apply ensures_bind. intros ttype w1 _.
  apply ensures_bind. intros x w2 _.
  apply ensures_bind. intros y w3 _.
  apply ensures_bind.
  eapply ensures_mono; [apply target_init_points; apply Hs|]. cbv beta.
  intros tg w4 Htg. apply ensures_ret.
  destruct Hs as (H1 & H2 & H3 & H4 & H5). unfold advances, sound.
  assert (Hall : Forall (fun tg0 => 0 <= Target.points tg0) (targets s ++ [tg])).
  { apply Forall_app. split; [exact H3 | now constructor]. }
  destruct s; cbn [spawn_weights points_mul targets master_volume score screen_width
                   screen_height running set_targets] in *.
  repeat split; try assumption; try lia; try tauto; apply H4.
Qed.

Lemma update_points (tg : Target.t) : Target.points (Target.update tg) = Target.points tg.
Proof.
  unfold Target.update. destruct (String.eqb (Target.type tg) "moving"); [|reflexivity].
  destruct (Target.bounds tg) as [bw bh].
  destruct (Target.bounce _ _ _ bw). destruct (Target.bounce _ _ _ bh). reflexivity.
Qed.

Lemma run_world_advances (s : t) (w : World) :
  sound s -> ensures (run_world E s) w (fun s' _ => advances s s').
Proof.
  intros Hs. unfold run_world.
  destruct (negb (paused s)); [|apply ensures_ret; now apply advances_refl].
  cbv zeta. set (s0 := set_spawn_timer (spawn_timer s + 1) s).
  assert (H0 : advances s s0) by (subst s0; same_step s).
  clearbody s0.
  apply ensures_bind.
  apply ensures_mono with (P := fun s1 (_ : World) => advances s0 s1).
  { destruct (spawn_interval s0 <=? spawn_timer s0);
      [|apply ensures_ret; apply advances_refl, H0].
    apply ensures_bind.
    eapply ensures_mono; [apply spawn_target_advances; apply H0|]. cbv beta.
    intros s1 w1 H1. cbv zeta.
    assert (H2 : advances s1 (set_spawn_timer 0 s1)).
    { destruct H1 as (Hs1 & _). same_step s1. }
    set (s2 := set_spawn_timer 0 s1) in *. clearbody s2.
    unfold _maybe_increase_difficulty. apply ensures_bind. intros now w2 _. cbv zeta.
    destruct (negb _); apply ensures_ret.
    - apply advances_trans with s2; [exact (advances_trans _ _ _ H1 H2)|].
      destruct H2 as (Hs2 & _). same_step s2.
    - exact (advances_trans _ _ _ H1 H2). }
  cbv beta. intros s1 w1 H1. apply ensures_ret.
  apply advances_trans with s1; [exact (advances_trans _ _ _ H0 H1)|].
  destruct H1 as ((H1 & H2 & H3 & H4 & H5) & _). unfold advances, sound.
  assert (Hall : Forall (fun tg0 => 0 <= Target.points tg0) (map Target.update (targets s1))).
  { apply Forall_map. eapply Forall_impl; [|exact H3].
    intros tg Htg. cbv beta. now rewrite update_points. }
  destruct s1; cbn [spawn_weights points_mul targets master_volume score screen_width
                    screen_height running set_targets] in *.
  repeat split; try assumption; try lia; try tauto; apply H4.
Qed.

Lemma run_after_world_advances (fr : Frame) (s : t) (w : World) :
  sound s -> ensures (run_after_world E fr s) w (fun s' _ => advances s s').
Proof.
  intros Hs.
  unfold run_after_world, run_effects, _update_explosions, _update_muzzle_flashes,
    _update_shockwaves, _update_tracers.
  repeat mstep. apply advances_same; [assumption | destruct s; reflexivity ..].
Qed.

Lemma run_iteration_advances (fr : Frame) (s : t) (w : World) :
  sound s -> ensures (run_iteration E fr s) w (fun s' _ => advances s s').
Proof.
  intros Hs. unfold run_iteration. apply ensures_bind.
  eapply ensures_mono; [now apply run_before_world_advances|]. cbv beta.
  intros s1 w1 H1. apply ensures_bind.
  eapply ensures_mono; [apply run_world_advances; apply H1|]. cbv beta.
  intros s2 w2 H2.
  eapply ensures_mono; [apply run_after_world_advances; apply H2|]. cbv beta.
  intros s3 w3 H3. exact (advances_trans _ _ _ (advances_trans _ _ _ H1 H2) H3).
Qed.

Lemma perform_advances (op : Op) (s : t) (w : World) :
  sound s -> ensures (perform E op s) w (fun s' _ => advances s s').
Proof.
  intros Hs. destruct op; cbn [perform].
  - now apply try_shoot_advances.
  - now apply shoot_advances.
  - now apply start_reload_advances.
  - now apply update_reload_advances.
  - apply ensures_ret. now apply apply_difficulty_advances.
  - apply ensures_ret. unfold _toggle_pause. same_step s.
  - now apply run_iteration_advances.
Qed.

Lemma init_sound (width height : Z) (audio_ok : bool) (loaded : list string) (w : World) :
  ensures (__init__ E width height audio_ok loaded) w
    (fun s _ => sound s /\ score s = 0 /\ targets s = []
                /\ screen_width s = width /\ screen_height s = height).
Proof.
  unfold __init__. apply ensures_bind. intros start w1 _. apply ensures_ret.
  unfold sound. cbn. repeat split; try discriminate; try lia. constructor.
Qed.

Lemma reachable_sound (s : t) (w : World) : reachable E s w -> sound s.
Proof.
  induction 1 as [width height audio_ok loaded w s w' Hinit | op s w s' w' _ IH Hstep].
  - exact (proj1 (init_sound _ _ _ _ _ _ _ Hinit)).
  - exact (proj1 (perform_advances op s w IH _ _ Hstep)).
Qed.

(** X13.  Over a whole session the score never goes down and is never
    negative: every state reached from the constructor by shots, reloads,
    difficulty changes, pause toggles and frames has a score of at least 0,
    live targets that are all worth 0 points or more and a point multiplier
    that is not negative, and no operation on such a state lowers the
    score. *)
Theorem score_never_drops (s : GameEngine.t) (w : World) :
  reachable E s w ->
  0 <= score s
  /\ (0 <= points_mul s)%Q
  /\ (forall tg, In tg (targets s) -> 0 <= Target.points tg)
  /\ (forall (op : Op) (s' : GameEngine.t) (w' : World),
        perform E op s w = Some (s', w') -> score s <= score s')
  /\ (forall (frames : list Frame) (s' : GameEngine.t) (w' : World),
        run E frames s w = Some (s', w') -> score s <= score s').
Proof.
  intros Hreach. pose proof (reachable_sound s w Hreach) as Hs.
  destruct Hs as (H1 & H2 & H3 & H4 & H5).
  split; [exact H5|]. split; [exact H2|].
  split; [now apply Forall_forall|].
  assert (Hs : sound s) by (repeat split; try assumption; apply H4).
  split.
  - intros op s' w' Hstep. exact (proj1 (proj2 (perform_advances op s w Hs _ _ Hstep))).
  - intros frames. clear Hreach H1 H2 H3 H4 H5. revert s w Hs.
    induction frames as [|fr rest IH]; intros s w Hs s' w' Hrun; cbn [run] in Hrun.
    + injection Hrun as <- <-. lia.
    + destruct (running s); [|injection Hrun as <- <-; lia].
      unfold bind in Hrun.
      destruct (run_iteration E fr s w) as [[s1 w1]|] eqn:Hit; [|discriminate].
      destruct (run_iteration_advances fr s w Hs _ _ Hit) as (Hs1 & Hle & _).
      specialize (IH s1 w1 Hs1 _ _ Hrun). lia.
Qed.

(** X14.  The master volume is a fraction in every state of a session:
    whatever keys are pressed and wherever the volume bar is clicked or
    dragged, it stays between 0 and 1. *)
Theorem volume_stays_fraction (s : GameEngine.t) (w : World) :
  reachable E s w ->
  (0 <= master_volume s <= 1)%Q
  /\ (forall delta : Q, (0 <= master_volume (_change_volume delta s) <= 1)%Q)
  /\ (forall mx : Z, (0 <= master_volume (set_volume_at mx s) <= 1)%Q)
  /\ (forall (evs : list Event) (s' : GameEngine.t) (w' : World),
        _handle_events E evs s w = Some (s', w') -> (0 <= master_volume s' <= 1)%Q).
Proof.
  intros Hreach. pose proof (reachable_sound s w Hreach) as Hs.
  split; [apply Hs|].
  split; [intros delta; apply (change_volume_advances delta s Hs)|].
  split; [intros mx; apply (set_volume_at_advances mx s Hs)|].
  intros evs s' w' Hrun. apply (handle_events_advances evs s w Hs _ _ Hrun).
Qed.

End SessionSteps.

Lemma demo_engine_reachable : reachable demo_env demo_engine (mkWorld 1 0 0 []).
Proof.
  exact (reach_init demo_env 1280 720 true ["shot"; "hit"; "reload"; "dry"]
           demo_world demo_engine (mkWorld 1 0 0 []) demo_engine_init).
Qed.

(** The engine as constructed: its score cannot drop in the frames that
    follow. *)
Lemma score_never_drops_witness :
  reachable demo_env demo_engine (mkWorld 1 0 0 [])
  /\ 0 <= GameEngine.score demo_engine
  /\ (forall (op : Op) (s' : GameEngine.t) (w' : World),
        perform demo_env op demo_engine (mkWorld 1 0 0 []) = Some (s', w') ->
        GameEngine.score demo_engine <= GameEngine.score s').
Proof.
  split; [exact demo_engine_reachable|].
  destruct (score_never_drops demo_env demo_engine (mkWorld 1 0 0 []) demo_engine_reachable)
    as (H0 & _ & _ & Hop & _).
  split; [exact H0 | exact Hop].
Defined.

Lemma volume_stays_fraction_witness :
  reachable demo_env demo_engine (mkWorld 1 0 0 [])
  /\ (0 <= GameEngine.master_volume demo_engine <= 1)%Q
  /\ (0 <= GameEngine.master_volume (GameEngine._change_volume 0.5 demo_engine) <= 1)%Q.
Proof.
  split; [exact demo_engine_reachable|].
  destruct (volume_stays_fraction demo_env demo_engine (mkWorld 1 0 0 [])
              demo_engine_reachable) as (H0 & Hch & _).
  split; [exact H0 | exact (Hch 0.5%Q)].
Defined.

(** * Further properties: a frame always completes *)

Lemma halts_with {A : Type} (m : M A) (w : World) (P : A -> World -> Prop) :
  halts m w -> ensures m w P -> returns m w P.
Proof.
  intros (a & w' & Hrun & _) Hens. exists a, w'. split; [exact Hrun|].
  now apply Hens.
Qed.

Lemma returns_halts {A : Type} (m : M A) (w : World) (P : A -> World -> Prop) :
  returns m w P -> halts m w.
Proof. intros (a & w' & Hrun & _). exists a, w'. now split. Qed.

Ltac hstep E :=
  cbv zeta;
  lazymatch goal with
  | |- returns (ret _) _ _ => apply returns_ret; exact I
  | |- returns (bind (GameEngine._play_sound _ _) _) _ _ =>
      apply returns_bind; eapply returns_eq; [apply play_sound_run|]
  | |- returns (bind (now_ms _) _) _ _ =>
      apply returns_bind; eapply returns_eq; [apply (now_ms_run E)|]
  | |- returns (bind (time_time _) _) _ _ =>
      apply returns_bind; eapply returns_eq; [reflexivity|]
  | |- returns (if ?b then _ else _) _ _ => destruct b
  end.

Section FramesComplete.

Import GameEngine.

Variable E : Env.

Lemma start_reload_runs (s : t) (w : World) :
  distinct_objects s w ->
  returns (_start_reload E s) w (fun s' w' => distinct_objects s' w').
Proof.
  intros Hd. apply halts_with.
  - exact (returns_halts _ _ _ (start_reload_returns E s w)).
  - apply (still_distinct _ s w); [|apply keeps_start_reload | exact Hd].
    eapply ensures_mono; [apply start_reload_frame|]. cbv beta. tauto.
Qed.

Lemma update_reload_runs (s : t) (w : World) :
  distinct_objects s w ->
  returns (_update_reload E s) w (fun s' w' => distinct_objects s' w').
Proof.
  intros Hd. apply halts_with.
  - exact (returns_halts _ _ _ (update_reload_returns E s w)).
  - apply (still_distinct _ s w); [|apply keeps_update_reload | exact Hd].
    eapply ensures_mono; [apply update_reload_frame|]. cbv beta. tauto.
Qed.

Lemma check_hit_halts (aim_pos : option Pos) (s : t) (w : World) :
  NoDup (map Target.oid (targets s)) -> halts (check_hit E aim_pos s) w.
Proof.
  intros Hnd. unfold halts, check_hit. destruct aim_pos as [aim|]; [|hstep E].
  eapply returns_mono; [exact (check_hit_loop E aim (targets s) [] s w eq_refl Hnd)|].
  intros; exact I.
Qed.

Lemma shoot_halts (aim_pos : option Pos) (s : t) (w : World) :
  NoDup (map Target.oid (targets s)) -> halts (_shoot E aim_pos s) w.
Proof.
  intros Hnd. unfold halts, _shoot. apply returns_bind.
  apply returns_mono with (P := fun (_ : bool) (_ : World) => True).
  { unfold _can_shoot. repeat hstep E. }
  intros ok w1 _. destruct ok; cbn [negb]; [|hstep E].
  hstep E. cbv zeta. apply returns_bind.
  apply returns_mono with (P := fun s1 (_ : World) => targets s1 = targets s).
  { unfold _spawn_muzzle_flash. destruct aim_pos as [aim|].
    - apply returns_bind. eapply returns_eq; [apply (now_ms_run E)|].
      apply returns_ret. destruct s; reflexivity.
    - apply returns_ret. destruct s; reflexivity. }
  intros s1 w2 Hts. hstep E. apply check_hit_halts. now rewrite Hts.
Qed.

Lemma try_shoot_runs (aim_pos : option Pos) (s : t) (w : World) :
  distinct_objects s w ->
  returns (_try_shoot E aim_pos s) w (fun s' w' => distinct_objects s' w').
Proof.
  intros Hd. apply halts_with; [|now apply try_shoot_distinct].
  unfold halts, _try_shoot.
  destruct (paused s || reloading s); [hstep E|].
  hstep E. destruct (ammo s <=? 0); [repeat hstep E|].
  destruct (_ <? _); [hstep E|].
  apply shoot_halts. apply Hd.
Qed.

Lemma handle_options_event_halts (ev : Event) (s : t) (w : World) :
  halts (_handle_options_event ev s) w.
Proof.
  unfold halts, _handle_options_event.
  destruct ev as [|k|k|b [mx my]|b|[mx my]|]; try destruct k; repeat hstep E.
Qed.

Lemma handle_game_event_halts (ev : Event) (s : t) (w : World) :
  halts (handle_game_event E ev s) w.
Proof.
  unfold halts.
  destruct ev as [|k|k|b p|b|p|]; try destruct k; cbn [handle_game_event];
    try (hstep E; fail).
  exact (returns_halts _ _ _ (start_reload_returns E s w)).
Qed.

Lemma handle_events_runs (evs : list Event) (s : t) (w : World) :
  distinct_objects s w ->
  returns (_handle_events E evs s) w (fun s' w' => distinct_objects s' w').
Proof.
  intros Hd. apply halts_with.
  - unfold halts, _handle_events.
    apply (returns_for_each _ (fun (_ : t) (_ : World) => True)); [|exact I].
    intros ev s1 w1 _ _. destruct (show_options s1);
      [apply handle_options_event_halts | apply handle_game_event_halts].
  - apply (still_distinct _ s w); [|apply keeps_handle_events | exact Hd].
    eapply ensures_mono; [apply handle_events_frame|]. cbv beta. tauto.
Qed.

Lemma run_input_runs (fr : Frame) (s : t) (w : World) :
  distinct_objects s w ->
  returns (run_input E fr s) w (fun s' w' => distinct_objects s' w').
Proof.
  intros Hd. unfold run_input. cbv zeta.
  match goal with
  | |- returns (bind ?m _) _ _ =>
      match m with
      | context [_start_reload E ?x] => set (sa := x)
      end
  end.
  assert (Ha : distinct_objects sa w).
  { subst sa. destruct (g_pause fr); [destruct (pause_gesture_active s)|];
      unfold _toggle_pause, distinct_objects in *; cbn; exact Hd. }
  clearbody sa. apply returns_bind.
  apply returns_mono with (P := fun sb wb => distinct_objects sb wb).
  { destruct (g_reload fr); [destruct (reload_gesture_active sa); cbn [negb]|].
    - now apply returns_ret.
    - apply returns_bind.
      eapply returns_mono; [now apply start_reload_runs|]. cbv beta.
      intros s1 w1 H1. apply returns_ret.
      unfold distinct_objects in *. cbn. exact H1.
    - apply returns_ret. unfold distinct_objects in *. cbn. exact Ha. }
  intros sb wb Hb. apply returns_bind.
  apply returns_mono with (P := fun sc wc => distinct_objects sc wc).
  { destruct (g_shoot fr); [now apply try_shoot_runs | now apply returns_ret]. }
  intros sc wc Hc.
  destruct (shoot_key_held sc); [now apply try_shoot_runs | now apply returns_ret].
Qed.

Lemma run_before_world_runs (fr : Frame) (s : t) (w : World) :
  distinct_objects s w ->
  returns (run_before_world E fr s) w (fun s' w' => distinct_objects s' w').
Proof.
  intros Hd. unfold run_before_world. apply returns_bind.
  eapply returns_mono; [now apply handle_events_runs|]. cbv beta.
  intros s1 w1 H1. apply returns_bind.
  eapply returns_mono; [now apply run_input_runs|]. cbv beta.
  intros s2 w2 H2. now apply update_reload_runs.
Qed.

Lemma run_world_halts (s : t) (w : World) :
  spawn_weights s <> [] -> roomy s -> halts (run_world E s) w.
Proof.
  intros Hw (Hrw & Hrh). unfold halts, run_world.
  destruct (negb (paused s)); [|hstep E].
  cbv zeta. set (s0 := set_spawn_timer (spawn_timer s + 1) s).
  assert (Hw0 : spawn_weights s0 <> []) by (subst s0; destruct s; exact Hw).
  assert (Hrw0 : 100 <= screen_width s0) by (subst s0; destruct s; exact Hrw).
  assert (Hrh0 : 100 <= screen_height s0) by (subst s0; destruct s; exact Hrh).
  clearbody s0. apply returns_bind.
  apply returns_mono with (P := fun (_ : t) (_ : World) => True);
    [|intros; hstep E].
  destruct (spawn_interval s0 <=? spawn_timer s0); [|hstep E].
  destruct (spawn_target_returns E s0 w Hw0 Hrw0 Hrh0) as (tg & w1 & Hrun & _).
  apply returns_bind. eapply returns_eq; [exact Hrun|]. cbv zeta.
  destruct (maybe_increase_difficulty_run E
              (set_spawn_timer 0 (set_targets (targets s0 ++ [tg]) s0)) w1)
    as (s2 & Hrun2 & _).
  eapply returns_eq; [exact Hrun2 | exact I].
Qed.

Lemma run_after_world_halts (fr : Frame) (s : t) (w : World) :
  distinct_objects s w -> halts (run_after_world E fr s) w.
Proof.
  intros (_ & Hx & Hs & Hr). unfold halts, run_after_world.
  apply returns_bind.
  eapply returns_eq; [exact (run_effects_run E (dt_ms fr) s w (proj1 Hx) (proj1 Hs) (proj1 Hr))|].
  match goal with
  | |- returns _ ?w1 _ =>
      match goal with
      | |- context [_draw_hud E ?s1] => destruct (draw_returns E s1 w1) as (w2 & Hdraw)
      end
  end.
  eapply returns_eq; [exact Hdraw | exact I].
Qed.

Lemma advances_roomy (s s' : t) : advances s s' -> roomy s -> roomy s'.
Proof.
  intros (_ & _ & Hw & Hh & _) (H1 & H2). unfold roomy. rewrite Hw, Hh. now split.
Qed.

Lemma run_iteration_runs (fr : Frame) (s : t) (w : World) :
  distinct_objects s w -> sound s -> roomy s ->
  returns (run_iteration E fr s) w
    (fun s' w' => distinct_objects s' w' /\ advances s s').
Proof.
  intros Hd Hs Hr. apply halts_with.
  - unfold halts, run_iteration. apply returns_bind.
    eapply returns_mono.
    { eapply ensures_returns;
        [exact (run_before_world_advances E fr s w Hs)
        | exact (run_before_world_runs fr s w Hd)]. }
    cbv beta. intros s1 w1 (H1 & Hd1). apply returns_bind.
    eapply returns_mono.
    { eapply ensures_returns; [exact (run_world_advances E s1 w1 (proj1 H1))|].
      apply (halts_with _ _ (fun s' w' => distinct_objects s' w'));
        [apply run_world_halts; [apply H1 | exact (advances_roomy _ _ H1 Hr)]
        | now apply run_world_distinct]. }
    cbv beta. intros s2 w2 (H2 & Hd2).
    now apply run_after_world_halts.
  - intros s' w' Hrun. split.
    + exact (run_iteration_distinct E fr s w Hd s' w' Hrun).
    + exact (run_iteration_advances E fr s w Hs s' w' Hrun).
Qed.

(** X15.  On a screen of at least 100 x 100 pixels the game logic of the
    loop never raises (the drawing and the tracker are outside the
    embedding): from every state of a session, whatever events, gestures,
    aim points and frame times arrive and whatever the clock and the
    random module answer, each frame runs to its end.  No removal misses
    its object, no weighted choice finds an empty table and no random
    range is empty; the states passed through are again states of the
    session, on a screen of the same size. *)
Theorem frames_never_raise (s : GameEngine.t) (w : World) (frames : list Frame) :
  reachable E s w -> roomy s ->
  exists (s' : GameEngine.t) (w' : World),
    run E frames s w = Some (s', w')
    /\ reachable E s' w'
    /\ screen_width s' = screen_width s /\ screen_height s' = screen_height s.
Proof.
  revert s w. induction frames as [|fr rest IH]; intros s w Hreach Hroomy.
  - exists s, w. cbn [run]. repeat split. exact Hreach.
  - cbn [run]. destruct (running s); [|exists s, w; repeat split; exact Hreach].
    destruct (run_iteration_runs fr s w (reachable_distinct E s w Hreach)
                (reachable_sound E s w Hreach) Hroomy)
      as (s1 & w1 & Hrun & _ & Hadv).
    assert (Hreach1 : reachable E s1 w1).
    { exact (reach_step E (Op_frame fr) s w s1 w1 Hreach Hrun). }
    destruct (IH s1 w1 Hreach1 (advances_roomy _ _ Hadv Hroomy))
      as (s' & w' & Hrest & Hreach' & Hw' & Hh').
    exists s', w'. unfold bind. rewrite Hrun.
    split; [exact Hrest|]. split; [exact Hreach'|].
    destruct Hadv as (_ & _ & Hw1 & Hh1 & _). split; congruence.
Qed.

End FramesComplete.

(** The constructed engine of 1280 x 720 runs a frame with a shot. *)
Lemma frames_never_raise_witness :
  reachable demo_env demo_engine (mkWorld 1 0 0 [])
  /\ roomy demo_engine
  /\ exists (s' : GameEngine.t) (w' : World),
       GameEngine.run demo_env
         [mkFrame 16 [KEYDOWN K_SPACE] true false false (Some (105, 100))]
         demo_engine (mkWorld 1 0 0 [])
       = Some (s', w').
Proof.
  assert (Hroomy : roomy demo_engine) by (unfold roomy; cbn; lia).
  split; [exact demo_engine_reachable|]. split; [exact Hroomy|].
  destruct (frames_never_raise demo_env demo_engine (mkWorld 1 0 0 [])
              [mkFrame 16 [KEYDOWN K_SPACE] true false false (Some (105, 100))]
              demo_engine_reachable Hroomy) as (s' & w' & Hrun & _).
  exists s', w'. exact Hrun.
Defined.

(** * Further properties: spawning *)

Section SpawnMore.

Import GameEngine.

Variable E : Env.

Lemma weighted_walk_In (r : Q) (items : list (string * Q)) :
  forall (acc : Q) (name : string),
    weighted_walk r acc items = Some name -> In name (map fst items).
Proof.
  induction items as [|[n wt] rest IH]; intros acc name Hwalk; [discriminate|].
  cbn [weighted_walk] in Hwalk. cbn [map fst].
  destruct (Qle_bool r (acc + wt)).
  - injection Hwalk as <-. now left.
  - right. exact (IH _ _ Hwalk).
Qed.

Lemma weighted_choice_In (s : t) (w : World) (name : string) (w' : World) :
  _weighted_choice E s w = Some (name, w') -> In name (map fst (spawn_weights s)).
Proof.
  unfold _weighted_choice, bind, random_random.
  destruct (weighted_walk _ 0 (spawn_weights s)) as [n|] eqn:Hwalk.
  - intros Heq. injection Heq as <- _. exact (weighted_walk_In _ _ _ _ Hwalk).
  - destruct (rev (spawn_weights s)) as [|[n wt] rest] eqn:Hrev; [discriminate|].
    intros Heq. injection Heq as <- _.
    apply (in_map fst (spawn_weights s) (n, wt)). apply in_rev. rewrite Hrev. now left.
Qed.

Lemma target_init_fields (x0 y0 : Z) (ttype : string) (bounds0 : Z * Z)
  (speed_mul size_mul pm : Q) (w : World) :
  ensures (Target.__init__ E x0 y0 ttype bounds0 speed_mul size_mul pm) w
    (fun tg _ => Target.type tg = ttype /\ Target.bounds tg = bounds0
                 /\ Target.x tg = inject_Z x0 /\ Target.y tg = inject_Z y0
                 /\ 8 <= Target.radius tg).
Proof.
  unfold Target.__init__. apply ensures_bind. intros o w1 _. cbv zeta.
  destruct (String.eqb ttype "moving").
  - apply ensures_bind. intros u w2 _. apply ensures_bind. intros ang w3 _.
    apply ensures_ret. cbn. repeat split. apply Z.le_max_l.
  - destruct (String.eqb ttype "small"); apply ensures_ret; cbn; repeat split;
      apply Z.le_max_l.
Qed.

Lemma keeps_played_init (x0 y0 : Z) (ttype : string) (bounds0 : Z * Z)
  (speed_mul size_mul pm : Q) (w : World) :
  ensures (Target.__init__ E x0 y0 ttype bounds0 speed_mul size_mul pm) w
    (fun _ w' => played w' = played w).
Proof.
  unfold Target.__init__, bind, new_oid, random_uniform, random_random, ret.
  intros tg w'.
  destruct (String.eqb ttype "moving"); [|destruct (String.eqb ttype "small")];
    intros Heq; injection Heq as _ <-; reflexivity.
Qed.

Lemma randint_run (a b : Z) (w : World) :
  a <= b ->
  random_randint E a b w
  = Some (a + rand_below E (rng_calls w) (b - a + 1),
          mkWorld (clock_reads w) (S (rng_calls w)) (next_oid w) (played w)).
Proof.
  intros Hab. unfold random_randint.
  destruct (Z.ltb_spec b a); [lia | reflexivity].
Qed.

Lemma randint_empty (a b : Z) (w : World) : b < a -> random_randint E a b w = None.
Proof.
  intros Hab. unfold random_randint. destruct (Z.ltb_spec b a); [reflexivity | lia].
Qed.

(** X16.  Spawning raises when the weight table is empty, and on a screen
    narrower or lower than 100 pixels, where the inset of 50 pixels leaves
    no place to draw from.  On a larger screen with weights it appends
    exactly one target at the end of the list and changes nothing else; the
    target is a fresh object of a type named in the table, bounded by the
    screen, with a radius of at least 8, at integer coordinates that lie at
    least 50 pixels inside the screen when the random module answers within
    its ranges. *)
Theorem spawn_target_placement (s : GameEngine.t) (w : World) :
  (spawn_weights s = [] -> spawn_target E s w = None)
  /\ (screen_width s < 100 \/ screen_height s < 100 -> spawn_target E s w = None)
  /\ (spawn_weights s <> [] -> roomy s ->
      exists (tg : Target.t) (w' : World) (x0 y0 : Z),
        spawn_target E s w = Some (set_targets (targets s ++ [tg]) s, w')
        /\ In (Target.type tg) (map fst (spawn_weights s))
        /\ Target.bounds tg = (screen_width s, screen_height s)
        /\ 8 <= Target.radius tg
        /\ Target.oid tg = next_oid w
        /\ clock_reads w' = clock_reads w /\ played w' = played w
        /\ Target.x tg = inject_Z x0 /\ Target.y tg = inject_Z y0
        /\ (fair_dice E ->
            50 <= x0 <= screen_width s - 50 /\ 50 <= y0 <= screen_height s - 50)).
Proof.
  split; [|split].
  - intros Hnil. unfold spawn_target, _weighted_choice, bind, random_random.
    rewrite Hnil. reflexivity.
  - intros Hsmall. unfold spawn_target. unfold bind at 1.
    destruct (_weighted_choice E s w) as [[name w1]|]; [|reflexivity].
    unfold bind at 1.
    destruct (Z.lt_ge_cases (screen_width s) 100) as [Hw|Hw].
    + rewrite randint_empty by lia. reflexivity.
    + rewrite randint_run by lia. unfold bind at 1.
      rewrite randint_empty; [reflexivity|]. destruct Hsmall; lia.
  - intros Hne (Hw & Hh). unfold spawn_target.
    destruct (weighted_choice_returns E s w Hne) as (name & Hname).
    pose proof (weighted_choice_In s w name _ Hname) as Hin.
    unfold bind at 1. rewrite Hname.
    unfold bind at 1. rewrite randint_run by lia. cbn [rng_calls clock_reads next_oid played].
    unfold bind at 1. rewrite randint_run by lia. cbn [rng_calls clock_reads next_oid played].
    unfold bind.
    match goal with
    | |- context [Target.__init__ E ?a ?b ?c ?d ?e ?f ?g ?w1] =>
        destruct (target_init_returns E a b c d e f g w1) as (tg & w' & Hinit & Hoid & Hclock);
        pose proof (target_init_fields a b c d e f g w1 tg w' Hinit)
          as (Hty & Hbd & Hx & Hy & Hrad);
        pose proof (keeps_played_init a b c d e f g w1 tg w' Hinit) as Hplayed
    end.
    rewrite Hinit. eexists tg, w', _, _.
    split; [reflexivity|]. split; [now rewrite Hty|]. split; [exact Hbd|].
    split; [exact Hrad|]. split; [exact Hoid|]. split; [exact Hclock|].
    split; [exact Hplayed|]. split; [exact Hx|]. split; [exact Hy|].
    intros Hfair.
    pose proof (Hfair (S (rng_calls w)) (screen_width s - 50 - 50 + 1)) as Hdx.
    pose proof (Hfair (S (S (rng_calls w))) (screen_height s - 50 - 50 + 1)) as Hdy.
    lia.
Qed.

End SpawnMore.

(** * Further properties: the effects *)

Section EffectsMore.

Import GameEngine.

Variable E : Env.

Lemma swept_tracers_live (dt : Z) (l : list Tracer.t) (tr : Tracer.t) :
  In tr (swept_tracers dt l) -> 0 < Tracer.life tr.
Proof.
  unfold swept_tracers. intros Hin. apply filter_In in Hin. destruct Hin as [_ Hlive].
  unfold tracer_done in Hlive. apply Bool.negb_true_iff, Z.leb_gt in Hlive. exact Hlive.
Qed.

Lemma swept_shockwaves_live (dt : Z) (l : list Shockwave.t) (sw : Shockwave.t) :
  In sw (swept_shockwaves dt l) ->
  (Shockwave.r sw < Shockwave.max_r sw)%Q /\ 0 < Shockwave.life sw.
Proof.
  unfold swept_shockwaves. intros Hin. apply filter_In in Hin. destruct Hin as [_ Hlive].
  unfold shockwave_done in Hlive.
  apply Bool.negb_true_iff, Bool.orb_false_iff in Hlive. destruct Hlive as [Hr Hl].
  split; [now apply Qle_bool_false | now apply Z.leb_gt].
Qed.

Lemma swept_explosions_live (dt : Z) (l : list Explosion.t) (ex : Explosion.t) :
  In ex (swept_explosions dt l) ->
  Explosion.particles ex <> []
  /\ forall p, In p (Explosion.particles ex) -> 0 < Particle.life p.
Proof.
  unfold swept_explosions. intros Hin. apply filter_In in Hin. destruct Hin as [Hmap Hlive].
  split.
  - intros Hnil. unfold explosion_done in Hlive. rewrite Hnil in Hlive. discriminate.
  - apply in_map_iff in Hmap. destruct Hmap as (ex0 & <- & _).
    intros p Hp. cbn [advance_explosion Explosion.particles] in Hp.
    apply filter_In in Hp. destruct Hp as [_ Hp]. now apply Z.ltb_lt.
Qed.

Lemma filter_map_length {A : Type} (keep : A -> bool) (adv : A -> A) (l : list A) :
  (length (filter keep (map adv l)) <= length l)%nat.
Proof.
  rewrite <- (length_map adv l). apply filter_length_le.
Qed.

(** X17.  After the effects block of a frame no dead effect is left:
    every tracer that remains has life left, every shockwave is below its
    maximum radius with life left, every explosion has at least one
    particle and only particles with life left, and every muzzle flash ends
    later than the clock reading of the block.  The block creates nothing
    (no list grows), reads the clock once, and leaves the targets, the
    score and the magazine alone.  The lists of effects hold distinct
    objects, as they do throughout a session. *)
Theorem effects_block_leaves_live_only (dt : Z) (s : GameEngine.t) (w : World) :
  NoDup (map Explosion.oid (explosions s)) ->
  NoDup (map Shockwave.oid (shockwaves s)) ->
  NoDup (map Tracer.oid (tracers s)) ->
  exists s' : GameEngine.t,
    run_effects E dt s w = Some (s', clock_read w)
    /\ (forall tr, In tr (tracers s') -> 0 < Tracer.life tr)
    /\ (forall sw, In sw (shockwaves s') ->
          (Shockwave.r sw < Shockwave.max_r sw)%Q /\ 0 < Shockwave.life sw)
    /\ (forall ex, In ex (explosions s') ->
          Explosion.particles ex <> []
          /\ forall p, In p (Explosion.particles ex) -> 0 < Particle.life p)
    /\ (forall m, In m (muzzle_flashes s') ->
          next_now_ms E w < MuzzleFlash.end_ m /\ In m (muzzle_flashes s))
    /\ (length (tracers s') <= length (tracers s))%nat
    /\ (length (shockwaves s') <= length (shockwaves s))%nat
    /\ (length (explosions s') <= length (explosions s))%nat
    /\ (length (muzzle_flashes s') <= length (muzzle_flashes s))%nat
    /\ targets s' = targets s /\ score s' = score s /\ ammo s' = ammo s
    /\ reloading s' = reloading s /\ paused s' = paused s.
Proof.
  intros Hx Hs Ht. rewrite (run_effects_run E dt s w Hx Hs Ht).
  eexists. split; [reflexivity|].
  destruct s; cbn [tracers shockwaves explosions muzzle_flashes targets score ammo
                   reloading paused set_tracers set_shockwaves set_muzzle_flashes
                   set_explosions] in *.
  split; [intros tr; apply swept_tracers_live|].
  split; [intros sw; apply swept_shockwaves_live|].
  split; [intros ex; apply swept_explosions_live|].
  split.
  { intros m Hm. unfold swept_flashes in Hm. apply filter_In in Hm.
    destruct Hm as [Hin Hlive]. split; [now apply Z.ltb_lt | exact Hin]. }
  split; [apply filter_map_length|]. split; [apply filter_map_length|].
  split; [apply filter_map_length|]. split; [apply filter_length_le|].
  repeat split.
Qed.

Lemma swept_tracers_cons (dt : Z) (tr : Tracer.t) (l : list Tracer.t) :
  swept_tracers dt (tr :: l)
  = if 0 <? Tracer.life tr - dt
    then advance_tracer dt tr :: swept_tracers dt l
    else swept_tracers dt l.
Proof.
  unfold swept_tracers. cbn [map filter]. unfold tracer_done at 1.
  cbn [advance_tracer Tracer.life].
  destruct (Z.leb_spec (Tracer.life tr - dt) 0);
    destruct (Z.ltb_spec 0 (Tracer.life tr - dt)); try lia; reflexivity.
Qed.

Lemma swept_tracers_add (dt1 dt2 : Z) (l : list Tracer.t) :
  0 <= dt2 ->
  swept_tracers dt2 (swept_tracers dt1 l) = swept_tracers (dt1 + dt2) l.
Proof.
  intros Hdt. induction l as [|tr l IH]; [reflexivity|].
  rewrite (swept_tracers_cons dt1), (swept_tracers_cons (dt1 + dt2)).
  destruct (Z.ltb_spec 0 (Tracer.life tr - dt1)) as [Hlive|Hdead];
    destruct (Z.ltb_spec 0 (Tracer.life tr - (dt1 + dt2))) as [Hlive2|Hdead2];
    try lia.
  - rewrite swept_tracers_cons. cbn [advance_tracer Tracer.life].
    destruct (Z.ltb_spec 0 (Tracer.life tr - dt1 - dt2)); [|lia].
    rewrite IH. f_equal. unfold advance_tracer.
    cbn [Tracer.oid Tracer.start Tracer.end_ Tracer.life Tracer.max_life].
    f_equal. lia.
  - rewrite swept_tracers_cons. cbn [advance_tracer Tracer.life].
    destruct (Z.ltb_spec 0 (Tracer.life tr - dt1 - dt2)); [lia|]. exact IH.
  - exact IH.
Qed.

Lemma swept_tracers_NoDup (dt : Z) (l : list Tracer.t) :
  NoDup (map Tracer.oid l) -> NoDup (map Tracer.oid (swept_tracers dt l)).
Proof.
  intros Hnd. unfold swept_tracers.
  assert (Hfb : fresh_below (S (list_max (map Tracer.oid l))) (map Tracer.oid l)).
  { split; [exact Hnd|]. intros o Ho.
    pose proof (proj1 (list_max_le (map Tracer.oid l) (list_max (map Tracer.oid l)))
                  (Nat.le_refl _)) as Hall.
    rewrite Forall_forall in Hall. specialize (Hall o Ho). lia. }
  apply (fresh_below_swept Tracer.oid (advance_tracer dt)
           (fun a => negb (tracer_done a)) _ l (fun a => eq_refl) Hfb).
Qed.

(** X18.  The life of a tracer depends on the time that has passed, not
    on the frames it is cut into: ageing the tracers by one frame and then
    by a second one of non-negative length leaves exactly the engine that
    a single frame of the summed length leaves.  None of the calls reads
    the clock or plays a cue. *)
Theorem tracers_age_additively (dt1 dt2 : Z) (s : GameEngine.t) (w : World) :
  NoDup (map Tracer.oid (tracers s)) -> 0 <= dt2 ->
  exists s1 s2 : GameEngine.t,
    _update_tracers dt1 s w = Some (s1, w)
    /\ _update_tracers dt2 s1 w = Some (s2, w)
    /\ _update_tracers (dt1 + dt2) s w = Some (s2, w).
Proof.
  intros Hnd Hdt.
  exists (set_tracers (swept_tracers dt1 (tracers s)) s),
         (set_tracers (swept_tracers (dt1 + dt2) (tracers s)) s).
  split; [now apply update_tracers_run|]. split.
  - rewrite update_tracers_run.
    + destruct s; cbn [tracers set_tracers]. now rewrite swept_tracers_add.
    + destruct s; cbn [tracers set_tracers] in *. now apply swept_tracers_NoDup.
  - now apply update_tracers_run.
Qed.

Lemma aged_shockwave_state (dts : list Z) :
  forall sw : Shockwave.t,
    Shockwave.life (aged_shockwave dts sw) = Shockwave.life sw - sumZ dts
    /\ (Shockwave.r (aged_shockwave dts sw)
        == Shockwave.r sw + 180.0 * (inject_Z (sumZ dts) / 1000.0))%Q
    /\ Shockwave.max_r (aged_shockwave dts sw) = Shockwave.max_r sw
    /\ Shockwave.oid (aged_shockwave dts sw) = Shockwave.oid sw.
Proof.
  unfold aged_shockwave.
  induction dts as [|dt dts IH]; intros sw; cbn [fold_left sumZ].
  - split; [lia|]. split; [|split; reflexivity]. unfold Qdiv. ring.
  - destruct (IH (advance_shockwave dt sw)) as (Hl & Hr & Hm & Ho).
    cbn [advance_shockwave Shockwave.life Shockwave.r Shockwave.max_r Shockwave.oid]
      in Hl, Hr, Hm, Ho.
    split; [rewrite Hl; lia|]. split; [|split; assumption].
    rewrite Hr, inject_Z_plus. unfold Qdiv. ring.
Qed.

(** X19.  A shockwave is spawned with radius 8, maximum radius 90 and 350
    ms of life, and each frame adds 0.18 pixels per millisecond.  So after
    any frames it has 350 ms less the time passed, it is due for removal
    exactly when 350 ms or more have passed, and until then its radius
    is below 71: the test against the maximum radius never decides. *)
Theorem shockwave_dies_by_life (x y : Z) (c : Z * Z * Z) (s : GameEngine.t) (w : World)
  (dts : list Z) :
  exists (sw0 : Shockwave.t) (w' : World),
    _spawn_shockwave x y c s w = Some (set_shockwaves (shockwaves s ++ [sw0]) s, w')
    /\ Shockwave.oid sw0 = next_oid w
    /\ Shockwave.life (aged_shockwave dts sw0) = 350 - sumZ dts
    /\ (Shockwave.r (aged_shockwave dts sw0)
        == 8 + 180 * (inject_Z (sumZ dts) / 1000))%Q
    /\ (shockwave_done (aged_shockwave dts sw0) = true <-> 350 <= sumZ dts)
    /\ (shockwave_done (aged_shockwave dts sw0) = false ->
        (Shockwave.r (aged_shockwave dts sw0) < 71)%Q).
Proof.
  eexists. eexists. split; [reflexivity|]. cbn [Shockwave.oid].
  split; [reflexivity|].
  match goal with
  | |- context [aged_shockwave dts ?sw] =>
      destruct (aged_shockwave_state dts sw) as (Hl & Hr & Hm & _);
      set (a := aged_shockwave dts sw) in *
  end.
  cbn [Shockwave.life Shockwave.r Shockwave.max_r] in Hl, Hr, Hm.
  assert (Hr' : (Shockwave.r a == 8 + 180 * (inject_Z (sumZ dts) / 1000))%Q).
  { rewrite Hr.
    assert (H8 : (8.0 == 8)%Q) by reflexivity.
    assert (H180 : (180.0 == 180)%Q) by reflexivity.
    assert (H1000 : (1000.0 == 1000)%Q) by reflexivity.
    rewrite H8, H180, H1000. reflexivity. }
  split; [exact Hl|]. split; [exact Hr'|].
  assert (Hdone : shockwave_done a = true <-> 350 <= sumZ dts).
  { unfold shockwave_done. rewrite Hm, Hl. split.
    - intros Hd. apply Bool.orb_true_iff in Hd. destruct Hd as [Hd|Hd].
      + apply Qle_bool_iff in Hd. rewrite Hr' in Hd.
        rewrite Zle_Qle. unfold Qdiv in Hd.
        assert (Hinv : (/ 1000 == 1 # 1000)%Q) by reflexivity.
        rewrite Hinv in Hd. change (inject_Z 350) with 350%Q. lra.
      + apply Z.leb_le in Hd. lia.
    - intros Hle. apply Bool.orb_true_iff. right. apply Z.leb_le. lia. }
  split; [exact Hdone|].
  intros Hnot. rewrite Hr'.
  assert (Hlt : sumZ dts < 350).
  { destruct (Z.lt_ge_cases (sumZ dts) 350) as [Hlt|Hge]; [exact Hlt|].
    apply Hdone in Hge. congruence. }
  rewrite Zlt_Qlt in Hlt. change (inject_Z 350) with 350%Q in Hlt.
  unfold Qdiv.
  assert (Hinv : (/ 1000 == 1 # 1000)%Q) by reflexivity.
  rewrite Hinv. lra.
Qed.

End EffectsMore.

Lemma effects_block_leaves_live_only_witness :
  NoDup (map Explosion.oid (GameEngine.explosions demo_paused_engine))
  /\ NoDup (map Shockwave.oid (GameEngine.shockwaves demo_paused_engine))
  /\ NoDup (map Tracer.oid (GameEngine.tracers demo_paused_engine))
  /\ exists s' : GameEngine.t,
       GameEngine.run_effects demo_env 120 demo_paused_engine demo_world_6
       = Some (s', clock_read demo_world_6)
       /\ forall tr, In tr (GameEngine.tracers s') -> 0 < Tracer.life tr.
Proof.
  assert (H1 : NoDup (map Explosion.oid (GameEngine.explosions demo_paused_engine)))
    by (cbn; repeat constructor; intros []).
  assert (H2 : NoDup (map Shockwave.oid (GameEngine.shockwaves demo_paused_engine)))
    by (cbn; repeat constructor; intros []).
  assert (H3 : NoDup (map Tracer.oid (GameEngine.tracers demo_paused_engine)))
    by (cbn; repeat constructor; intros []).
  split; [exact H1|]. split; [exact H2|]. split; [exact H3|].
  destruct (effects_block_leaves_live_only demo_env 120 demo_paused_engine demo_world_6
              H1 H2 H3) as (s' & Hrun & Htr & _).
  exists s'. split; [exact Hrun | exact Htr].
Defined.

(** The tracer of the paused scene has 120 ms of life: two frames of 50
    and 30 ms leave what one frame of 80 ms leaves. *)
Lemma tracers_age_additively_witness :
  NoDup (map Tracer.oid (GameEngine.tracers demo_paused_engine))
  /\ 0 <= 30
  /\ exists s1 s2 : GameEngine.t,
       GameEngine._update_tracers 50 demo_paused_engine demo_world_6 = Some (s1, demo_world_6)
       /\ GameEngine._update_tracers 30 s1 demo_world_6 = Some (s2, demo_world_6)
       /\ GameEngine._update_tracers (50 + 30) demo_paused_engine demo_world_6
          = Some (s2, demo_world_6).
Proof.
  assert (H1 : NoDup (map Tracer.oid (GameEngine.tracers demo_paused_engine)))
    by (cbn; repeat constructor; intros []).
  assert (H2 : 0 <= 30) by lia.
  split; [exact H1|]. split; [exact H2|].
  exact (tracers_age_additively 50 30 demo_paused_engine demo_world_6 H1 H2).
Defined.

(** * Further properties: the options menu *)

Lemma bind_ret_r {A : Type} (m : M A) (w : World) : bind m (fun a => ret a) w = m w.
Proof. unfold bind, ret. destruct (m w) as [[a w']|]; reflexivity. Qed.

Section OptionsMenu.

Import GameEngine.

Variable E : Env.

(** What no event can change while the options menu is open. *)
Lemma handle_options_event_keeps (ev : Event) (s : t) (w : World) :
  show_options s = true ->
  ensures (_handle_options_event ev s) w
    (fun s' _ =>
       running s' = running s /\ shoot_key_held s' = shoot_key_held s
       /\ difficulty s' = difficulty s /\ ammo s' = ammo s /\ max_ammo s' = max_ammo s
       /\ reloading s' = reloading s /\ score s' = score s /\ targets s' = targets s
       /\ spawn_interval s' = spawn_interval s /\ spawn_timer s' = spawn_timer s
       /\ (show_options s' = true -> paused s' = paused s)
       /\ (show_options s' = false -> paused s' = _options_paused_prev s)).
Proof.
  intros Hso.
  unfold _handle_options_event, _toggle_options, _toggle_mute, _change_volume,
    set_volume_at.
  rewrite Hso. cbn [negb].
  destruct ev as [|k|k|b [mx my]|b|[mx my]|]; try destruct k;
    repeat mstep;
    destruct s; cbn in *; subst;
    repeat split; try reflexivity; try discriminate; intros; congruence.
Qed.

(** X20.  Opening the options menu pauses the game and remembers whether
    it was paused; closing it, with O, with Escape or from the menu itself,
    restores that.  So the keys O then O, or O then Escape, lead back to the
    engine as it was, with nothing changed but the remembered pause flag:
    in particular Escape closes the menu and does not quit. *)
Theorem options_menu_round_trip (s : GameEngine.t) (w : World) (closer : Key) :
  show_options s = false -> closer = K_o \/ closer = K_ESCAPE ->
  show_options (_toggle_options s) = true
  /\ paused (_toggle_options s) = true
  /\ _toggle_options (_toggle_options s)
     = set__options_dragging_volume false (set__options_paused_prev (paused s) s)
  /\ _handle_events E [KEYDOWN K_o] s w = Some (_toggle_options s, w)
  /\ _handle_events E [KEYDOWN K_o; KEYDOWN closer] s w
     = Some (_toggle_options (_toggle_options s), w)
  /\ running (_toggle_options (_toggle_options s)) = running s
  /\ paused (_toggle_options (_toggle_options s)) = paused s
  /\ show_options (_toggle_options (_toggle_options s)) = false.
Proof.
  intros Hso Hcloser.
  assert (H1 : show_options (_toggle_options s) = true).
  { unfold _toggle_options. rewrite Hso. destruct s; reflexivity. }
  assert (H2 : _toggle_options (_toggle_options s)
               = set__options_dragging_volume false
                   (set__options_paused_prev (paused s) s)).
  { unfold _toggle_options. destruct s; cbn in Hso |- *. subst. reflexivity. }
  split; [exact H1|].
  split; [unfold _toggle_options; rewrite Hso; destruct s; reflexivity|].
  split; [exact H2|].
  split; [unfold _handle_events; cbn [for_each]; rewrite Hso; reflexivity|].
  split.
  { unfold _handle_events. cbn [for_each]. rewrite Hso. cbn [handle_game_event].
    unfold bind at 1. unfold ret at 1. rewrite H1.
    destruct Hcloser as [-> | ->]; reflexivity. }
  rewrite H2. destruct s; cbn in Hso |- *. subst. repeat split.
Qed.

(** X21.  While the options menu is open every event goes to the menu and
    none reaches the game: closing the window does not stop the loop, P
    does not toggle the pause, R starts no reload, the keys 1 to 3 select
    no difficulty, and neither pressing nor releasing Space changes whether
    the trigger is held, so a trigger held when the menu opened is still
    held when it closes.  The event is always handled without an error;
    the pause flag stays as it is while the menu stays open and goes back
    to the remembered one when the event closes it. *)
Theorem options_menu_swallows_events (ev : Event) (s : GameEngine.t) (w : World) :
  show_options s = true ->
  exists (s' : GameEngine.t) (w' : World),
    _handle_events E [ev] s w = Some (s', w')
    /\ running s' = running s /\ shoot_key_held s' = shoot_key_held s
    /\ difficulty s' = difficulty s /\ ammo s' = ammo s /\ max_ammo s' = max_ammo s
    /\ reloading s' = reloading s /\ score s' = score s /\ targets s' = targets s
    /\ spawn_interval s' = spawn_interval s /\ spawn_timer s' = spawn_timer s
    /\ (show_options s' = true -> paused s' = paused s)
    /\ (show_options s' = false -> paused s' = _options_paused_prev s).
Proof.
  intros Hso.
  destruct (halts_with _ w _ (handle_options_event_halts ev s w)
              (handle_options_event_keeps ev s w Hso)) as (s' & w' & Hrun & Hkeeps).
  exists s', w'. split; [|exact Hkeeps].
  unfold _handle_events. cbn [for_each]. rewrite Hso.
  rewrite bind_ret_r. exact Hrun.
Qed.

End OptionsMenu.

Lemma options_menu_round_trip_witness :
  GameEngine.show_options demo_engine = false
  /\ (K_ESCAPE = K_o \/ K_ESCAPE = K_ESCAPE)
  /\ GameEngine.running
       (GameEngine._toggle_options (GameEngine._toggle_options demo_engine)) = true.
Proof.
  assert (H1 : GameEngine.show_options demo_engine = false) by reflexivity.
  assert (H2 : K_ESCAPE = K_o \/ K_ESCAPE = K_ESCAPE) by (right; reflexivity).
  split; [exact H1|]. split; [exact H2|].
  destruct (options_menu_round_trip demo_env demo_engine demo_world K_ESCAPE H1 H2)
    as (_ & _ & _ & _ & _ & Hrun & _).
  exact Hrun.
Defined.

(** The window is closed while the menu of the constructed engine is open. *)
Lemma options_menu_swallows_events_witness :
  GameEngine.show_options (GameEngine._toggle_options demo_engine) = true
  /\ exists (s' : GameEngine.t) (w' : World),
       GameEngine._handle_events demo_env [QUIT]
         (GameEngine._toggle_options demo_engine) demo_world = Some (s', w')
       /\ GameEngine.running s' = true.
Proof.
  assert (H1 : GameEngine.show_options (GameEngine._toggle_options demo_engine) = true)
    by reflexivity.
  split; [exact H1|].
  destruct (options_menu_swallows_events demo_env QUIT
              (GameEngine._toggle_options demo_engine) demo_world H1)
    as (s' & w' & Hrun & Hr & _).
  exists s', w'. split; [exact Hrun | exact Hr].
Defined.

(** * Further properties: gestures, escalation, shots and volume *)

Section InputMore.

Import GameEngine.

Variable E : Env.

Lemma try_shoot_keeps_flags (aim_pos : option Pos) (s : t) (w : World) :
  ensures (_try_shoot E aim_pos s) w
    (fun s' _ => paused s' = paused s
                 /\ pause_gesture_active s' = pause_gesture_active s
                 /\ reload_gesture_active s' = reload_gesture_active s
                 /\ reloading s' = reloading s).
Proof.
  eapply ensures_mono; [apply try_shoot_shape|]. cbv beta.
  intros s' w' [->|[(_ & _ & _ & ->)|(_ & _ & Hf)]].
  - repeat split.
  - destruct s; repeat split.
  - destruct Hf as (now & mf & sc & ts & ex & sw & tr & ->).
    destruct s; repeat split.
Qed.

(** X22.  The pause and reload gestures act on their rising edge only.
    After the input block of a frame each latch equals the gesture of that
    frame; the pause flag has flipped exactly when the pause gesture is on
    and its latch was off, so a palm held over many frames toggles once and
    must be withdrawn before it can toggle again; a reload is running
    afterwards exactly when one ran before, or the reload gesture is on, its
    latch was off and the magazine is not full.  The block always
    completes in a state of distinct objects. *)
Theorem gesture_edges (fr : Frame) (s : GameEngine.t) (w : World) :
  distinct_objects s w ->
  returns (run_input E fr s) w
    (fun s' _ =>
       pause_gesture_active s' = g_pause fr
       /\ reload_gesture_active s' = g_reload fr
       /\ paused s' = xorb (paused s) (g_pause fr && negb (pause_gesture_active s))
       /\ reloading s'
          = reloading s
            || (g_reload fr && negb (reload_gesture_active s) && (ammo s <? max_ammo s))).
Proof.
  intros Hd. unfold run_input. cbv zeta.
  match goal with
  | |- returns (bind ?m _) _ _ =>
      match m with
      | context [_start_reload E ?x] => set (sa := x)
      end
  end.
  assert (Ha : distinct_objects sa w
               /\ pause_gesture_active sa = g_pause fr
               /\ paused sa = xorb (paused s) (g_pause fr && negb (pause_gesture_active s))
               /\ reload_gesture_active sa = reload_gesture_active s
               /\ reloading sa = reloading s /\ ammo sa = ammo s
               /\ max_ammo sa = max_ammo s).
  { subst sa. destruct (g_pause fr); [destruct (pause_gesture_active s) eqn:Hl|];
      unfold _toggle_pause, distinct_objects in *; cbn [negb andb].
    - rewrite Bool.xorb_false_r. repeat split; try apply Hd; try exact Hl.
    - destruct s; cbn in *. rewrite Bool.xorb_true_r. repeat split; try apply Hd.
    - destruct s; cbn in *. rewrite Bool.xorb_false_r. repeat split; try apply Hd. }
  clearbody sa. destruct Ha as (Hda & Hpg & Hpa & Hrg & Hrl & Ham & Hmx).
  rewrite <- Hrg, <- Hrl, <- Ham, <- Hmx. rewrite <- Hpa.
  clear Hd Hpa Hrg Hrl Ham Hmx.
  apply returns_bind.
  apply returns_mono
    with (P := fun sb wb =>
                 distinct_objects sb wb
                 /\ pause_gesture_active sb = g_pause fr
                 /\ reload_gesture_active sb = g_reload fr
                 /\ paused sb = paused sa
                 /\ reloading sb
                    = reloading sa
                      || (g_reload fr && negb (reload_gesture_active sa)
                          && (ammo sa <? max_ammo sa))).
  { destruct (g_reload fr); [destruct (reload_gesture_active sa) eqn:Hl; cbn [negb andb]|].
    - apply returns_ret. rewrite Bool.orb_false_r. repeat split; try apply Hda; assumption.
    - apply returns_bind.
      destruct (reloading sa) eqn:Hr; [|destruct (Z.ltb_spec (ammo sa) (max_ammo sa))].
      + eapply returns_eq; [apply start_reload_skip; now left|].
        apply returns_ret. cbn [orb].
        destruct sa; cbn in *. repeat split; try apply Hda; assumption.
      + eapply returns_eq; [now apply start_reload_run|].
        apply returns_ret. cbn [orb].
        unfold distinct_objects in *.
        destruct sa; cbn in *. repeat split; try apply Hda; assumption.
      + eapply returns_eq; [apply start_reload_skip; right; lia|].
        apply returns_ret. cbn [orb].
        destruct sa; cbn in *. repeat split; try apply Hda; assumption.
    - apply returns_ret. cbn [andb]. rewrite Bool.orb_false_r.
      unfold distinct_objects in *.
      destruct sa; cbn in *. repeat split; try apply Hda; assumption. }
  intros sb wb (Hdb & Hpgb & Hrgb & Hpb & Hrlb).
  rewrite <- Hpb, <- Hrlb, <- Hpgb, <- Hrgb. clear Hpb Hrlb Hpgb Hrgb Hda Hpg.
  assert (Hshot : forall sx wx,
             distinct_objects sx wx ->
             returns (_try_shoot E (aim_pos fr) sx) wx
               (fun sy wy => distinct_objects sy wy
                             /\ pause_gesture_active sy = pause_gesture_active sx
                             /\ reload_gesture_active sy = reload_gesture_active sx
                             /\ paused sy = paused sx /\ reloading sy = reloading sx)).
  { intros sx wx Hdx.
    eapply returns_mono;
      [eapply ensures_returns;
       [apply try_shoot_keeps_flags | apply try_shoot_runs; exact Hdx]|].
    cbv beta. intros sy wy ((H1 & H2 & H3 & H4) & Hdy).
    split; [exact Hdy|]. repeat split; assumption. }
  apply returns_bind.
  apply returns_mono
    with (P := fun sc wc => distinct_objects sc wc
                            /\ pause_gesture_active sc = pause_gesture_active sb
                            /\ reload_gesture_active sc = reload_gesture_active sb
                            /\ paused sc = paused sb /\ reloading sc = reloading sb).
  { destruct (g_shoot fr); [now apply Hshot|].
    apply returns_ret. split; [exact Hdb|]. repeat split. }
  intros sc wc (Hdc & H1 & H2 & H3 & H4). rewrite <- H1, <- H2, <- H3, <- H4.
  destruct (shoot_key_held sc).
  - eapply returns_mono; [now apply Hshot|]. cbv beta.
    intros sd wd (_ & H5 & H6 & H7 & H8). repeat split; assumption.
  - apply returns_ret. repeat split.
Qed.

Lemma escalated_interval_antitone (s : t) (t1 t2 : Q) :
  (t1 <= t2)%Q -> escalated_interval s t2 <= escalated_interval s t1.
Proof.
  intros Hle. unfold escalated_interval.
  assert (Hfl : Qfloor ((t1 - start_time s) / 20) <= Qfloor ((t2 - start_time s) / 20)).
  { apply Qfloor_resp_le. unfold Qdiv. apply Qmult_le_compat_r; [lra | discriminate]. }
  lia.
Qed.

Lemma escalated_interval_ignores (v : Z) (s : t) (now : Q) :
  escalated_interval (set_spawn_interval v s) now = escalated_interval s now.
Proof. destruct s; reflexivity. Qed.

(** X23.  The escalation only ever tightens the spawn interval as the
    session goes on: the interval written at a later reading of the clock
    is not above the one written at an earlier reading, it is never below
    the minimum of the profile, and once the clock has passed the start of
    the session it is at most the larger of 60 and that minimum.  The
    value does not depend on the interval in force, so the 70 frames of
    Easy and the 50 of Hard last until the first spawn only.  The call
    always returns, reads the clock once and writes nothing but the
    interval. *)
Theorem escalation_only_tightens (s : GameEngine.t) (w1 w2 : World) :
  (clock E (clock_reads w1) <= clock E (clock_reads w2))%Q ->
  exists s1 s2 : GameEngine.t,
    _maybe_increase_difficulty E s w1 = Some (s1, clock_read w1)
    /\ _maybe_increase_difficulty E s w2 = Some (s2, clock_read w2)
    /\ spawn_interval s2 <= spawn_interval s1
    /\ spawn_interval_min s <= spawn_interval s2
    /\ ((start_time s <= clock E (clock_reads w1))%Q ->
        spawn_interval s1 <= Z.max (spawn_interval_min s) 60)
    /\ s1 = set_spawn_interval (spawn_interval s1) s
    /\ (forall v : Z,
          exists s1' : GameEngine.t,
            _maybe_increase_difficulty E (set_spawn_interval v s) w1
            = Some (s1', clock_read w1)
            /\ spawn_interval s1' = spawn_interval s1).
Proof.
  intros Hle.
  destruct (maybe_increase_difficulty_run E s w1) as (s1 & Hrun1 & Hi1 & Hs1).
  destruct (maybe_increase_difficulty_run E s w2) as (s2 & Hrun2 & Hi2 & _).
  exists s1, s2. split; [exact Hrun1|]. split; [exact Hrun2|].
  split; [rewrite Hi1, Hi2; now apply escalated_interval_antitone|].
  split; [rewrite Hi2; unfold escalated_interval; apply Z.le_max_l|].
  split.
  { intros Hstart. rewrite Hi1. unfold escalated_interval.
    assert (Hfl : 0 <= Qfloor ((clock E (clock_reads w1) - start_time s) / 20)).
    { change 0 with (Qfloor (inject_Z 0)). apply Qfloor_resp_le.
      change (inject_Z 0) with 0%Q.
      apply Qle_shift_div_l; [reflexivity | lra]. }
    lia. }
  split.
  { destruct Hs1 as [-> | Hs1]; [destruct s; reflexivity|].
    rewrite Hs1 at 1. rewrite <- Hi1. reflexivity. }
  intros v.
  destruct (maybe_increase_difficulty_run E (set_spawn_interval v s) w1)
    as (s1' & Hrun' & Hi' & _).
  exists s1'. split; [exact Hrun'|].
  now rewrite Hi', Hi1, escalated_interval_ignores.
Qed.



End InputMore.

Section VolumeMore.

Import GameEngine GameEngineAudio.

Lemma sound_volumes_range (k : string) :
  (0 < match sound_volumes k with Some b => b | None => 1.0 end <= 1)%Q.
Proof.
  unfold sound_volumes.
  destruct (String.eqb k "shot"); [split; [reflexivity | discriminate]|].
  destruct (String.eqb k "hit"); [split; [reflexivity | discriminate]|].
  destruct (String.eqb k "reload"); [split; [reflexivity | discriminate]|].
  destruct (String.eqb k "dry"); split; try reflexivity; discriminate.
Qed.

(** X25.  Applying the volume does nothing while the mixer is closed;
    otherwise it sets the volume of every loaded cue once, in order, to a
    value between 0 and 1: zero when muted, and else the master volume
    times the base volume of the cue (0.9 for the shot, 0.8 for hit and
    reload, 0.7 for the dry click, 1.0 for any other cue), which for a
    master volume within 0 and 1 needs no clamping. *)
Theorem apply_volume_calls (s : GameEngine.t) :
  (audio_enabled s = false -> _apply_volume s = [])
  /\ (audio_enabled s = true -> map fst (_apply_volume s) = sounds s)
  /\ (forall (k : string) (v : Q),
        In (k, v) (_apply_volume s) ->
        In k (sounds s)
        /\ v = cue_volume s k
        /\ (0 <= v <= 1)%Q
        /\ (muted s = true -> (v == 0)%Q)
        /\ (muted s = false -> (0 <= master_volume s <= 1)%Q ->
            (v == master_volume s
                  * match sound_volumes k with Some b => b | None => 1.0 end)%Q)).
Proof.
  unfold _apply_volume.
  split; [intros ->; reflexivity|]. split.
  { intros ->. cbn [negb]. rewrite map_map. cbn [fst]. apply map_id. }
  intros k v Hin.
  destruct (audio_enabled s); cbn [negb] in Hin; [|destruct Hin].
  apply in_map_iff in Hin. destruct Hin as (k0 & Heq & Hk). injection Heq as -> <-.
  split; [exact Hk|]. split; [reflexivity|].
  unfold cue_volume.
  pose proof (sound_volumes_range k) as [Hb0 Hb1].
  set (base := match sound_volumes k with Some b => b | None => 1.0%Q end) in *.
  destruct (muted s).
  - split; [split; discriminate|]. split; [reflexivity | discriminate].
  - split; [apply clamp01|]. split; [discriminate|].
    intros _ [Hm0 Hm1].
    assert (Hprod0 : (0 <= master_volume s * base)%Q).
    { apply Qmult_le_0_compat; [exact Hm0 | now apply Qlt_le_weak]. }
    assert (Hprod1 : (master_volume s * base <= 1)%Q).
    { apply Qle_trans with (1 * base)%Q; [|lra].
      apply Qmult_le_compat_r; [exact Hm1 | now apply Qlt_le_weak]. }
    rewrite (Q.min_r 1.0 _) by (apply Qle_trans with 1%Q; [exact Hprod1 | discriminate]).
    apply Q.max_r. apply Qle_trans with 0%Q; [discriminate | exact Hprod0].
Qed.

End VolumeMore.

Lemma demo_engine_distinct : distinct_objects demo_engine demo_world.
Proof.
  unfold distinct_objects, fresh_below. cbn.
  repeat split; try constructor; intros o [].
Qed.

(** A frame with the open palm shown to the constructed engine. *)
Lemma gesture_edges_witness :
  distinct_objects demo_engine demo_world
  /\ returns (GameEngine.run_input demo_env
                (mkFrame 16 [] false false true (Some (105, 100))) demo_engine)
       demo_world
       (fun s' _ => GameEngine.pause_gesture_active s' = true
                    /\ GameEngine.paused s' = true).
Proof.
  split; [exact demo_engine_distinct|].
  destruct (gesture_edges demo_env (mkFrame 16 [] false false true (Some (105, 100)))
              demo_engine demo_world demo_engine_distinct)
    as (s' & w' & Hrun & Hlatch & _ & Hpaused & _).
  exists s', w'. split; [exact Hrun|]. split; [exact Hlatch | exact Hpaused].
Defined.

(** One second and 46 seconds on the concrete clock. *)
Lemma escalation_only_tightens_witness :
  (clock demo_env (clock_reads demo_world) <= clock demo_env (clock_reads demo_world_46s))%Q
  /\ exists s1 s2 : GameEngine.t,
       GameEngine._maybe_increase_difficulty demo_env demo_engine demo_world
       = Some (s1, clock_read demo_world)
       /\ GameEngine._maybe_increase_difficulty demo_env demo_engine demo_world_46s
          = Some (s2, clock_read demo_world_46s)
       /\ GameEngine.spawn_interval s2 <= GameEngine.spawn_interval s1.
Proof.
  assert (H : (clock demo_env (clock_reads demo_world)
               <= clock demo_env (clock_reads demo_world_46s))%Q)
    by (vm_compute; discriminate).
  split; [exact H|].
  destruct (escalation_only_tightens demo_env demo_engine demo_world demo_world_46s H)
    as (s1 & s2 & H1 & H2 & H3 & _).
  exists s1, s2. split; [exact H1|]. split; [exact H2 | exact H3].
Defined.


(** * Further properties: the end of the loop and the frames of a hand *)

Section LoopEnd.

Import GameEngine.

Variable E : Env.

(** X26.  Closing the window, or Escape with the options menu closed,
    ends the session at the end of the frame it arrives in, on a screen of
    at least 100 x 100 pixels: the rest of that frame still runs to its
    end (the remaining events, the gestures, the spawn and the effects),
    nothing in it sets the loop going again, and no further frame is
    run. *)
Theorem quit_ends_the_loop (fr : Frame) (rest : list Frame) (evs : list Event)
  (stop : Event) (s : GameEngine.t) (w : World) :
  reachable E s w -> roomy s ->
  running s = true -> show_options s = false ->
  stop = QUIT \/ stop = KEYDOWN K_ESCAPE ->
  events fr = stop :: evs ->
  exists (s' : GameEngine.t) (w' : World),
    run_iteration E fr s w = Some (s', w')
    /\ running s' = false
    /\ run E (fr :: rest) s w = Some (s', w')
    /\ score s <= score s'.
Proof.
  intros Hreach Hroomy Hrun Hso Hstop Hev.
  set (s0 := set_running false s).
  set (fr' := mkFrame (dt_ms fr) evs (g_shoot fr) (g_reload fr) (g_pause fr) (aim_pos fr)).
  assert (Heq : run_iteration E fr s w = run_iteration E fr' s0 w).
  { unfold run_iteration, run_before_world. rewrite Hev.
    unfold _handle_events at 1. cbn [for_each]. rewrite Hso.
    destruct Hstop as [-> | ->]; cbn [handle_game_event]; reflexivity. }
  pose proof (reachable_sound E s w Hreach) as Hs.
  pose proof (reachable_distinct E s w Hreach) as Hd.
  assert (Hs0 : advances s s0) by (subst s0; now apply stop_advances).
  assert (Hd0 : distinct_objects s0 w).
  { subst s0. unfold distinct_objects in *. destruct s; exact Hd. }
  assert (Hr0 : running s0 = false) by (subst s0; destruct s; reflexivity).
  destruct (run_iteration_runs E fr' s0 w Hd0 (proj1 Hs0) (advances_roomy _ _ Hs0 Hroomy))
    as (s' & w' & Hit & _ & Hadv).
  assert (Hstopped : running s' = false) by (apply Hadv; exact Hr0).
  exists s', w'. rewrite Heq.
  split; [exact Hit|]. split; [exact Hstopped|]. split.
  - cbn [run]. rewrite Hrun. unfold bind. rewrite Heq, Hit.
    destruct rest as [|fr2 rest]; cbn [run]; [reflexivity|].
    now rewrite Hstopped.
  - destruct Hs0 as (_ & Hle0 & _). destruct Hadv as (_ & Hle & _). lia.
Qed.

End LoopEnd.

(** The window is closed in the first frame of the constructed engine. *)
Lemma quit_ends_the_loop_witness :
  reachable demo_env demo_engine (mkWorld 1 0 0 [])
  /\ roomy demo_engine
  /\ GameEngine.running demo_engine = true
  /\ GameEngine.show_options demo_engine = false
  /\ exists (s' : GameEngine.t) (w' : World),
       GameEngine.run demo_env
         [mkFrame 16 [QUIT] false false false None; demo_frame_120]
         demo_engine (mkWorld 1 0 0 [])
       = Some (s', w')
       /\ GameEngine.running s' = false.
Proof.
  assert (Hroomy : roomy demo_engine) by (unfold roomy; cbn; lia).
  split; [exact demo_engine_reachable|]. split; [exact Hroomy|].
  split; [reflexivity|]. split; [reflexivity|].
  destruct (quit_ends_the_loop demo_env (mkFrame 16 [QUIT] false false false None)
              [demo_frame_120] [] QUIT demo_engine (mkWorld 1 0 0 [])
              demo_engine_reachable Hroomy eq_refl eq_refl (or_introl eq_refl) eq_refl)
    as (s' & w' & _ & Hstopped & Hrun & _).
  exists s', w'. split; [exact Hrun | exact Hstopped].
Defined.

Section HandFrames.

Import HandTracker.

Lemma gestures_need_a_hand (landmarks : option (list Pos)) :
  exists g : Gestures,
    (if truthy landmarks then detect_gestures landmarks else Some no_gestures) = Some g
    /\ exclusive g
    /\ (g = no_gestures
        \/ exists l, landmarks = Some l /\ (21 <= length l)%nat).
Proof.
  unfold exclusive.
  destruct landmarks as [l|]; [|exists no_gestures; cbn; repeat split; now left].
  destruct (truthy (Some l)) eqn:Htruthy;
    [|exists no_gestures; cbn; repeat split; now left].
  cbn [detect_gestures]. rewrite Htruthy. cbn [negb orb].
  destruct (Nat.ltb_spec (length l) 21) as [Hshort|Hlong];
    [exists no_gestures; cbn; repeat split; now left|].
  destruct (fingers_up_total l Hlong) as (f & ->).
  eexists. split; [reflexivity|]. cbn [shoot reload pause].
  split; [destruct (index f), (middle f), (ring f), (pinky f); repeat split|].
  right. exists l. now split.
Qed.

Lemma filtered_some (f : MovementFilter.t) :
  MovementFilter.buffer f <> [] ->
  exists p : Pos, MovementFilter.get_filtered_position f = Some p.
Proof.
  intros Hne. rewrite (get_filtered_position_mean f Hne). eexists. reflexivity.
Qed.

(** X27.  What the loop takes from a hand tracker in one frame is always
    well formed when the filter respects its window: polling never raises,
    the filter still respects its window afterwards, at most one of the
    three gestures is on, and a gesture that is on always comes with an
    aim point, because gestures need 21 landmarks and the aim only the
    ninth.  A hand of at most 8 landmarks, or none, gives a frame without
    gestures and without aim and leaves the tracker untouched. *)
Theorem hand_frame_well_formed (dt : Z) (evs : list Event)
  (landmarks : option (list Pos)) (tr : HandTracker.t) :
  window_ok (filter tr) ->
  exists (fr : Frame) (tr' : HandTracker.t),
    poll_hand dt evs landmarks tr = Some (fr, tr')
    /\ window_ok (filter tr')
    /\ dt_ms fr = dt /\ events fr = evs
    /\ g_shoot fr && g_reload fr = false
    /\ g_shoot fr && g_pause fr = false
    /\ g_reload fr && g_pause fr = false
    /\ (g_shoot fr = true \/ g_reload fr = true \/ g_pause fr = true ->
        exists p : Pos, aim_pos fr = Some p)
    /\ ((forall l, landmarks = Some l -> (length l <= 8)%nat) ->
        fr = mkFrame dt evs false false false None /\ tr' = tr).
Proof.
  intros Hok. unfold poll_hand.
  destruct (gestures_need_a_hand landmarks) as (g & -> & (Hx1 & Hx2 & Hx3) & Hhand).
  destruct landmarks as [l|].
  - destruct (nth_error l 8) as [tip|] eqn:Htip.
    + rewrite (aim_position_run l tip tr Htip).
      match goal with
      | |- context [MovementFilter.add_position (Some ?pos) ?f] =>
          assert (Hokf : window_ok f) by (now apply set_buffer_size_window_ok);
          pose proof (add_position_window_ok (Some pos) f Hokf) as Hokf';
          destruct (filtered_some (MovementFilter.add_position (Some pos) f)
                      (add_position_nonempty pos f Hokf)) as (p & Hp)
      end.
      rewrite Hp. eexists. eexists. split; [reflexivity|].
      cbn [filter dt_ms events g_shoot g_reload g_pause aim_pos].
      split; [exact Hokf'|]. do 2 (split; [reflexivity|]).
      do 3 (split; [assumption|]).
      split; [intros _; now exists p|].
      intros Hshort. specialize (Hshort l eq_refl).
      assert (8 < length l)%nat by (apply nth_error_Some; rewrite Htip; discriminate).
      lia.
    + assert (Hlen : (length l <= 8)%nat) by now apply nth_error_None.
      assert (Haim : get_aim_position (Some l) tr = Some (None, tr)).
      { unfold get_aim_position.
        destruct (Nat.leb_spec (length l) 8) as [_|Hgt]; [|lia].
        now rewrite Bool.orb_true_r. }
      rewrite Haim.
      assert (Hg : g = no_gestures).
      { destruct Hhand as [Hg | (l0 & Heq & Hlong)]; [exact Hg|].
        injection Heq as <-. lia. }
      subst g. eexists. eexists. split; [reflexivity|].
      cbn [dt_ms events g_shoot g_reload g_pause aim_pos shoot reload pause no_gestures
           andb].
      split; [exact Hok|]. do 5 (split; [reflexivity|]).
      split; [intros [H|[H|H]]; discriminate|].
      intros _. split; reflexivity.
  - assert (Hg : g = no_gestures).
    { destruct Hhand as [Hg | (l0 & Heq & _)]; [exact Hg | discriminate]. }
    subst g. cbn [get_aim_position]. eexists. eexists. split; [reflexivity|].
    cbn [dt_ms events g_shoot g_reload g_pause aim_pos shoot reload pause no_gestures
         andb].
    split; [exact Hok|]. do 5 (split; [reflexivity|]).
    split; [intros [H|[H|H]]; discriminate|].
    intros _. split; reflexivity.
Qed.

End HandFrames.

(** The pointing hand before the settled tracker: a frame that shoots. *)
Lemma hand_frame_well_formed_witness :
  window_ok (HandTracker.filter demo_tracker)
  /\ exists (fr : Frame) (tr' : HandTracker.t),
       poll_hand 16 [] (Some demo_hand) demo_tracker = Some (fr, tr')
       /\ window_ok (HandTracker.filter tr').
Proof.
  split; [exact demo_tracker_window_ok|].
  destruct (hand_frame_well_formed 16 [] (Some demo_hand) demo_tracker
              demo_tracker_window_ok) as (fr & tr' & Hrun & Hok & _).
  exists fr, tr'. split; [exact Hrun | exact Hok].
Defined.
